(** * hug-keepalive: the poll / resolve / detect / update loop of [src/index.ts]

    A shallow embedding of the keep-alive tool.  JavaScript strings are
    modelled as [string] (the UTF-8 bytes of the text), numbers that the
    program only uses as integers (status codes, milliseconds, attempt
    counters) as [Z], plain objects used as dictionaries as [gmap], and
    [async] functions that log, sleep, talk to the network and mutate the
    module-level [cookieStorage] as computations in a state-and-exception
    monad over an explicit machine state. *)

From Stdlib Require Import ZArith Lia String Ascii List Bool.
From stdpp Require Import base option list strings gmap pretty.

Local Open Scope string_scope.
Local Open Scope Z_scope.

(** ** JavaScript values used by the program *)

(** [String.prototype.includes]: [marker] occurs somewhere inside [s]. *)
Fixpoint includes (s marker : string) : bool :=
  String.prefix marker s ||
  match s with
  | EmptyString => false
  | String _ s' => includes s' marker
  end.

(** Truthiness of a string: every string but the empty one. *)
Definition truthy (s : string) : bool :=
  match s with EmptyString => false | _ => true end.

(** [Array.prototype.includes] on an array of integers. *)
Definition array_includes (xs : list Z) (x : Z) : bool :=
  existsb (Z.eqb x) xs.

(** What a [catch] clause can receive.  [err_is_Error] is the answer of
    [error instanceof Error]; for other thrown values [err_message] holds
    [String(error)]. *)
Record JsError : Type := mkError {
  err_is_Error : bool;
  err_name : string;
  err_code : string;
  err_message : string
}.

(** ** Configuration (interface [Config], lines 38-49) *)

Record UptimeKuma : Type := mkUptimeKuma {
  pushUrl : string;
  enabled : bool
}.

Record Config : Type := mkConfig {
  spaceUrl : string;
  targetUrl : string;
  cookie : string;
  interval : Z;
  expectedStatusCodes : list Z;
  maxRetries : Z;
  uptimeKuma : option UptimeKuma
}.

(** Lines 139-142. *)
Definition FAILURE_MARKERS : list string :=
  [ "Sorry, we can't find the page you are looking for.";
    "https://huggingface.co/front/assets/huggingface_logo.svg" ].

(** Lines 493-495. *)
Definition containsFailureMarker (responseBody : string) : bool :=
  existsb (fun marker => includes responseBody marker) FAILURE_MARKERS.

(** ** The libraries the program imports

    [new URL], the [cookie] package, [cheerio] and [JSON.parse] are not
    part of the repository.  The program is modelled over an interface
    that says what each call returns or throws; the theorems about the
    program hold for every implementation of it. *)

Record SetCookie : Type := mkSetCookie {
  sc_name : string;
  sc_value : option string
}.

Class Platform : Type := {
  (** [new URL(url).hostname], or the error the constructor throws. *)
  new_URL_hostname : string -> JsError + string;
  (** [cookie.parseCookie(str)]. *)
  parseCookie : string -> JsError + gmap string (option string);
  (** [cookie.stringifyCookie(obj)]. *)
  stringifyCookie : gmap string string -> JsError + string;
  (** [cookie.parseSetCookie(header)]. *)
  parseSetCookie : string -> JsError + SetCookie;
  (** [cheerio.load(html)("iframe.space-iframe")]: for every matched
      element, in document order, its [src] attribute if it has one. *)
  select_space_iframe : string -> JsError + list (option string);
  (** [JSON.parse(body)] of a monitor reply, read through [result.ok]
      (as a boolean) and [result.msg]. *)
  parsePushReply : string -> JsError + (bool * string)
}.

(** ** The outside world: network, clock, console *)

(** The three places of the program that call [request]. *)
Inductive Site : Type := Wrapper | Target | Monitor.

(** [response.headers["set-cookie"]]: undefined, a string or an array. *)
Inductive SetCookieHeader : Type :=
  | NoSetCookie
  | OneSetCookie (h : string)
  | ManySetCookie (hs : list string).

Record Response : Type := mkResponse {
  statusCode : Z;
  set_cookie : SetCookieHeader;
  (** what [response.body.text()] resolves to or rejects with *)
  body_text : JsError + string;
  (** milliseconds between issuing the request and receiving the headers *)
  headersDelay : Z;
  (** milliseconds between receiving the headers and the end of the body *)
  bodyDelay : Z
}.

Inductive NetAnswer : Type :=
  | Responds (r : Response)
  | Rejects (delay : Z) (e : JsError).

(** The answer to the [n]-th request issued at each site. *)
Definition World : Type := Site -> nat -> NetAnswer.

Inductive Status : Type := Up | Down.

Inductive RequestInfo : Type :=
  | Get (url : string) (cookieHeader : string)
  | Push (url : string) (status : Status) (msg : string) (ping : option Z).

Inductive Level : Type := LLog | LWarn | LError.

(** The console lines of the program, one constructor per call of
    [console.log], [console.warn] or [console.error], without the
    timestamp; [attempt] stands for the retry label.  A text that the
    program cuts short for the console (a long cookie value, the
    response body) is kept whole. *)
Inductive LogMsg : Type :=
  | CookieNotFound (domain : string)
  | DumpStorage (storage : gmap string (gmap string string))
  | NoDomainSkipUpdate
  | CookieUpdated (name value : string)
  | SetCookieParseFailed (e : JsError)
  | CookiesUpdated (domain : string) (updateCount : Z)
  | Pushing (status : Status)
  | PushOk
  | PushRejected (msg : string)
  | PushHttp (status : Z)
  | PushException (msg : string)
  | IframeNotFound
  | IframeNoSrc
  | IframeFound (src : string)
  | HtmlParseFailed (e : JsError)
  | VisitingSpace (url : string)
  | SpaceHttp (status : Z)
  | SpaceException (msg : string)
  | FallbackTarget (attempt : Z)
  | NoTarget (attempt : Z)
  | Visiting (attempt : Z) (url : string)
  | MarkerDetected (attempt : Z)
  | MarkerStatus (attempt : Z) (status : Z)
  | MarkerReason (attempt : Z)
  | UnexpectedCode (attempt : Z) (status : Z)
  | ExpectedCodes (attempt : Z) (codes : list Z)
  | BodyPreview (attempt : Z) (body : string)
  | WaitRetry (attempt : Z)
  | KeepAliveOk (attempt : Z) (status : Z) (responseTime : Z)
  | TimedOut (attempt : Z)
  | ConnectFailed (attempt : Z)
  | UnknownError (attempt : Z) (msg : string)
  | AllRetriesFailed (maxRetries : Z).

Inductive Event : Type :=
  | EAttempt (attempt : Z)                (* a turn of the retry loop begins *)
  | EDateNow                              (* [Date.now()] *)
  | ERequest (site : Site) (r : RequestInfo)  (* [request(...)] issued *)
  | EHeaders (site : Site) (status : Z)   (* [await request(...)] resolved *)
  | ERejected (site : Site) (e : JsError) (* [await request(...)] rejected *)
  | EBodyRead (site : Site)               (* [body.text()] resolved *)
  | EBodyFailed (site : Site) (e : JsError)
  | ESleep (ms : Z)                       (* [sleep(ms)] *)
  | ENotify (status : Status) (msg : string) (ping : option Z)
                                          (* call of [pushToUptimeKuma] *)
  | ELog (level : Level) (msg : LogMsg).

(** The machine state: the module-level [cookieStorage], the wall clock
    in milliseconds, how many requests each site has issued, and the
    history of effects, oldest first, each with the time it happened. *)
Record State : Type := mkState {
  cookieStorage : gmap string (gmap string string);
  now : Z;
  sentWrapper : nat;
  sentTarget : nat;
  sentMonitor : nat;
  trace : list (Z * Event)
}.

Definition sent (site : Site) (s : State) : nat :=
  match site with
  | Wrapper => sentWrapper s
  | Target => sentTarget s
  | Monitor => sentMonitor s
  end.

Definition count_request (site : Site) (s : State) : State :=
  match site with
  | Wrapper => mkState (cookieStorage s) (now s) (S (sentWrapper s)) (sentTarget s) (sentMonitor s) (trace s)
  | Target => mkState (cookieStorage s) (now s) (sentWrapper s) (S (sentTarget s)) (sentMonitor s) (trace s)
  | Monitor => mkState (cookieStorage s) (now s) (sentWrapper s) (sentTarget s) (S (sentMonitor s)) (trace s)
  end.

Definition emit (e : Event) (s : State) : State :=
  mkState (cookieStorage s) (now s) (sentWrapper s) (sentTarget s) (sentMonitor s)
          (trace s ++ [(now s, e)])%list.

Definition advance (ms : Z) (s : State) : State :=
  mkState (cookieStorage s) (now s + ms) (sentWrapper s) (sentTarget s) (sentMonitor s) (trace s).

Definition set_storage (st : gmap string (gmap string string)) (s : State) : State :=
  mkState st (now s) (sentWrapper s) (sentTarget s) (sentMonitor s) (trace s).

(** ** Computations: state and exceptions *)

Inductive Result (A : Type) : Type :=
  | Done (a : A)
  | Thrown (e : JsError).
Arguments Done {A} a.
Arguments Thrown {A} e.

Definition Js (A : Type) : Type := State -> Result A * State.

Definition ret {A} (a : A) : Js A := fun s => (Done a, s).

Definition throw {A} (e : JsError) : Js A := fun s => (Thrown e, s).

Definition bind {A B} (m : Js A) (k : A -> Js B) : Js B :=
  fun s => match m s with
           | (Done a, s') => k a s'
           | (Thrown e, s') => (Thrown e, s')
           end.

(** [try { m } catch (error) { h error }]: the state changes made before
    the throw stay. *)
Definition try_catch {A} (m : Js A) (h : JsError -> Js A) : Js A :=
  fun s => match m s with
           | (Done a, s') => (Done a, s')
           | (Thrown e, s') => h e s'
           end.

Notation "'let*' x ':=' m 'in' k" := (bind m (fun x => k))
  (at level 10, x name, m at level 100, k at level 200).
Notation "m ';;' k" := (bind m (fun _ => k))
  (at level 100, k at level 200, right associativity).

Definition lift {A} (r : JsError + A) : Js A :=
  match r with
  | inl e => throw e
  | inr a => ret a
  end.

Definition console (level : Level) (msg : LogMsg) : Js unit :=
  fun s => (Done tt, emit (ELog level msg) s).

Definition getStorage : Js (gmap string (gmap string string)) :=
  fun s => (Done (cookieStorage s), s).

Definition putStorage (st : gmap string (gmap string string)) : Js unit :=
  fun s => (Done tt, set_storage st s).

(** [Date.now()]. *)
Definition Date_now : Js Z :=
  fun s => (Done (now s), emit EDateNow s).

(** [sleep(ms)], lines 692-694: the timer fires after [ms] milliseconds. *)
Definition sleep (ms : Z) : Js unit :=
  fun s => (Done tt, advance ms (emit (ESleep ms) s)).

(** Marks the start of a turn of the retry loop in the history. *)
Definition began (attempt : Z) : Js unit :=
  fun s => (Done tt, emit (EAttempt attempt) s).

(** Marks a call of [pushToUptimeKuma] in the history. *)
Definition notified (status : Status) (msg : string) (ping : option Z) : Js unit :=
  fun s => (Done tt, emit (ENotify status msg ping) s).

Section Network.
Context (world : World).

(** [await request(url, ...)] at a site: the world answers the request
    after some time, with the response head or with an error. *)
Definition request (site : Site) (r : RequestInfo) : Js Response :=
  fun s =>
    let s1 := count_request site (emit (ERequest site r) s) in
    match world site (sent site s) with
    | Responds resp =>
        let s2 := advance (headersDelay resp) s1 in
        (Done resp, emit (EHeaders site (statusCode resp)) s2)
    | Rejects delay e =>
        let s2 := advance delay s1 in
        (Thrown e, emit (ERejected site e) s2)
    end.
End Network.

(** [await response.body.text()]. *)
Definition body_text_of (site : Site) (resp : Response) : Js string :=
  fun s =>
    let s1 := advance (bodyDelay resp) s in
    match body_text resp with
    | inr text => (Done text, emit (EBodyRead site) s1)
    | inl e => (Thrown e, emit (EBodyFailed site e) s1)
    end.

(** ** The program *)

Section Program.
Context `{Platform} (CONFIG : Config) (world : World).

(** Lines 210-217. *)
Definition extractDomain (url : string) : string :=
  match new_URL_hostname url with
  | inr hostname => hostname
  | inl _ => ""
  end.

(** Lines 222-262.  [None] stands for [process.exit(1)]; the banner
    lines printed on success are left out.  Every origin gets a copy of
    its own of the parsed cookies ([{ ...cookieObj }]), so the entries
    of two origins never share an object. *)
Definition initCookie (storage : gmap string (gmap string string))
  : option (gmap string (gmap string string)) :=
  let urls :=
    ((if truthy (spaceUrl CONFIG) then [spaceUrl CONFIG] else []) ++
     (if truthy (targetUrl CONFIG) then [targetUrl CONFIG] else []))%list in
  let uniqueDomains := List.filter truthy (List.map extractDomain urls) in
  match parseCookie (cookie CONFIG) with
  | inl _ => None
  | inr parsed =>
      let cookieObj : gmap string string := omap id parsed in
      Some (fold_left (fun st domain => <[domain := cookieObj]> st)
                      uniqueDomains storage)
  end.

(** Lines 268-279. *)
Definition serializeCookie (url : string) : Js string :=
  let domain := extractDomain url in
  let* storage := getStorage in
  match (if truthy domain then storage !! domain else None) with
  | None =>
      console LWarn (CookieNotFound domain) ;;
      ret ""
  | Some entry =>
      console LLog (DumpStorage storage) ;;
      lift (stringifyCookie entry)
  end.

(** Lines 300-322: the loop over the directives, with the running
    [updateCount]. *)
Fixpoint updateCookies_loop (domain : string) (setCookieHeaders : list string)
    (updateCount : Z) : Js Z :=
  match setCookieHeaders with
  | [] => ret updateCount
  | setCookieHeader :: rest =>
      let* updateCount' :=
        try_catch
          (let* parsed := lift (parseSetCookie setCookieHeader) in
           match sc_value parsed with
           | Some value =>
               if truthy (sc_name parsed) && truthy value then
                 let* storage := getStorage in
                 let entry := default ∅ (storage !! domain) in
                 let oldValue := entry !! sc_name parsed in
                 putStorage (<[domain := <[sc_name parsed := value]> entry]> storage) ;;
                 (if decide (oldValue = Some value) then ret tt
                  else console LLog (CookieUpdated (sc_name parsed) value)) ;;
                 ret (updateCount + 1)
               else ret updateCount
           | None => ret updateCount
           end)
          (fun error =>
             console LWarn (SetCookieParseFailed error) ;;
             ret updateCount) in
      updateCookies_loop domain rest updateCount'
  end.

(** Lines 285-328. *)
Definition updateCookies (url : string) (setCookieHeaders : list string) : Js unit :=
  let domain := extractDomain url in
  if negb (truthy domain) then
    console LWarn NoDomainSkipUpdate
  else
    let* storage := getStorage in
    (match storage !! domain with
     | None => putStorage (<[domain := ∅]> storage)
     | Some _ => ret tt
     end) ;;
    let* updateCount := updateCookies_loop domain setCookieHeaders 0 in
    if 0 <? updateCount then
      console LLog (CookiesUpdated domain updateCount) ;;
      let* storage' := getStorage in
      console LLog (DumpStorage storage')
    else ret tt.

(** Lines 338-389. *)
Definition pushToUptimeKuma (status : Status) (msg : string) (ping : option Z)
  : Js unit :=
  notified status msg ping ;;
  match uptimeKuma CONFIG with
  | None => ret tt
  | Some kuma =>
      if negb (enabled kuma) then ret tt
      else
        try_catch
          (lift (new_URL_hostname (pushUrl kuma)) ;;
           console LLog (Pushing status) ;;
           let* response := request world Monitor (Push (pushUrl kuma) status msg ping) in
           let* responseBody := body_text_of Monitor response in
           if statusCode response =? 200 then
             let* result := lift (parsePushReply responseBody) in
             if fst result then console LLog PushOk
             else console LWarn
                    (PushRejected (if truthy (snd result) then snd result
                                   else "未知错误"))
           else console LWarn (PushHttp (statusCode response)))
          (fun error => console LWarn (PushException (err_message error)))
  end.

(** Lines 398-420. *)
Definition extractIframeUrl (html : string) : Js (option string) :=
  try_catch
    (let* iframe := lift (select_space_iframe html) in
     match iframe with
     | [] =>
         console LWarn IframeNotFound ;;
         ret None
     | first :: _ =>
         match first with
         | Some src =>
             if truthy src then
               console LLog (IframeFound src) ;;
               ret (Some src)
             else
               console LWarn IframeNoSrc ;;
               ret None
         | None =>
             console LWarn IframeNoSrc ;;
             ret None
         end
     end)
    (fun error =>
       console LError (HtmlParseFailed error) ;;
       ret None).

(** Lines 454-463 and 567-576: the [set-cookie] header of a response. *)
Definition handleSetCookie (url : string) (response : Response) : Js unit :=
  match set_cookie response with
  | NoSetCookie => ret tt
  | OneSetCookie h =>
      if truthy h then updateCookies url [h] else ret tt
  | ManySetCookie hs =>
      match hs with
      | [] => ret tt
      | _ => updateCookies url hs
      end
  end.

(** Lines 426-486. *)
Definition getIframeUrl : Js (option string) :=
  try_catch
    (console LLog (VisitingSpace (spaceUrl CONFIG)) ;;
     let* cookieHeader := serializeCookie (spaceUrl CONFIG) in
     let* response := request world Wrapper (Get (spaceUrl CONFIG) cookieHeader) in
     handleSetCookie (spaceUrl CONFIG) response ;;
     let* html := body_text_of Wrapper response in
     if negb (statusCode response =? 200) then
       console LError (SpaceHttp (statusCode response)) ;;
       ret None
     else
       extractIframeUrl html)
    (fun error =>
       console LError (SpaceException (err_message error)) ;;
       ret None).
End Program.

(** ** The poll cycle: [keepAlive], lines 509-687 *)

(** How one turn of the retry loop ends: [continue] (with the value of
    [lastError] it leaves behind) or [return]. *)
Inductive Ctl : Type :=
  | Continue (lastError : JsError)
  | Return.

(** The three branches of the [if] chain of lines 587-635. *)
Inductive Outcome : Type := ContentFailure | UnexpectedStatus | Success.

(** [new Error(message)]. *)
Definition new_Error (message : string) : JsError :=
  mkError true "Error" "" message.

Definition is_timeout (error : JsError) : bool :=
  String.eqb (err_name error) "HeadersTimeoutError" ||
  String.eqb (err_name error) "BodyTimeoutError".

Definition is_connect (error : JsError) : bool :=
  String.eqb (err_code error) "UND_ERR_CONNECT".

Section PollCycle.
Context `{Platform} (CONFIG : Config) (world : World).

(** Lines 582-587, 604 and 628: which branch a response takes. *)
Definition classify (statusCode : Z) (responseBody : string) : Outcome :=
  let hasFailureMarker := containsFailureMarker responseBody in
  let isExpectedStatusCode :=
    array_includes (expectedStatusCodes CONFIG) statusCode in
  if hasFailureMarker then ContentFailure
  else if negb isExpectedStatusCode then UnexpectedStatus
  else Success.

(** Lines 519-543: the target of this attempt; [None] when the function
    has pushed "down" and returns. *)
Definition keepAlive_resolve (attempt : Z) : Js (option string) :=
  let* fromSpace :=
    (if truthy (spaceUrl CONFIG) then
       let* iframeUrl := getIframeUrl CONFIG world in
       match iframeUrl with
       | Some url => if truthy url then ret (Some url) else ret None
       | None => ret None
       end
     else ret None) in
  match fromSpace with
  | Some url => ret (Some url)
  | None =>
      if truthy (targetUrl CONFIG) then
        console LLog (FallbackTarget attempt) ;;
        ret (Some (targetUrl CONFIG))
      else
        console LError (NoTarget attempt) ;;
        pushToUptimeKuma CONFIG world Down "无法获取目标 URL" None ;;
        ret None
  end.

(** Lines 545-579: the request to the target; yields the response
    head, the measured [responseTime] and the body. *)
Definition keepAlive_fetch (attempt startTime : Z) (target : string)
  : Js (Response * Z * string) :=
  console LLog (Visiting attempt target) ;;
  let* cookieHeader := serializeCookie target in
  let* response := request world Target (Get target cookieHeader) in
  let* t := Date_now in
  let responseTime := t - startTime in
  handleSetCookie target response ;;
  let* responseBody := body_text_of Target response in
  ret (response, responseTime, responseBody).

(** Lines 582-635: what the cycle does with a response. *)
Definition keepAlive_handle (attempt : Z) (response : Response)
    (responseTime : Z) (responseBody : string) : Js Ctl :=
  match classify (statusCode response) responseBody with
  | ContentFailure =>
      console LError (MarkerDetected attempt) ;;
      console LError (MarkerStatus attempt (statusCode response)) ;;
      console LError (MarkerReason attempt) ;;
      let lastError :=
        new_Error ("检测到失败标记 (HTTP " +:+ pretty (statusCode response) +:+ ")") in
      if attempt <? maxRetries CONFIG then
        console LLog (WaitRetry attempt) ;;
        sleep 2000 ;;
        ret (Continue lastError)
      else
        pushToUptimeKuma CONFIG world Down
          ("保活失败：检测到失败标记 (HTTP " +:+ pretty (statusCode response) +:+ ")")
          None ;;
        ret Return
  | UnexpectedStatus =>
      console LWarn (UnexpectedCode attempt (statusCode response)) ;;
      console LWarn (ExpectedCodes attempt (expectedStatusCodes CONFIG)) ;;
      console LWarn (BodyPreview attempt responseBody) ;;
      let lastError :=
        new_Error ("非预期状态码：" +:+ pretty (statusCode response)) in
      if attempt <? maxRetries CONFIG then
        console LLog (WaitRetry attempt) ;;
        sleep 2000 ;;
        ret (Continue lastError)
      else
        pushToUptimeKuma CONFIG world Down
          ("非预期状态码：" +:+ pretty (statusCode response))
          (Some responseTime) ;;
        ret Return
  | Success =>
      console LLog (KeepAliveOk attempt (statusCode response) responseTime) ;;
      pushToUptimeKuma CONFIG world Up "OK" (Some responseTime) ;;
      ret Return
  end.

(** Lines 519-579: resolution and request together; [None] when there
    is no target. *)
Definition keepAlive_respond (attempt startTime : Z)
  : Js (option (Response * Z * string)) :=
  let* target := keepAlive_resolve attempt in
  match target with
  | None => ret None
  | Some url =>
      let* fetched := keepAlive_fetch attempt startTime url in
      ret (Some fetched)
  end.

(** Lines 518-635: the [try] block. *)
Definition keepAlive_try (attempt startTime : Z) : Js Ctl :=
  let* responded := keepAlive_respond attempt startTime in
  match responded with
  | None => ret Return
  | Some (response, responseTime, responseBody) =>
      keepAlive_handle attempt response responseTime responseBody
  end.

(** Lines 636-680: the [catch] block. *)
Definition keepAlive_catch (attempt : Z) (error : JsError) : Js Ctl :=
  if err_is_Error error then
    (if is_timeout error then console LError (TimedOut attempt)
     else if is_connect error then console LError (ConnectFailed attempt)
     else console LError (UnknownError attempt (err_message error))) ;;
    if attempt <? maxRetries CONFIG then
      console LLog (WaitRetry attempt) ;;
      sleep 2000 ;;
      ret (Continue error)
    else
      (if is_timeout error then
         pushToUptimeKuma CONFIG world Down "请求超时" None
       else if is_connect error then
         pushToUptimeKuma CONFIG world Down "网络错误：无法连接" None
       else
         pushToUptimeKuma CONFIG world Down
           ("未知错误：" +:+ err_message error) None) ;;
      ret Return
  else
    console LError (UnknownError attempt (err_message error)) ;;
    if attempt <? maxRetries CONFIG then
      console LLog (WaitRetry attempt) ;;
      sleep 2000 ;;
      ret (Continue (new_Error (err_message error)))
    else
      pushToUptimeKuma CONFIG world Down "未知错误" None ;;
      ret Return.

(** Lines 513-681: one turn of the loop. *)
Definition keepAlive_attempt (attempt : Z) : Js Ctl :=
  began attempt ;;
  let* startTime := Date_now in
  try_catch (keepAlive_try attempt startTime) (keepAlive_catch attempt).

(** Lines 513-681: the [for] loop, by recursion on the number [turns]
    of values of [attempt] that are still [<= maxRetries].  The result
    is [None] when the function returned from inside the loop and
    [Some lastError] when the loop ran to its end. *)
Fixpoint keepAlive_loop (turns : nat) (attempt : Z) (lastError : option JsError)
  : Js (option (option JsError)) :=
  match turns with
  | O => ret (Some lastError)
  | S turns' =>
      let* ctl := keepAlive_attempt attempt in
      match ctl with
      | Return => ret None
      | Continue error => keepAlive_loop turns' (attempt + 1) (Some error)
      end
  end.

(** Lines 509-687. *)
Definition keepAlive : Js unit :=
  let* left := keepAlive_loop (Z.to_nat (maxRetries CONFIG)) 1 None in
  match left with
  | Some (Some _) => console LError (AllRetriesFailed (maxRetries CONFIG))
  | _ => ret tt
  end.
End PollCycle.


(** ** The [cookie] package

    The three functions the program imports from the [cookie] package
    (version 1.1.1), modelled after the package's behaviour on header
    strings: names and values are cut at [;] and at the first [=],
    trimmed of spaces and tabs, values are percent-decoded on the way in
    and percent-encoded on the way out, and names and encoded values are
    checked against the package's two character classes.  Text is kept as
    its UTF-8 bytes; a byte sequence that is not well-formed UTF-8 stands
    for a string with a lone surrogate. *)

Module Cookie.

Definition code (c : ascii) : N := N_of_ascii c.

Definition in_range (lo hi : N) (c : ascii) : bool :=
  ((lo <=? code c) && (code c <=? hi))%N.

(** Every character of [s] is in the class [p]. *)
Fixpoint every (p : ascii -> bool) (s : string) : bool :=
  match s with
  | EmptyString => true
  | String c r => p c && every p r
  end.

(** [cookieNameRegExp = /^[!-:<>-~]+$/]. *)
Definition name_char (c : ascii) : bool :=
  in_range 33 58 c || in_range 60 60 c || in_range 62 126 c.

Definition cookieName_ok (name : string) : bool :=
  truthy name && every name_char name.

(** [cookieValueRegExp = /^[!-:<-~]*$/]. *)
Definition value_char (c : ascii) : bool :=
  in_range 33 58 c || in_range 60 126 c.

Definition cookieValue_ok (value : string) : bool :=
  every value_char value.

(** *** [encodeURIComponent] and [decodeURIComponent] *)

(** Well-formed UTF-8 (no overlong forms, no surrogates, at most
    U+10FFFF). *)
Fixpoint utf8_valid (s : string) : bool :=
  match s with
  | EmptyString => true
  | String b r =>
      if in_range 0 127 b then utf8_valid r
      else
        match r with
        | EmptyString => false
        | String c1 r1 =>
            if in_range 194 223 b then in_range 128 191 c1 && utf8_valid r1
            else
              match r1 with
              | EmptyString => false
              | String c2 r2 =>
                  if in_range 224 239 b then
                    (if in_range 224 224 b then in_range 160 191 c1
                     else if in_range 237 237 b then in_range 128 159 c1
                     else in_range 128 191 c1)
                    && in_range 128 191 c2 && utf8_valid r2
                  else
                    match r2 with
                    | EmptyString => false
                    | String c3 r3 =>
                        in_range 240 244 b
                        && (if in_range 240 240 b then in_range 144 191 c1
                            else if in_range 244 244 b then in_range 128 143 c1
                            else in_range 128 191 c1)
                        && in_range 128 191 c2 && in_range 128 191 c3
                        && utf8_valid r3
                    end
              end
        end
  end.

(** The characters [encodeURIComponent] leaves alone:
    [A-Z a-z 0-9 - _ . ! ~ * ' ( )]. *)
Definition unreserved (c : ascii) : bool :=
  in_range 65 90 c || in_range 97 122 c || in_range 48 57 c ||
  in_range 45 46 c || in_range 95 95 c || in_range 33 33 c ||
  in_range 126 126 c || in_range 39 42 c.

Definition hex_digit (n : N) : ascii :=
  if (n <? 10)%N then ascii_of_N (48 + n) else ascii_of_N (55 + n).

Definition hex_value (c : ascii) : option N :=
  if in_range 48 57 c then Some (code c - 48)%N
  else if in_range 65 70 c then Some (code c - 55)%N
  else if in_range 97 102 c then Some (code c - 87)%N
  else None.

Fixpoint percent_encode (s : string) : string :=
  match s with
  | EmptyString => EmptyString
  | String c r =>
      if unreserved c then String c (percent_encode r)
      else String "%" (String (hex_digit (code c / 16))
                         (String (hex_digit (code c mod 16)) (percent_encode r)))
  end.

Fixpoint percent_decode (s : string) : option string :=
  match s with
  | EmptyString => Some EmptyString
  | String c r =>
      if Ascii.eqb c "%" then
        match r with
        | String h (String l r') =>
            match hex_value h, hex_value l with
            | Some a, Some b =>
                option_map (String (ascii_of_N (16 * a + b))) (percent_decode r')
            | _, _ => None
            end
        | _ => None
        end
      else option_map (String c) (percent_decode r)
  end.

Definition URIError : JsError := mkError true "URIError" "" "URI malformed".

Definition TypeError (message : string) : JsError :=
  mkError true "TypeError" "" message.

Definition encodeURIComponent (s : string) : JsError + string :=
  if utf8_valid s then inr (percent_encode s) else inl URIError.

Definition decodeURIComponent (s : string) : JsError + string :=
  match percent_decode s with
  | Some t => if utf8_valid t then inr t else inl URIError
  | None => inl URIError
  end.

(** *** Cutting a header *)

Definition is_ws (c : ascii) : bool :=
  Ascii.eqb c " " || Ascii.eqb c "009".

Fixpoint trim_start (s : string) : string :=
  match s with
  | EmptyString => EmptyString
  | String c r => if is_ws c then trim_start r else s
  end.

Fixpoint trim_end (s : string) : string :=
  match s with
  | EmptyString => EmptyString
  | String c r =>
      match trim_end r with
      | EmptyString => if is_ws c then EmptyString else String c EmptyString
      | r' => String c r'
      end
  end.

(** [valueSlice]: a piece of the header without the spaces and tabs at
    its two ends. *)
Definition valueSlice (piece : string) : string := trim_end (trim_start piece).

(** The text before the first [c] and, if [c] occurs, the text after it. *)
Fixpoint break_at (c : ascii) (s : string) : string * option string :=
  match s with
  | EmptyString => (EmptyString, None)
  | String d r =>
      if Ascii.eqb d c then (EmptyString, Some r)
      else let (before, after) := break_at c r in (String d before, after)
  end.

(** The pieces between the occurrences of [c]. *)
Fixpoint split_on (c : ascii) (s : string) : list string :=
  match s with
  | EmptyString => [EmptyString]
  | String d r =>
      if Ascii.eqb d c then EmptyString :: split_on c r
      else match split_on c r with
           | piece :: pieces => String d piece :: pieces
           | [] => [String d EmptyString]
           end
  end.

(** [decode]: percent-decoding that gives the text back unchanged when
    it has no [%] or does not decode. *)
Definition decode (s : string) : string :=
  if negb (includes s "%") then s
  else match decodeURIComponent s with
       | inr t => t
       | inl _ => s
       end.

(** *** [parseCookie] *)

(** One [name=value] piece; a name that is already there is kept. *)
Definition parse_pair (obj : gmap string string) (piece : string)
  : gmap string string :=
  match break_at "=" piece with
  | (_, None) => obj
  | (name, Some value) =>
      let key := valueSlice name in
      match obj !! key with
      | Some _ => obj
      | None => <[key := decode (valueSlice value)]> obj
      end
  end.

Definition parseCookie (str : string) : gmap string string :=
  if (String.length str <? 2)%nat then ∅
  else fold_left parse_pair (split_on ";" str) ∅.

(** *** [stringifyCookie] *)

Definition stringify_pair (entry : string * string) : JsError + string :=
  let (name, val) := entry in
  if negb (cookieName_ok name) then
    inl (TypeError ("cookie name is invalid: " +:+ name))
  else
    match encodeURIComponent val with
    | inl e => inl e
    | inr value =>
        if negb (cookieValue_ok value) then
          inl (TypeError ("cookie val is invalid: " +:+ val))
        else inr (name +:+ "=" +:+ value)
    end.

Fixpoint stringify_pairs (entries : list (string * string))
  : JsError + list string :=
  match entries with
  | [] => inr []
  | entry :: rest =>
      match stringify_pair entry with
      | inl e => inl e
      | inr cookieString =>
          match stringify_pairs rest with
          | inl e => inl e
          | inr cookieStrings => inr (cookieString :: cookieStrings)
          end
      end
  end.

(** [cookieStrings.join("; ")]. *)
Fixpoint join (cookieStrings : list string) : string :=
  match cookieStrings with
  | [] => EmptyString
  | [cookieString] => cookieString
  | cookieString :: rest => cookieString +:+ "; " +:+ join rest
  end.

(** [stringifyCookie] on the entries of the object taken in the order
    [entries]. *)
Definition stringify_entries (entries : list (string * string))
  : JsError + string :=
  match stringify_pairs entries with
  | inl e => inl e
  | inr cookieStrings => inr (join cookieStrings)
  end.

Definition stringifyCookie (obj : gmap string string) : JsError + string :=
  stringify_entries (map_to_list obj).

(** *** Jar entries that can be written as a header *)

(** Characters other than [c], and characters other than space and tab. *)
Definition differs (c d : ascii) : bool := negb (Ascii.eqb d c).
Definition solid (c : ascii) : bool := negb (is_ws c).

(** What [stringifyCookie] writes for one entry. *)
Definition cookie_string (entry : string * string) : string :=
  fst entry +:+ "=" +:+ percent_encode (snd entry).

(** The name is one the package accepts and the value is well-formed
    text. *)
Definition acceptable (entry : string * string) : bool :=
  cookieName_ok (fst entry) && utf8_valid (snd entry).

(** [obj[name] = value] unless [obj] has the name already. *)
Definition first_wins (obj : gmap string string) (entry : string * string)
  : gmap string string :=
  match obj !! fst entry with
  | Some _ => obj
  | None => <[fst entry := snd entry]> obj
  end.

(** *** [parseSetCookie]: the name and the value of a directive *)

Definition parseSetCookie (str : string) : SetCookie :=
  let (pair, _) := break_at ";" str in
  match break_at "=" pair with
  | (value, None) => mkSetCookie "" (Some (decode (valueSlice value)))
  | (name, Some value) =>
      mkSetCookie (valueSlice name) (Some (decode (valueSlice value)))
  end.

End Cookie.


(** ** Reading a history *)

(** The events of a poll cycle proper: everything but console lines,
    the traffic with the wrapper page and the replies of the monitor. *)
Definition is_core (e : Event) : bool :=
  match e with
  | ELog _ _ => false
  | ERequest Target _ | EHeaders Target _ | ERejected Target _
  | EBodyRead Target | EBodyFailed Target _ => true
  | ERequest Monitor _ => true
  | ERequest _ _ | EHeaders _ _ | ERejected _ _
  | EBodyRead _ | EBodyFailed _ _ => false
  | EAttempt _ | EDateNow | ESleep _ | ENotify _ _ _ => true
  end.

Definition core (h : list (Z * Event)) : list (Z * Event) :=
  List.filter (fun te => is_core (snd te)) h.

(** The steps of the retry state machine. *)
Inductive Step : Type :=
  | SAttempt (attempt : Z)
  | SRequest
  | SSleep (ms : Z)
  | SNotify (status : Status) (msg : string) (ping : option Z).

Definition step_of (e : Event) : option Step :=
  match e with
  | EAttempt attempt => Some (SAttempt attempt)
  | ERequest Target _ => Some SRequest
  | ESleep ms => Some (SSleep ms)
  | ENotify status msg ping => Some (SNotify status msg ping)
  | _ => None
  end.

Definition steps (h : list (Z * Event)) : list Step :=
  omap (fun te => step_of (snd te)) h.

(** A failure marker occurs in the body. *)
Definition has_marker (body : string) : Prop :=
  exists marker pre post,
    In marker FAILURE_MARKERS /\ body = pre +:+ marker +:+ post.

(** The calls of the report operation. *)
Definition notification_of (e : Event) : option (Status * string * option Z) :=
  match e with
  | ENotify status msg ping => Some (status, msg, ping)
  | _ => None
  end.

Definition notifications (h : list (Z * Event)) : list (Status * string * option Z) :=
  omap (fun te => notification_of (snd te)) h.

(** The requests sent to the monitor. *)
Definition monitor_request_of (e : Event) : option RequestInfo :=
  match e with
  | ERequest Monitor r => Some r
  | _ => None
  end.

Definition monitor_requests (h : list (Z * Event)) : list RequestInfo :=
  omap (fun te => monitor_request_of (snd te)) h.

(** The warnings written to the console. *)
Definition warning_of (e : Event) : option LogMsg :=
  match e with
  | ELog LWarn msg => Some msg
  | _ => None
  end.

Definition warnings (h : list (Z * Event)) : list LogMsg :=
  omap (fun te => warning_of (snd te)) h.

(** The time of the last event of a kind, if there is one. *)
Definition last_time (p : Event -> bool) (h : list (Z * Event)) : option Z :=
  last (List.map fst (List.filter (fun te => p (snd te)) h)).

Definition is_attempt (e : Event) : bool :=
  match e with EAttempt _ => true | _ => false end.
Definition is_target_request (e : Event) : bool :=
  match e with ERequest Target _ => true | _ => false end.
Definition is_target_headers (e : Event) : bool :=
  match e with EHeaders Target _ => true | _ => false end.
Definition is_target_body (e : Event) : bool :=
  match e with EBodyRead Target => true | _ => false end.

(** The events a computation adds to the history of [s]. *)
Definition added (s s' : State) : list (Z * Event) :=
  drop (length (trace s)) (trace s').

Section Attempts.
Context `{Platform} (CONFIG : Config) (world : World).

(** What one attempt amounted to: no target, an error thrown on the
    way, or a response with its class, status code and measured
    latency. *)
Inductive AttemptRecord : Type :=
  | ANoTarget
  | AThrown (e : JsError)
  | AResponse (outcome : Outcome) (statusCode : Z) (responseTime : Z).

Definition attempt_record (attempt : Z) (s : State) : AttemptRecord :=
  match (began attempt ;;
         let* startTime := Date_now in
         keepAlive_respond CONFIG world attempt startTime) s with
  | (Done None, _) => ANoTarget
  | (Done (Some (response, responseTime, responseBody)), _) =>
      AResponse (classify CONFIG (statusCode response) responseBody)
                (statusCode response) responseTime
  | (Thrown e, _) => AThrown e
  end.

(** The attempts of a cycle that starts in [s], in order. *)
Fixpoint cycle_attempts (turns : nat) (attempt : Z) (s : State)
  : list AttemptRecord :=
  match turns with
  | O => []
  | S turns' =>
      attempt_record attempt s ::
      match keepAlive_attempt CONFIG world attempt s with
      | (Done (Continue _), s') => cycle_attempts turns' (attempt + 1) s'
      | _ => []
      end
  end.

Definition attempts_of_cycle (s : State) : list AttemptRecord :=
  cycle_attempts (Z.to_nat (maxRetries CONFIG)) 1 s.
End Attempts.

(** The messages pushed to the monitor (lines 540, 600, 623 and 633). *)
Definition msg_no_target : string := "无法获取目标 URL".
Definition msg_marker (statusCode : Z) : string :=
  "保活失败：检测到失败标记 (HTTP " +:+ pretty statusCode +:+ ")".
Definition msg_unexpected (statusCode : Z) : string :=
  "非预期状态码：" +:+ pretty statusCode.

(** The message pushed for an error caught on the last attempt (lines
    655-664 and 676). *)
Definition msg_thrown (error : JsError) : string :=
  if err_is_Error error then
    if is_timeout error then "请求超时"
    else if is_connect error then "网络错误：无法连接"
    else "未知错误：" +:+ err_message error
  else "未知错误".

(** The core events of a request to the target that was answered and
    whose body was read: request at [t_req], headers and the clock read
    that follows them at [t_hdr], end of body at [t_body]. *)
Definition answered (t_req t_hdr t_body : Z) (url cookieHeader : string)
    (statusCode : Z) : list (Z * Event) :=
  [ (t_req, ERequest Target (Get url cookieHeader));
    (t_hdr, EHeaders Target statusCode);
    (t_hdr, EDateNow);
    (t_body, EBodyRead Target) ].

(** The core events of a request to the target that threw: before the
    request was sent, while waiting for the headers, or while reading the
    body. *)
Definition failed_request (mid : list (Z * Event)) : Prop :=
  mid = [] \/
  (exists t_req t url cookieHeader e,
     mid = [ (t_req, ERequest Target (Get url cookieHeader));
             (t, ERejected Target e) ]) \/
  (exists t_req t_hdr t url cookieHeader statusCode e,
     mid = [ (t_req, ERequest Target (Get url cookieHeader));
             (t_hdr, EHeaders Target statusCode);
             (t_hdr, EDateNow);
             (t, EBodyFailed Target e) ]).

Section Shapes.
Context `{Platform} (CONFIG : Config).

(** Whether a call of [pushToUptimeKuma] gets as far as sending its
    request: the monitor is configured and enabled and its URL parses. *)
Definition monitor_ready : option UptimeKuma :=
  match uptimeKuma CONFIG with
  | Some kuma =>
      if enabled kuma then
        match new_URL_hostname (pushUrl kuma) with
        | inr _ => Some kuma
        | inl _ => None
        end
      else None
  | None => None
  end.

(** The core events of a call of [pushToUptimeKuma] at time [t]: the
    call itself and, when the monitor is ready, the request sent to it. *)
Definition pushed (t : Z) (status : Status) (msg : string) (ping : option Z)
  : list (Z * Event) :=
  (t, ENotify status msg ping) ::
  match monitor_ready with
  | Some kuma => [(t, ERequest Monitor (Push (pushUrl kuma) status msg ping))]
  | None => []
  end.

(** How a turn ends after a response of class [outcome], in terms of
    the result of the turn and the core events that follow the fetch. *)
Definition handle_tail (attempt : Z) (outcome : Outcome)
    (statusCode responseTime : Z) (r : Result Ctl) (tail : list (Z * Event)) : Prop :=
  match outcome with
  | Success =>
      r = Done Return /\
      exists t, tail = pushed t Up "OK" (Some responseTime)
  | ContentFailure =>
      if attempt <? maxRetries CONFIG then
        (exists e, r = Done (Continue e)) /\ exists t, tail = [(t, ESleep 2000)]
      else
        r = Done Return /\
        exists t, tail = pushed t Down (msg_marker statusCode) None
  | UnexpectedStatus =>
      if attempt <? maxRetries CONFIG then
        (exists e, r = Done (Continue e)) /\ exists t, tail = [(t, ESleep 2000)]
      else
        r = Done Return /\
        exists t, tail = pushed t Down (msg_unexpected statusCode)
                           (Some responseTime)
  end.

(** How a turn ends after an error was caught. *)
Definition catch_tail (attempt : Z) (error : JsError) (r : Result Ctl)
    (tail : list (Z * Event)) : Prop :=
  if attempt <? maxRetries CONFIG then
    (exists e, r = Done (Continue e)) /\ exists t, tail = [(t, ESleep 2000)]
  else
    r = Done Return /\ exists t, tail = pushed t Down (msg_thrown error) None.

(** The core events of one turn of the retry loop that starts at time
    [t0], given what the attempt amounted to. *)
Definition attempt_shape (attempt t0 : Z) (rec : AttemptRecord)
    (r : Result Ctl) (cd : list (Z * Event)) : Prop :=
  match rec with
  | ANoTarget =>
      r = Done Return /\
      exists t, cd = ([ (t0, EAttempt attempt); (t0, EDateNow) ] ++
                      pushed t Down msg_no_target None)%list
  | AResponse outcome statusCode responseTime =>
      exists t_req t_hdr t_body url cookieHeader tail,
        responseTime = t_hdr - t0 /\
        cd = ([ (t0, EAttempt attempt); (t0, EDateNow) ] ++
              answered t_req t_hdr t_body url cookieHeader statusCode ++ tail)%list /\
        handle_tail attempt outcome statusCode responseTime r tail
  | AThrown e =>
      exists mid tail,
        failed_request mid /\
        cd = ([ (t0, EAttempt attempt); (t0, EDateNow) ] ++ mid ++ tail)%list /\
        catch_tail attempt e r tail
  end.

(** The core events of a whole cycle, turn after turn: [cycle_run turns
    attempt recs cd returned] relates the records of the attempts made
    from turn [attempt] on, with [turns] turns left, to the core events
    [cd] they add; [returned] tells whether the function returned from
    inside the loop. *)
Inductive cycle_run
  : nat -> Z -> list AttemptRecord -> list (Z * Event) -> bool -> Prop :=
  | run_end attempt :
      cycle_run O attempt [] [] false
  | run_return turns attempt t0 rec cd :
      attempt_shape attempt t0 rec (Done Return) cd ->
      cycle_run (S turns) attempt [rec] cd true
  | run_continue turns attempt t0 rec e cd recs cds returned :
      attempt_shape attempt t0 rec (Done (Continue e)) cd ->
      cycle_run turns (attempt + 1) recs cds returned ->
      cycle_run (S turns) attempt (rec :: recs) (cd ++ cds)%list returned.
End Shapes.

(** An attempt whose response was classified as an unexpected status. *)
Definition unexpected (rec : AttemptRecord) : Prop :=
  exists statusCode responseTime,
    rec = AResponse UnexpectedStatus statusCode responseTime.

(** The requests a cycle sends to the monitor when it ends with the
    given notification. *)
Definition monitor_sees `{Platform} (CONFIG : Config) (status : Status)
    (msg : string) (ping : option Z) : list RequestInfo :=
  match monitor_ready CONFIG with
  | Some kuma => [Push (pushUrl kuma) status msg ping]
  | None => []
  end.

(** The notification a cycle ends with, given its last attempt. *)
Definition final_notification (rec : AttemptRecord) : Status * string * option Z :=
  match rec with
  | ANoTarget => (Down, msg_no_target, None)
  | AThrown e => (Down, msg_thrown e, None)
  | AResponse Success _ responseTime => (Up, "OK", Some responseTime)
  | AResponse ContentFailure statusCode _ => (Down, msg_marker statusCode, None)
  | AResponse UnexpectedStatus statusCode responseTime =>
      (Down, msg_unexpected statusCode, Some responseTime)
  end.

(** The attempts after which the retry policy tries again. *)
Definition retryable (rec : AttemptRecord) : bool :=
  match rec with
  | ANoTarget => false
  | AThrown _ => true
  | AResponse Success _ _ => false
  | AResponse _ _ _ => true
  end.

(** The delays of a history. *)
Definition sleep_of (e : Event) : option Z :=
  match e with
  | ESleep ms => Some ms
  | _ => None
  end.

Definition sleeps (h : list (Z * Event)) : list Z :=
  omap (fun te => sleep_of (snd te)) h.

(** Two states that differ at most in what the monitor did: the same
    cookie jar and the same steps in the history. *)
Definition blind (x y : State) : Prop :=
  cookieStorage x = cookieStorage y /\ steps (trace x) = steps (trace y).

Definition ends_alike {A} (x y : Result A * State) : Prop :=
  fst x = fst y /\ blind (snd x) (snd y).

(** The monitor is not configured, or is disabled. *)
Definition monitor_off (CONFIG : Config) : bool :=
  match uptimeKuma CONFIG with
  | None => true
  | Some kuma => negb (enabled kuma)
  end.

(** The warning that a push leaves on the console, given the answer of
    the monitor: none when the monitor replied [200] with [ok] set. *)
Definition monitor_warning `{Platform} (answer : NetAnswer) : list LogMsg :=
  match answer with
  | Rejects _ e => [PushException (err_message e)]
  | Responds resp =>
      match body_text resp with
      | inl e => [PushException (err_message e)]
      | inr body =>
          if statusCode resp =? 200 then
            match parsePushReply body with
            | inl e => [PushException (err_message e)]
            | inr (ok, m) =>
                if ok then []
                else [PushRejected (if truthy m then m else "未知错误")]
            end
          else [PushHttp (statusCode resp)]
      end
  end.

(** What [serializeCookie(url)] returns or throws, as a function of the
    cookie jar. *)
Definition cookie_header_for `{Platform} (url : string)
    (storage : gmap string (gmap string string)) : Result string :=
  match (if truthy (extractDomain url) then storage !! extractDomain url else None) with
  | None => Done ""
  | Some entry =>
      match stringifyCookie entry with
      | inl e => Thrown e
      | inr header => Done header
      end
  end.

(** The wrapper page does not yield a frame URL: it has no
    [iframe.space-iframe], or the first one has no [src] or an empty one. *)
Definition no_frame_url `{Platform} (html : string) : Prop :=
  select_space_iframe html = inr [] \/
  (exists rest, select_space_iframe html = inr (None :: rest)) \/
  (exists rest, select_space_iframe html = inr (Some "" :: rest)).

Section Directives.
Context `{Platform}.

(** The update a [Set-Cookie] directive asks for: it parses and has a
    name and a non-empty value. *)
Definition directive_update (header : string) : option (string * string) :=
  match parseSetCookie header with
  | inr parsed =>
      match sc_value parsed with
      | Some value =>
          if truthy (sc_name parsed) && truthy value
          then Some (sc_name parsed, value) else None
      | None => None
      end
  | inl _ => None
  end.

(** The error with which a directive fails to parse. *)
Definition directive_error (header : string) : option JsError :=
  match parseSetCookie header with
  | inl e => Some e
  | inr _ => None
  end.

(** The jar entry after the directives of a batch, taken in order. *)
Definition apply_updates (entry : gmap string string) (headers : list string)
  : gmap string string :=
  fold_left (fun entry header =>
               match directive_update header with
               | Some (name, value) => <[name := value]> entry
               | None => entry
               end) headers entry.

Definition updates_of (headers : list string) : list (string * string) :=
  omap directive_update headers.

Definition errors_of (headers : list string) : list JsError :=
  omap directive_error headers.
End Directives.

(** The counts announced by the line "updated N cookies". *)
Definition update_count_of (e : Event) : option Z :=
  match e with
  | ELog LLog (CookiesUpdated _ updateCount) => Some updateCount
  | _ => None
  end.

Definition update_counts (h : list (Z * Event)) : list Z :=
  omap (fun te => update_count_of (snd te)) h.

(** The console lines a batch of directives may leave: a warning for a
    directive that failed to parse, a line for an update that was
    applied, and the two closing lines. *)
Definition batch_line `{Platform} (headers : list string) (e : Event) : Prop :=
  match e with
  | ELog LWarn (SetCookieParseFailed error) => In error (errors_of headers)
  | ELog LLog (CookieUpdated name value) => In (name, value) (updates_of headers)
  | ELog LLog (CookiesUpdated _ _) => True
  | ELog LLog (DumpStorage _) => True
  | _ => False
  end.


(** ** Reasoning about computations *)

(** [wp m s Q]: running [m] in [s] only adds events to the history, and
    the result, the final state and the added events satisfy [Q]. *)
Definition wp {A} (m : Js A) (s : State)
    (Q : Result A -> State -> list (Z * Event) -> Prop) : Prop :=
  exists d, trace (snd (m s)) = (trace s ++ d)%list /\ Q (fst (m s)) (snd (m s)) d.


(** ** Start-up: the configuration (lines 54-136), its validation (lines
    149-186) and [main] (lines 701-745) *)

(** The configuration file after [JSON.parse] (interface [ConfigFile],
    lines 54-63), with fields of the types that the interface declares
    and integers for numbers.  A field that is absent or [null] is
    [None]. *)
Record ConfigFile : Type := mkConfigFile {
  cf_spaceUrl : option string;
  cf_targetUrl : option string;
  cf_currentCookie : option string;
  cf_interval : option Z;
  cf_expectedStatusCodes : option (list Z);
  cf_maxRetries : option Z;
  cf_uptimeKumaPushUrl : option string;
  cf_uptimeKumaEnabled : option bool
}.

(** The variables of [process.env] that the program reads. *)
Record Env : Type := mkEnv {
  SPACE_URL : option string;
  TARGET_URL : option string;
  CURRENT_COOKIE : option string;
  INTERVAL : option string;
  EXPECTED_STATUS_CODES : option string;
  MAX_RETRIES : option string;
  UPTIME_KUMA_PUSH_URL : option string;
  UPTIME_KUMA_ENABLED : option string;
  CONFIG_FILE : option string
}.

(** What the program asks of its runtime at start-up. *)
Class Runtime : Type := {
  (** [JSON.parse(readFileSync(resolve(configPath), "utf-8"))], or the
      error that reading or parsing throws. *)
  readConfigFile : string -> JsError + ConfigFile;
  (** [parseInt(str, 10)]; [None] is [NaN]. *)
  parseInt : string -> option Z
}.

(** [x || d] for a string that may be undefined. *)
Definition or_string (x : option string) (d : string) : string :=
  match x with
  | Some v => if truthy v then v else d
  | None => d
  end.

(** [x || d] for a number that may be undefined: [0] is falsy. *)
Definition or_number (x : option Z) (d : Z) : Z :=
  match x with
  | Some v => if v =? 0 then d else v
  | None => d
  end.

(** [x ? x : undefined] for a string that may be undefined. *)
Definition non_empty (x : option string) : option string :=
  match x with
  | Some v => if truthy v then Some v else None
  | None => None
  end.

(** [args.indexOf(x)]. *)
Fixpoint indexOf (args : list string) (x : string) : option nat :=
  match args with
  | [] => None
  | a :: rest =>
      if String.eqb a x then Some O else S <$> indexOf rest x
  end.

(** Why [validateConfig] ends the process. *)
Inductive ConfigError : Type :=
  | MissingUrl
  | MissingCookie
  | InvalidSpaceUrl
  | InvalidTargetUrl.

Section Startup.
Context `{Platform} `{Runtime}.

(** Lines 68-98, without the console lines.  [None] stands for
    [process.exit(1)]. *)
Definition loadConfigFromFile (configPath : string) : option Config :=
  match readConfigFile configPath with
  | inl _ => None
  | inr configData =>
      Some (mkConfig
              (or_string (cf_spaceUrl configData) "")
              (or_string (cf_targetUrl configData) "")
              (or_string (cf_currentCookie configData) "")
              (or_number (cf_interval configData) 30000)
              (default [200] (cf_expectedStatusCodes configData))
              (default 5 (cf_maxRetries configData))
              (match non_empty (cf_uptimeKumaPushUrl configData) with
               | Some url =>
                   Some (mkUptimeKuma url
                           (default true (cf_uptimeKumaEnabled configData)))
               | None => None
               end))
  end.

(** Lines 103-112; [argv] is [process.argv]. *)
Definition getConfigFilePath (argv : list string) (env : Env) : option string :=
  let args := drop 2 argv in
  match indexOf args "--config" with
  | Some configIndex =>
      match args !! S configIndex with
      | Some path => Some path
      | None => non_empty (CONFIG_FILE env)
      end
  | None => non_empty (CONFIG_FILE env)
  end.

(** Line 116: the outer [None] stands for [process.exit(1)], the inner
    one for the empty object. *)
Definition fileConfig (configFilePath : option string) : option (option Config) :=
  match non_empty configFilePath with
  | Some path =>
      match loadConfigFromFile path with
      | Some loaded => Some (Some loaded)
      | None => None
      end
  | None => Some None
  end.

(** [env.X ? parseInt(env.X, 10) : d]. *)
Definition env_number (x : option string) (d : Z) : option Z :=
  match non_empty x with
  | Some v => parseInt v
  | None => Some d
  end.

(** Lines 118-136.  [None] when a number taken from the environment
    does not parse: the configuration then holds [NaN], which [Config],
    whose numbers are integers, does not represent. *)
Definition CONFIG_of (fileConfig : option Config) (env : Env) : option Config :=
  let fromEnv (x : option string) : string := or_string x "" in
  interval' ←
    (match fileConfig with
     | Some loaded =>
         if interval loaded =? 0 then env_number (INTERVAL env) 30000
         else Some (interval loaded)
     | None => env_number (INTERVAL env) 30000
     end);
  expectedStatusCodes' ←
    (match fileConfig with
     | Some loaded => Some (expectedStatusCodes loaded)
     | None =>
         match non_empty (EXPECTED_STATUS_CODES env) with
         | Some codes => mapM parseInt (Cookie.split_on "," codes)
         | None => Some [200]
         end
     end);
  maxRetries' ←
    (match fileConfig with
     | Some loaded => Some (maxRetries loaded)
     | None => env_number (MAX_RETRIES env) 5
     end);
  Some (mkConfig
          (or_string (spaceUrl <$> fileConfig) (fromEnv (SPACE_URL env)))
          (or_string (targetUrl <$> fileConfig) (fromEnv (TARGET_URL env)))
          (or_string (cookie <$> fileConfig) (fromEnv (CURRENT_COOKIE env)))
          interval' expectedStatusCodes' maxRetries'
          (match fileConfig ≫= uptimeKuma with
           | Some kuma => Some kuma
           | None =>
               match non_empty (UPTIME_KUMA_PUSH_URL env) with
               | Some url =>
                   Some (mkUptimeKuma url
                           (negb (bool_decide (UPTIME_KUMA_ENABLED env = Some "false"))))
               | None => None
               end
           end)).

(** Lines 115-136 together: the configuration of a run, from the
    command line and the environment.  The outer [None] stands for
    [process.exit(1)]. *)
Definition configure (argv : list string) (env : Env) : option (option Config) :=
  match fileConfig (getConfigFilePath argv env) with
  | Some loaded => Some (CONFIG_of loaded env)
  | None => None
  end.

Definition invalid_URL (url : string) : bool :=
  match new_URL_hostname url with
  | inl _ => true
  | inr _ => false
  end.

(** Lines 149-186: [None] when the function returns, and otherwise the
    error it reports before [process.exit(1)]. *)
Definition validateConfig (CONFIG : Config) : option ConfigError :=
  if negb (truthy (spaceUrl CONFIG)) && negb (truthy (targetUrl CONFIG)) then
    Some MissingUrl
  else if negb (truthy (cookie CONFIG)) then Some MissingCookie
  else if truthy (spaceUrl CONFIG) && invalid_URL (spaceUrl CONFIG) then
    Some InvalidSpaceUrl
  else if truthy (targetUrl CONFIG) && invalid_URL (targetUrl CONFIG) then
    Some InvalidTargetUrl
  else None.

End Startup.


(** ** A laboratory: a small platform, configurations and worlds

    Used to run the program on concrete inputs.  The cookie functions are
    those of [Cookie]; the other three are stand-ins that are right on
    the inputs used here: URLs of the form [scheme://host/path] with a
    lower-case host and neither port nor credentials, wrapper pages whose
    only [iframe] is written [<iframe class="space-iframe" ...>], and the
    two replies [{"ok":true}] and [{"ok":false}] of the monitor. *)

Module Lab.

(** The double quote. *)
Definition dq : string := String "034" EmptyString.

(** The text after the first occurrence of [needle]. *)
Fixpoint after (needle s : string) : option string :=
  if String.prefix needle s then
    Some (String.substring (String.length needle)
            (String.length s - String.length needle) s)
  else
    match s with
    | EmptyString => None
    | String _ s' => after needle s'
    end.

Definition ends_host (c : ascii) : bool :=
  Ascii.eqb c "/" || Ascii.eqb c "?" || Ascii.eqb c "#" || Ascii.eqb c ":".

Fixpoint host_part (s : string) : string :=
  match s with
  | EmptyString => EmptyString
  | String c r => if ends_host c then EmptyString else String c (host_part r)
  end.

Definition hostname (url : string) : JsError + string :=
  match (if String.prefix "https://" url then after "https://" url
         else if String.prefix "http://" url then after "http://" url
         else None) with
  | Some rest =>
      if truthy (host_part rest) then inr (host_part rest)
      else inl (Cookie.TypeError "Invalid URL")
  | None => inl (Cookie.TypeError "Invalid URL")
  end.

Fixpoint up_to_quote (s : string) : string :=
  match s with
  | EmptyString => EmptyString
  | String c r => if Ascii.eqb c "034" then EmptyString else String c (up_to_quote r)
  end.

Definition iframe_open : string :=
  "<iframe class=" +:+ dq +:+ "space-iframe" +:+ dq.

Definition iframes (html : string) : JsError + list (option string) :=
  match after iframe_open html with
  | None => inr []
  | Some rest =>
      match after (" src=" +:+ dq) (fst (Cookie.break_at ">" rest)) with
      | Some src => inr [Some (up_to_quote src)]
      | None => inr [None]
      end
  end.

Definition reply_ok : string := "{" +:+ dq +:+ "ok" +:+ dq +:+ ":true}".
Definition reply_not_ok : string := "{" +:+ dq +:+ "ok" +:+ dq +:+ ":false}".

Definition pushReply (body : string) : JsError + (bool * string) :=
  if String.eqb body reply_ok then inr (true, EmptyString)
  else if String.eqb body reply_not_ok then inr (false, EmptyString)
  else inl (mkError true "SyntaxError" "" "Unexpected token").

Definition platform : Platform :=
  {| new_URL_hostname := hostname;
     parseCookie := fun str => inr (Some <$> Cookie.parseCookie str);
     stringifyCookie := Cookie.stringifyCookie;
     parseSetCookie := fun str => inr (Cookie.parseSetCookie str);
     select_space_iframe := iframes;
     parsePushReply := pushReply |}.


Definition kuma : UptimeKuma :=
  mkUptimeKuma "https://kuma.example/api/push/k1" true.

(** A space page with no fallback, and a direct target. *)
Definition space_only : Config :=
  mkConfig "https://host/spaces/u/s" "" "token=t0" 30000 [200] 3 (Some kuma).

Definition direct_only : Config :=
  mkConfig "" "https://u-s.example/app" "token=t0" 30000 [200] 3 (Some kuma).

Definition space_and_direct : Config :=
  mkConfig "https://host/spaces/u/s" "https://u-s.example/app" "token=t0"
           30000 [200] 3 (Some kuma).

(** The state of the process before anything happened. *)
Definition boot : State := mkState ∅ 0 0 0 0 [].

(** The state after [initCookie]. *)
Definition ready (CONFIG : Config) : State :=
  match @initCookie platform CONFIG ∅ with
  | Some storage => mkState storage 0 0 0 0 []
  | None => boot
  end.

Definition plain (statusCode : Z) (body : string) (headersDelay bodyDelay : Z)
  : Response :=
  mkResponse statusCode NoSetCookie (inr body) headersDelay bodyDelay.

Definition refused : JsError :=
  mkError true "Error" "UND_ERR_CONNECT" "connect ECONNREFUSED".

(** The wrapper page of the example of the specification. *)
Definition wrapper_page : string :=
  "<html><body>" +:+ iframe_open +:+ " src=" +:+ dq +:+
  "https://u-s.example/?__sign=tok" +:+ dq +:+ "></iframe></body></html>".

Definition bare_page : string := "<html><body><p>building</p></body></html>".

(** A wrapper page whose frame has an empty [src]. *)
Definition empty_src_page : string :=
  "<html><body>" +:+ iframe_open +:+ " src=" +:+ dq +:+ dq +:+
  "></iframe></body></html>".

(** A world in which the target answers every request with [500], the
    wrapper page is up and the monitor accepts the push. *)
Definition always_500 : World :=
  fun site _ =>
    match site with
    | Wrapper => Responds (plain 200 wrapper_page 100 20)
    | Target => Responds (plain 500 "Internal Server Error" 10 50)
    | Monitor => Responds (plain 200 reply_ok 7 1)
    end.

(** The same world with a monitor that refuses the connection. *)
Definition always_500_monitor_down : World :=
  fun site n =>
    match site with
    | Monitor => Rejects 3 refused
    | _ => always_500 site n
    end.

(** A world in which the wrapper page cannot be reached. *)
Definition wrapper_unreachable : World :=
  fun site _ =>
    match site with
    | Wrapper => Rejects 30 refused
    | Target => Responds (plain 200 "hello" 10 50)
    | Monitor => Responds (plain 200 reply_ok 7 1)
    end.

(** A world in which the wrapper page answers [404] although its body
    carries the frame. *)
Definition wrapper_404 : World :=
  fun site _ =>
    match site with
    | Wrapper => Responds (plain 404 wrapper_page 100 20)
    | Target => Responds (plain 200 "hello" 10 50)
    | Monitor => Responds (plain 200 reply_ok 7 1)
    end.

(** A world in which the wrapper page answers [200] with a frame whose
    [src] is empty. *)
Definition wrapper_empty_src : World :=
  fun site _ =>
    match site with
    | Wrapper => Responds (plain 200 empty_src_page 100 20)
    | Target => Responds (plain 200 "hello" 10 50)
    | Monitor => Responds (plain 200 reply_ok 7 1)
    end.

(** A world in which everything is up. *)
Definition all_up : World :=
  fun site _ =>
    match site with
    | Wrapper => Responds (plain 200 wrapper_page 100 20)
    | Target => Responds (plain 200 "hello" 10 50)
    | Monitor => Responds (plain 200 reply_ok 7 1)
    end.

(** A world in which the wrapper page has no frame. *)
Definition no_frame : World :=
  fun site _ =>
    match site with
    | Wrapper => Responds (plain 200 bare_page 100 20)
    | Target => Responds (plain 200 "hello" 10 50)
    | Monitor => Responds (plain 200 reply_ok 7 1)
    end.

(** A world in which the target serves the page of a dead deployment
    with status [200]. *)
Definition dead_deployment : World :=
  fun site _ =>
    match site with
    | Wrapper => Responds (plain 200 wrapper_page 100 20)
    | Target =>
        Responds (plain 200
          "<h1>404</h1> Sorry, we can't find the page you are looking for." 10 50)
    | Monitor => Responds (plain 200 reply_ok 7 1)
    end.



(** A world in which the target refuses the first connection and is up
    afterwards. *)
Definition flaky : World :=
  fun site n =>
    match site, n with
    | Target, O => Rejects 5 refused
    | _, _ => all_up site n
    end.

Definition headers_timeout : JsError :=
  mkError true "HeadersTimeoutError" "UND_ERR_HEADERS_TIMEOUT"
          "Headers Timeout Error".

(** A world in which the target never sends its headers. *)
Definition target_times_out : World :=
  fun site n =>
    match site with
    | Target => Rejects 30000 headers_timeout
    | _ => all_up site n
    end.


(** A runtime: one configuration file, and a [parseInt] that is right
    on the texts made of decimal digits only. *)
Definition digit_value (c : ascii) : option Z :=
  let n := Z.of_N (N_of_ascii c) in
  if (48 <=? n) && (n <=? 57) then Some (n - 48) else None.

Fixpoint digits (s : string) (acc : Z) : option Z :=
  match s with
  | EmptyString => Some acc
  | String c r =>
      match digit_value c with
      | Some d => digits r (acc * 10 + d)
      | None => None
      end
  end.

Definition decimal (s : string) : option Z :=
  match s with
  | EmptyString => None
  | _ => digits s 0
  end.

(** A file that sets [interval] and [maxRetries] to zero. *)
Definition config_json : ConfigFile :=
  mkConfigFile (Some "https://host/spaces/u/s") None (Some "token=t0")
               (Some 0) None (Some 0)
               (Some "https://kuma.example/api/push/k1") None.

Definition runtime : Runtime :=
  {| readConfigFile := fun path =>
       if String.eqb path "config.json" then inr config_json
       else inl (mkError true "Error" "ENOENT" "no such file or directory");
     parseInt := decimal |}.

Definition no_env : Env :=
  mkEnv None None None None None None None None None.

End Lab.


(** ** Reading the cookie jar *)

(** The URLs of the configuration that are set. *)
Definition configured (CONFIG : Config) (url : string) : Prop :=
  (url = spaceUrl CONFIG \/ url = targetUrl CONFIG) /\ truthy url = true.

(** The cookie [name] that the jar holds for [origin], if any. *)
Definition jar_cookie (storage : gmap string (gmap string string))
    (origin name : string) : option string :=
  storage !! origin ≫= (fun entry => entry !! name).

(** The value that the last update of [name] in a list of updates asks
    for. *)
Definition latest (name : string) (updates : list (string * string))
    : option string :=
  last (omap (fun u : string * string =>
                if decide (fst u = name) then Some (snd u) else None) updates).

(** Nothing is ever taken out of the jar: every cookie of [st] is still
    a cookie of [st'], perhaps with another value. *)
Definition jar_grows (st st' : gmap string (gmap string string)) : Prop :=
  forall origin name,
    is_Some (jar_cookie st origin name) -> is_Some (jar_cookie st' origin name).

Section JarAfter.
Context `{Platform}.

(** The jar after a batch of directives received from [url] (lines
    285-328). *)
Definition jar_after_batch (url : string) (headers : list string)
    (storage : gmap string (gmap string string))
    : gmap string (gmap string string) :=
  if truthy (extractDomain url) then
    <[extractDomain url :=
        apply_updates (default ∅ (storage !! extractDomain url)) headers]> storage
  else storage.

(** The jar after the [set-cookie] header of a response received from
    [url] (lines 454-463 and 567-576). *)
Definition jar_after (url : string) (header : SetCookieHeader)
    (storage : gmap string (gmap string string))
    : gmap string (gmap string string) :=
  match header with
  | NoSetCookie => storage
  | OneSetCookie h =>
      if truthy h then jar_after_batch url [h] storage else storage
  | ManySetCookie [] => storage
  | ManySetCookie hs => jar_after_batch url hs storage
  end.
End JarAfter.

(** ** Reading a history, continued *)

(** The numbers of the attempts of a history, in order. *)
Definition attempt_number_of (e : Event) : option Z :=
  match e with
  | EAttempt attempt => Some attempt
  | _ => None
  end.

Definition attempt_numbers (h : list (Z * Event)) : list Z :=
  omap (fun te => attempt_number_of (snd te)) h.

(** The requests sent to a site, in order. *)
Definition request_to (site : Site) (e : Event) : option RequestInfo :=
  match e, site with
  | ERequest Wrapper r, Wrapper => Some r
  | ERequest Target r, Target => Some r
  | ERequest Monitor r, Monitor => Some r
  | _, _ => None
  end.

Definition requests_to (site : Site) (h : list (Z * Event)) : list RequestInfo :=
  omap (fun te => request_to site (snd te)) h.

(** The class of a recorded response is that of its status code and of
    some body. *)
Definition classified (CONFIG : Config) (rec : AttemptRecord) : Prop :=
  match rec with
  | AResponse outcome statusCode _ =>
      exists body, outcome = classify CONFIG statusCode body
  | _ => True
  end.

(** The cookies that the jar of [s] holds for the origin of the direct
    target cannot be serialized: [serializeCookie] throws [e]. *)
Definition unserializable `{Platform} (CONFIG : Config) (e : JsError) (s : State)
    : Prop :=
  cookie_header_for (targetUrl CONFIG) (cookieStorage s) = Thrown e.



(** * Properties *)

(** ** Rules for computations *)

Lemma wp_mono {A} (m : Js A) s (Q Q' : Result A -> State -> list (Z * Event) -> Prop) :
  wp m s Q -> (forall r s' d, Q r s' d -> Q' r s' d) -> wp m s Q'.
Proof. intros (d & Ht & HQ) Himp. exists d. auto. Qed.

Lemma wp_ret {A} (a : A) s (Q : Result A -> State -> list (Z * Event) -> Prop) :
  Q (Done a) s [] -> wp (ret a) s Q.
Proof. intros HQ. exists []. simpl. rewrite app_nil_r. auto. Qed.

Lemma wp_throw {A} e s (Q : Result A -> State -> list (Z * Event) -> Prop) :
  Q (Thrown e) s [] -> wp (throw e) s Q.
Proof. intros HQ. exists []. simpl. rewrite app_nil_r. auto. Qed.

Lemma wp_lift {A} (r : JsError + A) s (Q : Result A -> State -> list (Z * Event) -> Prop) :
  match r with
  | inl e => Q (Thrown e) s []
  | inr a => Q (Done a) s []
  end -> wp (lift r) s Q.
Proof. destruct r; simpl; [apply wp_throw|apply wp_ret]. Qed.

Lemma wp_bind {A B} (m : Js A) (k : A -> Js B) s
    (Q : Result B -> State -> list (Z * Event) -> Prop) :
  wp m s (fun r s1 d1 =>
            match r with
            | Done a => wp (k a) s1 (fun r2 s2 d2 => Q r2 s2 (d1 ++ d2)%list)
            | Thrown e => Q (Thrown e) s1 d1
            end) ->
  wp (bind m k) s Q.
Proof.
  unfold wp, bind. intros (d1 & Ht1 & H1).
  destruct (m s) as [[a|e] s1]; simpl in *.
  - destruct H1 as (d2 & Ht2 & H2). exists (d1 ++ d2)%list.
    rewrite Ht2, Ht1, app_assoc. auto.
  - exists d1. auto.
Qed.

Lemma wp_try_catch {A} (m : Js A) (h : JsError -> Js A) s
    (Q : Result A -> State -> list (Z * Event) -> Prop) :
  wp m s (fun r s1 d1 =>
            match r with
            | Done a => Q (Done a) s1 d1
            | Thrown e => wp (h e) s1 (fun r2 s2 d2 => Q r2 s2 (d1 ++ d2)%list)
            end) ->
  wp (try_catch m h) s Q.
Proof.
  unfold wp, try_catch. intros (d1 & Ht1 & H1).
  destruct (m s) as [[a|e] s1]; simpl in *.
  - exists d1. auto.
  - destruct H1 as (d2 & Ht2 & H2). exists (d1 ++ d2)%list.
    rewrite Ht2, Ht1, app_assoc. auto.
Qed.

Lemma wp_emit {A} (a : A) (e : Event) s
    (Q : Result A -> State -> list (Z * Event) -> Prop) :
  Q (Done a) (emit e s) [(now s, e)] -> wp (fun s => (Done a, emit e s)) s Q.
Proof. intros HQ. exists [(now s, e)]. auto. Qed.

Lemma wp_console level msg s (Q : Result unit -> State -> list (Z * Event) -> Prop) :
  Q (Done tt) (emit (ELog level msg) s) [(now s, ELog level msg)] ->
  wp (console level msg) s Q.
Proof. apply wp_emit. Qed.

Lemma wp_began attempt s (Q : Result unit -> State -> list (Z * Event) -> Prop) :
  Q (Done tt) (emit (EAttempt attempt) s) [(now s, EAttempt attempt)] ->
  wp (began attempt) s Q.
Proof. apply wp_emit. Qed.

Lemma wp_notified status msg ping s
    (Q : Result unit -> State -> list (Z * Event) -> Prop) :
  Q (Done tt) (emit (ENotify status msg ping) s) [(now s, ENotify status msg ping)] ->
  wp (notified status msg ping) s Q.
Proof. apply wp_emit. Qed.

Lemma wp_Date_now s (Q : Result Z -> State -> list (Z * Event) -> Prop) :
  Q (Done (now s)) (emit EDateNow s) [(now s, EDateNow)] -> wp Date_now s Q.
Proof. apply wp_emit. Qed.

Lemma wp_sleep ms s (Q : Result unit -> State -> list (Z * Event) -> Prop) :
  Q (Done tt) (advance ms (emit (ESleep ms) s)) [(now s, ESleep ms)] ->
  wp (sleep ms) s Q.
Proof. intros HQ. exists [(now s, ESleep ms)]. auto. Qed.

Lemma wp_getStorage s
    (Q : Result (gmap string (gmap string string)) -> State -> list (Z * Event) -> Prop) :
  Q (Done (cookieStorage s)) s [] -> wp getStorage s Q.
Proof. intros HQ. exists []. simpl. rewrite app_nil_r. auto. Qed.

Lemma wp_putStorage st s (Q : Result unit -> State -> list (Z * Event) -> Prop) :
  Q (Done tt) (set_storage st s) [] -> wp (putStorage st) s Q.
Proof. intros HQ. exists []. simpl. rewrite app_nil_r. auto. Qed.

Lemma now_count_request site s : now (count_request site s) = now s.
Proof. destruct site; reflexivity. Qed.

Lemma trace_count_request site s : trace (count_request site s) = trace s.
Proof. destruct site; reflexivity. Qed.

Lemma cookieStorage_count_request site s :
  cookieStorage (count_request site s) = cookieStorage s.
Proof. destruct site; reflexivity. Qed.

Lemma wp_request world site r s
    (Q : Result Response -> State -> list (Z * Event) -> Prop) :
  (forall s',
     cookieStorage s' = cookieStorage s ->
     match world site (sent site s) with
     | Responds resp =>
         now s' = now s + headersDelay resp ->
         Q (Done resp) s'
           [(now s, ERequest site r);
            (now s + headersDelay resp, EHeaders site (statusCode resp))]
     | Rejects delay e =>
         now s' = now s + delay ->
         Q (Thrown e) s'
           [(now s, ERequest site r); (now s + delay, ERejected site e)]
     end) ->
  wp (request world site r) s Q.
Proof.
  intros HQ. unfold wp, request.
  specialize (HQ (snd (request world site r s))). unfold request in HQ.
  destruct (world site (sent site s)) as [resp|delay e]; simpl in *.
  - eexists. split.
    + rewrite trace_count_request. simpl. rewrite <- app_assoc. reflexivity.
    + rewrite now_count_request. simpl.
      apply HQ.
      * rewrite cookieStorage_count_request. reflexivity.
      * rewrite now_count_request. reflexivity.
  - eexists. split.
    + rewrite trace_count_request. simpl. rewrite <- app_assoc. reflexivity.
    + rewrite now_count_request. simpl.
      apply HQ.
      * rewrite cookieStorage_count_request. reflexivity.
      * rewrite now_count_request. reflexivity.
Qed.

Lemma wp_body_text_of site resp s
    (Q : Result string -> State -> list (Z * Event) -> Prop) :
  (forall s',
     cookieStorage s' = cookieStorage s ->
     now s' = now s + bodyDelay resp ->
     match body_text resp with
     | inr text => Q (Done text) s' [(now s + bodyDelay resp, EBodyRead site)]
     | inl e => Q (Thrown e) s' [(now s + bodyDelay resp, EBodyFailed site e)]
     end) ->
  wp (body_text_of site resp) s Q.
Proof.
  intros HQ. unfold wp, body_text_of.
  specialize (HQ (snd (body_text_of site resp s))). unfold body_text_of in HQ.
  destruct (body_text resp) as [e|text]; simpl in *.
  - eexists. split; [reflexivity|]. apply HQ; reflexivity.
  - eexists. split; [reflexivity|]. apply HQ; reflexivity.
Qed.

(** Use a proved specification [Hspec] at the head of the computation. *)
Ltac wp_use Hspec :=
  first [ eapply wp_mono; [apply Hspec|]
        | apply wp_bind; eapply wp_mono; [apply Hspec|] ];
  cbv beta.

Ltac wp_step :=
  lazymatch goal with
  | |- wp (bind _ _) _ _ => apply wp_bind
  | |- wp (try_catch _ _) _ _ => apply wp_try_catch
  | |- wp (ret _) _ _ => apply wp_ret
  | |- wp (throw _) _ _ => apply wp_throw
  | |- wp (lift ?r) _ _ => apply wp_lift
  | |- wp (console _ _) _ _ => apply wp_console
  | |- wp (began _) _ _ => apply wp_began
  | |- wp (notified _ _ _) _ _ => apply wp_notified
  | |- wp Date_now _ _ => apply wp_Date_now
  | |- wp (sleep _) _ _ => apply wp_sleep
  | |- wp getStorage _ _ => apply wp_getStorage
  | |- wp (putStorage _) _ _ => apply wp_putStorage
  | |- wp (request _ _ _) _ _ =>
      let Hst := fresh "Hst" in apply wp_request; intros ?s' Hst; simpl in Hst
  | |- wp (body_text_of _ _) _ _ =>
      let Hst := fresh "Hst" in let Hnow := fresh "Hnow" in
      apply wp_body_text_of; intros ?s' Hst Hnow; simpl in Hst, Hnow
  end.

Ltac wp_steps := repeat (wp_step; cbv beta).

Lemma core_app (d1 d2 : list (Z * Event)) : core (d1 ++ d2) = (core d1 ++ core d2)%list.
Proof. unfold core. apply List.filter_app. Qed.

Lemma steps_app (d1 d2 : list (Z * Event)) : steps (d1 ++ d2) = (steps d1 ++ steps d2)%list.
Proof. unfold steps. apply omap_app. Qed.

Lemma notifications_app (d1 d2 : list (Z * Event)) :
  notifications (d1 ++ d2) = (notifications d1 ++ notifications d2)%list.
Proof. unfold notifications. apply omap_app. Qed.

Lemma steps_core (d : list (Z * Event)) : steps (core d) = steps d.
Proof.
  induction d as [|[t e] d IH]; [reflexivity|].
  unfold core, steps in *. simpl in *.
  destruct e as [| | [] | [] | [] | [] | [] | | |]; simpl;
    first [exact IH | f_equal; exact IH].
Qed.

Lemma notifications_core (d : list (Z * Event)) :
  notifications (core d) = notifications d.
Proof.
  induction d as [|[t e] d IH]; [reflexivity|].
  unfold core, notifications in *. simpl in *.
  destruct e as [| | [] | [] | [] | [] | [] | | |]; simpl;
    first [exact IH | f_equal; exact IH].
Qed.


(** ** What each function adds to the history *)

Section Footprints.
Context `{Platform} (CONFIG : Config) (world : World).

Lemma serializeCookie_spec url s :
  wp (serializeCookie url) s
     (fun r s' d => core d = [] /\ cookieStorage s' = cookieStorage s).
Proof.
  unfold serializeCookie. wp_steps.
  destruct (if truthy (extractDomain url) then _ else _); wp_steps.
  - destruct (stringifyCookie g); auto.
  - auto.
Qed.

Lemma updateCookies_loop_spec domain hs count s :
  wp (updateCookies_loop domain hs count) s
     (fun r s' d => (exists c, r = Done c) /\ core d = []).
Proof.
  revert count s. induction hs as [|h hs IH]; intros count s; simpl.
  - wp_steps. eauto.
  - wp_steps. destruct (parseSetCookie h) as [e|parsed]; wp_steps.
    + eapply wp_mono; [apply IH|]. intros r s' d [Hr Hd]. split; [exact Hr|].
      rewrite !core_app, Hd. reflexivity.
    + destruct (sc_value parsed) as [value|]; [destruct (_ && _)|]; wp_steps.
      * destruct (decide _); wp_steps;
          (eapply wp_mono; [apply IH|]; intros r s' d [Hr Hd]; split; [exact Hr|];
           rewrite !core_app, Hd; reflexivity).
      * eapply wp_mono; [apply IH|]. intros r s' d [Hr Hd]. split; [exact Hr|].
        rewrite !core_app, Hd. reflexivity.
      * eapply wp_mono; [apply IH|]. intros r s' d [Hr Hd]. split; [exact Hr|].
        rewrite !core_app, Hd. reflexivity.
Qed.

Lemma updateCookies_spec url hs s :
  wp (updateCookies url hs) s (fun r s' d => r = Done tt /\ core d = []).
Proof.
  unfold updateCookies. destruct (negb _); wp_steps; [auto|].
  destruct (cookieStorage s !! extractDomain url); wp_steps;
    (wp_use updateCookies_loop_spec; intros r s' d [[c ->] Hd];
     destruct (0 <? c); wp_steps; rewrite ?core_app, Hd; auto).
Qed.

Lemma handleSetCookie_spec url response s :
  wp (handleSetCookie url response) s (fun r s' d => r = Done tt /\ core d = []).
Proof.
  unfold handleSetCookie. destruct (set_cookie response) as [|h|[|h hs]].
  - wp_steps. auto.
  - destruct (truthy h); [apply updateCookies_spec|wp_steps; auto].
  - wp_steps. auto.
  - apply updateCookies_spec.
Qed.

Lemma extractIframeUrl_spec html s :
  wp (extractIframeUrl html) s
     (fun r s' d => (exists v, r = Done v) /\ core d = []).
Proof.
  unfold extractIframeUrl. wp_steps.
  destruct (select_space_iframe html) as [e|[|[src|] rest]]; wp_steps; eauto.
  destruct (truthy src); wp_steps; eauto.
Qed.

Lemma getIframeUrl_spec s :
  wp (getIframeUrl CONFIG world) s
     (fun r s' d => (exists v, r = Done v) /\ core d = []).
Proof.
  unfold getIframeUrl. wp_steps.
  wp_use serializeCookie_spec. intros [c|e] s1 d1 [Hd1 _]; [|wp_steps; rewrite ?core_app, Hd1; eauto].
  wp_step. wp_step. destruct (world Wrapper (sent Wrapper s1)) as [resp|delay e]; intros _;
    [|wp_steps; rewrite ?core_app, Hd1; eauto].
  wp_use handleSetCookie_spec. intros r2 s2 d2 [-> Hd2].
  wp_step. wp_step. destruct (body_text resp) as [e|html];
    [wp_steps; rewrite ?core_app, Hd1, Hd2; eauto|].
  destruct (negb _); wp_steps; [rewrite ?core_app, Hd1, Hd2; eauto|].
  wp_use extractIframeUrl_spec. intros r3 s3 d3 [[v ->] Hd3].
  rewrite ?core_app, Hd1, Hd2, Hd3; eauto.
Qed.
End Footprints.

Lemma wp_remember {A} (m : Js A) s (Q : Result A -> State -> list (Z * Event) -> Prop) :
  wp m s Q -> wp m s (fun r s' d => Q r s' d /\ m s = (r, s')).
Proof.
  intros (d & Ht & HQ). exists d. repeat split; auto. destruct (m s); reflexivity.
Qed.

Lemma core_nil : core [] = [].
Proof. reflexivity. Qed.

Lemma core_cons t e d :
  core ((t, e) :: d) = if is_core e then (t, e) :: core d else core d.
Proof. reflexivity. Qed.

Ltac core_simpl :=
  repeat first
    [ rewrite core_app
    | rewrite core_nil
    | rewrite core_cons; cbn [is_core]
    | match goal with
      | Hd : core _ = _ |- _ => rewrite Hd
      end ];
  cbn [app]; rewrite ?app_nil_r.

Section CycleFootprints.
Context `{Platform} (CONFIG : Config) (world : World).

Lemma pushToUptimeKuma_spec status msg ping s :
  wp (pushToUptimeKuma CONFIG world status msg ping) s
     (fun r s' d =>
        r = Done tt /\
        core d = pushed CONFIG (now s) status msg ping /\
        cookieStorage s' = cookieStorage s).
Proof.
  unfold pushToUptimeKuma, pushed, monitor_ready. wp_steps.
  destruct (uptimeKuma CONFIG) as [kuma|]; [|wp_steps; simpl; auto].
  destruct (enabled kuma); simpl negb; cbv iota; [|wp_steps; simpl; auto].
  wp_steps.
  destruct (new_URL_hostname (pushUrl kuma)) as [e|host]; [wp_steps; simpl; auto|].
  wp_steps.
  destruct (world Monitor _) as [resp|delay e]; intros Hnow1;
    [|wp_steps; simpl; repeat split; auto; congruence].
  wp_steps.
  destruct (body_text resp) as [e|body];
    [wp_steps; simpl; repeat split; auto; congruence|].
  destruct (statusCode resp =? 200); wp_steps;
    [|simpl; repeat split; auto; congruence].
  destruct (parsePushReply body) as [e|[ok m]]; wp_steps;
    [simpl; repeat split; auto; congruence|].
  destruct ok; simpl; wp_steps; simpl; repeat split; auto; congruence.
Qed.

Lemma keepAlive_resolve_spec attempt s :
  wp (keepAlive_resolve CONFIG world attempt) s
     (fun r s' d =>
        (exists url, r = Done (Some url) /\ core d = []) \/
        (r = Done None /\ exists t, core d = pushed CONFIG t Down msg_no_target None)).
Proof.
  unfold keepAlive_resolve. wp_step.
  assert (Hfrom : wp (if truthy (spaceUrl CONFIG)
                      then let* iframeUrl := getIframeUrl CONFIG world in
                           match iframeUrl with
                           | Some url => if truthy url then ret (Some url) else ret None
                           | None => ret None
                           end
                      else ret None) s
                     (fun r s' d => (exists v, r = Done v) /\ core d = [])).
  { destruct (truthy (spaceUrl CONFIG)); [|wp_steps; eauto].
    wp_use getIframeUrl_spec. intros r s1 d1 [[[url|] ->] Hd1].
    - destruct (truthy url); wp_steps; core_simpl; eauto.
    - wp_steps; core_simpl; eauto. }
  eapply wp_mono; [apply Hfrom|]. cbv beta.
  intros r s1 d1 [[[url|] ->] Hd1].
  - wp_steps. left. exists url. core_simpl. auto.
  - destruct (truthy (targetUrl CONFIG)); wp_steps.
    + left. eexists. core_simpl. auto.
    + wp_use pushToUptimeKuma_spec. intros r2 s2 d2 (-> & Hd2 & _).
      wp_steps. right. split; [reflexivity|]. eexists. core_simpl. reflexivity.
Qed.

Lemma keepAlive_fetch_spec attempt startTime url s :
  wp (keepAlive_fetch world attempt startTime url) s
     (fun r s' d =>
        match r with
        | Done (response, responseTime, responseBody) =>
            exists t_req t_hdr t_body cookieHeader,
              responseTime = t_hdr - startTime /\
              core d = answered t_req t_hdr t_body url cookieHeader
                         (statusCode response)
        | Thrown e => failed_request (core d)
        end).
Proof.
  unfold keepAlive_fetch. wp_steps.
  wp_use serializeCookie_spec. intros [c|e] s1 d1 [Hd1 _];
    [|core_simpl; left; reflexivity].
  wp_step. wp_step.
  destruct (world Target _) as [resp|delay e]; intros Hnow1.
  - wp_steps. wp_use handleSetCookie_spec. intros r2 s2 d2 [-> Hd2].
    wp_step. wp_step. destruct (body_text resp) as [e|body].
    + core_simpl. right. right. rewrite Hnow1. repeat eexists.
    + wp_steps. core_simpl. rewrite Hnow1. repeat eexists.
  - core_simpl. right. left. repeat eexists.
Qed.
End CycleFootprints.

Section AttemptFootprint.
Context `{Platform} (CONFIG : Config) (world : World).

Lemma keepAlive_respond_spec attempt startTime s :
  wp (keepAlive_respond CONFIG world attempt startTime) s
     (fun r s' d =>
        match r with
        | Done None => exists t, core d = pushed CONFIG t Down msg_no_target None
        | Done (Some (response, responseTime, responseBody)) =>
            exists t_req t_hdr t_body url cookieHeader,
              responseTime = t_hdr - startTime /\
              core d = answered t_req t_hdr t_body url cookieHeader
                         (statusCode response)
        | Thrown e => failed_request (core d)
        end).
Proof.
  unfold keepAlive_respond.
  wp_use keepAlive_resolve_spec.
  intros r s1 d1 [(url & -> & Hd1)|(-> & t & Hd1)].
  - wp_use keepAlive_fetch_spec. intros [[[resp rt] body]|e] s2 d2 Hd2.
    + destruct Hd2 as (t_req & t_hdr & t_body & c & -> & Hd2).
      wp_steps. core_simpl. exists t_req, t_hdr, t_body, url, c. auto.
    + core_simpl. exact Hd2.
  - wp_steps. exists t. core_simpl. reflexivity.
Qed.

Lemma keepAlive_handle_spec attempt response responseTime responseBody s :
  wp (keepAlive_handle CONFIG world attempt response responseTime responseBody) s
     (fun r s' d =>
        handle_tail CONFIG attempt
          (classify CONFIG (statusCode response) responseBody)
          (statusCode response) responseTime r (core d)).
Proof.
  unfold keepAlive_handle, handle_tail.
  destruct (classify CONFIG (statusCode response) responseBody).
  - wp_steps. destruct (attempt <? maxRetries CONFIG).
    + wp_steps. split; eauto.
    + wp_use pushToUptimeKuma_spec. intros r1 s1 d1 (-> & Hd1 & _).
      wp_steps. core_simpl. split; eauto.
  - wp_steps. destruct (attempt <? maxRetries CONFIG).
    + wp_steps. split; eauto.
    + wp_use pushToUptimeKuma_spec. intros r1 s1 d1 (-> & Hd1 & _).
      wp_steps. core_simpl. split; eauto.
  - wp_steps. wp_use pushToUptimeKuma_spec. intros r1 s1 d1 (-> & Hd1 & _).
    wp_steps. core_simpl. split; eauto.
Qed.

Lemma keepAlive_catch_spec attempt error s :
  wp (keepAlive_catch CONFIG world attempt error) s
     (fun r s' d => catch_tail CONFIG attempt error r (core d)).
Proof.
  unfold keepAlive_catch, catch_tail, msg_thrown.
  destruct (err_is_Error error).
  - wp_step.
    assert (Hlog : wp (if is_timeout error then console LError (TimedOut attempt)
                       else if is_connect error
                            then console LError (ConnectFailed attempt)
                            else console LError
                                   (UnknownError attempt (err_message error))) s
                      (fun r s' d => r = Done tt /\ core d = [])).
    { destruct (is_timeout error); [|destruct (is_connect error)]; wp_steps; auto. }
    eapply wp_mono; [apply Hlog|]. cbv beta. intros r s1 d1 [-> Hd1].
    destruct (attempt <? maxRetries CONFIG).
    + wp_steps. core_simpl. split; eauto.
    + wp_step.
      destruct (is_timeout error); [|destruct (is_connect error)];
        (wp_use pushToUptimeKuma_spec; intros r2 s2 d2 (-> & Hd2 & _);
         wp_steps; core_simpl; split; eauto).
  - wp_steps. destruct (attempt <? maxRetries CONFIG).
    + wp_steps. split; eauto.
    + wp_use pushToUptimeKuma_spec. intros r1 s1 d1 (-> & Hd1 & _).
      wp_steps. core_simpl. split; eauto.
Qed.

(** One turn of the retry loop, read off the record of the attempt. *)
Lemma keepAlive_attempt_spec attempt s :
  wp (keepAlive_attempt CONFIG world attempt) s
     (fun r s' d =>
        attempt_shape CONFIG attempt (now s)
          (attempt_record CONFIG world attempt s) r (core d)).
Proof.
  unfold keepAlive_attempt, attempt_record. wp_steps. unfold keepAlive_try.
  wp_step.
  eapply wp_mono; [apply wp_remember, keepAlive_respond_spec|]. cbv beta.
  intros r s1 d1 [Hd1 Hrun].
  change ((began attempt ;;
           let* startTime := Date_now in
           keepAlive_respond CONFIG world attempt startTime) s)
    with (keepAlive_respond CONFIG world attempt (now s)
            (emit EDateNow (emit (EAttempt attempt) s))).
  simpl now in *. rewrite Hrun.
  destruct r as [[[[resp rt] body]|]|e].
  - destruct Hd1 as (t_req & t_hdr & t_body & url & c & -> & Hd1).
    wp_use keepAlive_handle_spec. intros r2 s2 d2 Hd2.
    assert (Hshape : attempt_shape CONFIG attempt (now s)
              (AResponse (classify CONFIG (statusCode resp) body)
                 (statusCode resp) (t_hdr - now s)) r2
              (core ([(now s, EAttempt attempt)] ++
                     ([(now s, EDateNow)] ++ d1 ++ d2)))).
    { exists t_req, t_hdr, t_body, url, c, (core d2).
      repeat split; [core_simpl; reflexivity|exact Hd2]. }
    destruct r2 as [ctl|e2]; [exact Hshape|].
    exfalso. clear -Hd2. unfold handle_tail in Hd2.
    destruct (classify _ _ _); try destruct (attempt <? maxRetries CONFIG);
      destruct Hd2 as [Hr _]; first [discriminate | destruct Hr; discriminate].
  - wp_steps. destruct Hd1 as [t Hd1]. split; [reflexivity|].
    exists t. core_simpl. reflexivity.
  - wp_use keepAlive_catch_spec. intros r2 s2 d2 Hd2.
    exists (core d1), (core d2). repeat split; [exact Hd1| |exact Hd2].
    core_simpl. reflexivity.
Qed.
End AttemptFootprint.

Section CycleRun.
Context `{Platform} (CONFIG : Config) (world : World).

Lemma attempt_shape_done attempt t0 rec r cd :
  attempt_shape CONFIG attempt t0 rec r cd -> exists ctl, r = Done ctl.
Proof.
  destruct rec as [|e|outcome code rt]; simpl.
  - intros [-> _]. eauto.
  - intros (mid & tail & _ & _ & Hc). unfold catch_tail in Hc.
    destruct (attempt <? maxRetries CONFIG); destruct Hc as [Hr _].
    + destruct Hr as [e' ->]. eauto.
    + subst. eauto.
  - intros (t_req & t_hdr & t_body & url & c & tail & _ & _ & Hh).
    unfold handle_tail in Hh.
    destruct outcome; try destruct (attempt <? maxRetries CONFIG);
      destruct Hh as [Hr _];
      lazymatch type of Hr with
      | ex _ => destruct Hr as [e' ->]
      | _ => subst
      end; eauto.
Qed.

Lemma keepAlive_loop_spec turns attempt lastError s :
  wp (keepAlive_loop CONFIG world turns attempt lastError) s
     (fun r s' d =>
        exists returned,
          cycle_run CONFIG turns attempt
            (cycle_attempts CONFIG world turns attempt s) (core d) returned /\
          if returned then r = Done None else exists l, r = Done (Some l)).
Proof.
  revert attempt lastError s. induction turns as [|turns IH]; intros attempt lastError s.
  - simpl. wp_steps. exists false. split; [constructor|eauto].
  - cbn [keepAlive_loop cycle_attempts]. wp_step.
    eapply wp_mono; [apply wp_remember, keepAlive_attempt_spec|]. cbv beta.
    intros r s1 d1 [Hshape Hrun]. rewrite Hrun.
    destruct (attempt_shape_done _ _ _ _ _ Hshape) as [[e|] ->].
    + eapply wp_mono; [apply IH|]. cbv beta.
      intros r2 s2 d2 (returned & Hcycle & Hr). exists returned.
      split; [|exact Hr]. rewrite core_app. econstructor; eassumption.
    + wp_steps. exists true. rewrite app_nil_r.
      split; [econstructor; eassumption|reflexivity].
Qed.

(** A poll cycle never throws, and its core events are those of its
    attempts. *)
Lemma keepAlive_spec s :
  wp (keepAlive CONFIG world) s
     (fun r s' d =>
        r = Done tt /\
        exists returned,
          cycle_run CONFIG (Z.to_nat (maxRetries CONFIG)) 1
            (attempts_of_cycle CONFIG world s) (core d) returned).
Proof.
  unfold keepAlive, attempts_of_cycle. wp_use keepAlive_loop_spec.
  intros r s1 d1 (returned & Hcycle & Hr).
  destruct returned.
  - subst r. wp_steps. rewrite app_nil_r. eauto.
  - destruct Hr as [[l|] ->]; wp_steps; [rewrite core_app|]; simpl;
      rewrite app_nil_r; eauto.
Qed.

Lemma added_app s s' d : trace s' = (trace s ++ d)%list -> added s s' = d.
Proof. intros Ht. unfold added. rewrite Ht. apply drop_app_length. Qed.

(** The same, on the result of running the cycle. *)
Lemma keepAlive_run s :
  fst (keepAlive CONFIG world s) = Done tt /\
  exists returned,
    cycle_run CONFIG (Z.to_nat (maxRetries CONFIG)) 1
      (attempts_of_cycle CONFIG world s)
      (core (added s (snd (keepAlive CONFIG world s)))) returned.
Proof.
  destruct (keepAlive_spec s) as (d & Ht & Hr & Hc).
  rewrite (added_app _ _ _ Ht). auto.
Qed.
End CycleRun.


(** ** Strings *)

Lemma prefix_true_app (m s : string) :
  String.prefix m s = true -> exists post, s = m +:+ post.
Proof.
  revert s. induction m as [|c m IH]; intros s Hp.
  - exists s. reflexivity.
  - destruct s as [|d s]; simpl in Hp; [discriminate|].
    destruct (Ascii.ascii_dec c d) as [->|]; [|discriminate].
    destruct (IH _ Hp) as [post ->]. exists post. reflexivity.
Qed.

Lemma prefix_app_true (m post : string) : String.prefix m (m +:+ post) = true.
Proof.
  induction m as [|c m IH]; simpl.
  - destruct post; reflexivity.
  - destruct (Ascii.ascii_dec c c); [exact IH|congruence].
Qed.

(** [includes s marker] holds exactly when [marker] is a substring of [s]. *)
Lemma includes_spec (s marker : string) :
  includes s marker = true <-> exists pre post, s = pre +:+ marker +:+ post.
Proof.
  split.
  - induction s as [|c s IH]; cbn [includes]; intros Hi.
    + rewrite orb_false_r in Hi. apply prefix_true_app in Hi as [post ->].
      exists "", post. reflexivity.
    + apply orb_true_iff in Hi as [Hp|Hr].
      * apply prefix_true_app in Hp as [post Hs]. exists "", post. exact Hs.
      * destruct (IH Hr) as (pre & post & ->).
        exists (String c pre), post. reflexivity.
  - intros (pre & post & ->). induction pre as [|c pre IH].
    + change ("" +:+ marker +:+ post) with (marker +:+ post).
      destruct (marker +:+ post) eqn:E; cbn [includes];
        rewrite <- E, prefix_app_true; reflexivity.
    + change (String c pre +:+ marker +:+ post)
        with (String c (pre +:+ marker +:+ post)).
      cbn [includes]. rewrite IH. apply orb_true_r.
Qed.

Lemma containsFailureMarker_spec (body : string) :
  containsFailureMarker body = true <-> has_marker body.
Proof.
  unfold containsFailureMarker, has_marker. rewrite existsb_exists. split.
  - intros (m & Hin & Hi). apply includes_spec in Hi as (pre & post & ->). eauto.
  - intros (m & pre & post & Hin & ->). exists m. split; [exact Hin|].
    apply includes_spec. eauto.
Qed.

Lemma array_includes_spec (xs : list Z) (x : Z) :
  array_includes xs x = true <-> In x xs.
Proof.
  unfold array_includes. rewrite existsb_exists. split.
  - intros (y & Hin & Heq). apply Z.eqb_eq in Heq. congruence.
  - intros Hin. exists x. split; [exact Hin|apply Z.eqb_refl].
Qed.

(** ** The failure classifier *)

(** C1: the classifier decides in a fixed order.  A body that contains a
    failure marker is a content failure whatever the status code, also
    when the code is one of the expected ones; without a marker, a status
    code outside the expected set is an unexpected status; otherwise the
    response is a success. *)
Theorem classify_decision_order (CONFIG : Config) (statusCode : Z) (body : string) :
  (has_marker body -> classify CONFIG statusCode body = ContentFailure) /\
  (~ has_marker body -> ~ In statusCode (expectedStatusCodes CONFIG) ->
     classify CONFIG statusCode body = UnexpectedStatus) /\
  (~ has_marker body -> In statusCode (expectedStatusCodes CONFIG) ->
     classify CONFIG statusCode body = Success).
Proof.
  unfold classify.
  destruct (containsFailureMarker body) eqn:Hm.
  - apply containsFailureMarker_spec in Hm. repeat split; intros; tauto.
  - assert (Hn : ~ has_marker body).
    { intros Hc. apply containsFailureMarker_spec in Hc. congruence. }
    destruct (array_includes (expectedStatusCodes CONFIG) statusCode) eqn:Hc; simpl.
    + apply array_includes_spec in Hc. repeat split; intros; tauto.
    + assert (~ In statusCode (expectedStatusCodes CONFIG)).
      { intros Hin. apply array_includes_spec in Hin. congruence. }
      repeat split; intros; tauto.
Qed.

Lemma classify_decision_order_witness :
  classify Lab.direct_only 200
    "<h1>404</h1> Sorry, we can't find the page you are looking for." = ContentFailure /\
  classify Lab.direct_only 500 "Internal Server Error" = UnexpectedStatus /\
  classify Lab.direct_only 200 "hello" = Success.
Proof.
  assert (Hno : forall body, containsFailureMarker body = false -> ~ has_marker body).
  { intros body Hc Hm. apply containsFailureMarker_spec in Hm. congruence. }
  split; [|split].
  - apply (proj1 (classify_decision_order Lab.direct_only 200 _)).
    exists "Sorry, we can't find the page you are looking for.", "<h1>404</h1> ", "".
    split; [left; reflexivity|reflexivity].
  - apply (proj1 (proj2 (classify_decision_order Lab.direct_only 500 _))).
    + apply Hno. reflexivity.
    + simpl. intros [Heq|[]]. discriminate.
  - apply (proj2 (proj2 (classify_decision_order Lab.direct_only 200 _))).
    + apply Hno. reflexivity.
    + left. reflexivity.
Defined.


(** ** The retry loop *)

Lemma monitor_requests_app (d1 d2 : list (Z * Event)) :
  monitor_requests (d1 ++ d2) = (monitor_requests d1 ++ monitor_requests d2)%list.
Proof. unfold monitor_requests. apply omap_app. Qed.

Lemma monitor_requests_core (d : list (Z * Event)) :
  monitor_requests (core d) = monitor_requests d.
Proof.
  induction d as [|[t e] d IH]; [reflexivity|].
  unfold core, monitor_requests in *. simpl in *.
  destruct e as [| | [] | [] | [] | [] | [] | | |]; simpl;
    first [exact IH | f_equal; exact IH].
Qed.

Section Turns.
Context `{Platform} (CONFIG : Config).

Lemma steps_pushed t status msg ping :
  steps (pushed CONFIG t status msg ping) = [SNotify status msg ping].
Proof. unfold pushed. destruct (monitor_ready CONFIG); reflexivity. Qed.

Lemma monitor_requests_pushed t status msg ping :
  monitor_requests (pushed CONFIG t status msg ping) =
  monitor_sees CONFIG status msg ping.
Proof. unfold pushed, monitor_sees. destruct (monitor_ready CONFIG); reflexivity. Qed.

(** A turn that ends on an unexpected status while attempts remain:
    the request, then the fixed delay, then the next turn. *)
Lemma unexpected_turn_continues attempt t0 statusCode responseTime r cd :
  (attempt <? maxRetries CONFIG) = true ->
  attempt_shape CONFIG attempt t0
    (AResponse UnexpectedStatus statusCode responseTime) r cd ->
  (exists e, r = Done (Continue e)) /\
  steps cd = [SAttempt attempt; SRequest; SSleep 2000] /\
  monitor_requests cd = [].
Proof.
  intros Hlt (t_req & t_hdr & t_body & url & c & tail & _ & -> & Htail).
  simpl in Htail. rewrite Hlt in Htail. destruct Htail as [Hr [t ->]].
  split; [exact Hr|]. split; reflexivity.
Qed.

(** A turn that ends on an unexpected status when no attempt remains:
    the request, then the "down" notification with the latency. *)
Lemma unexpected_turn_returns attempt t0 statusCode responseTime r cd :
  (attempt <? maxRetries CONFIG) = false ->
  attempt_shape CONFIG attempt t0
    (AResponse UnexpectedStatus statusCode responseTime) r cd ->
  r = Done Return /\
  steps cd = [SAttempt attempt; SRequest;
              SNotify Down (msg_unexpected statusCode) (Some responseTime)] /\
  monitor_requests cd =
    monitor_sees CONFIG Down (msg_unexpected statusCode) (Some responseTime).
Proof.
  intros Hlt (t_req & t_hdr & t_body & url & c & tail & _ & -> & Htail).
  simpl in Htail. rewrite Hlt in Htail. destruct Htail as [Hr [t ->]].
  split; [exact Hr|].
  rewrite !steps_app, !monitor_requests_app, steps_pushed, monitor_requests_pushed.
  split; reflexivity.
Qed.
End Turns.

(** C2: with [maxRetries = 3], a cycle in which every attempt is answered
    with an unexpected status makes exactly three attempts, sleeps the
    fixed two seconds after the first and after the second and not after
    the third, and ends with exactly one "down" notification, which
    carries the status code and the latency of the third attempt; the
    monitor, when it is ready, receives exactly that one push. *)
Theorem three_unexpected_attempts `{Platform} (CONFIG : Config) (world : World)
    (s : State) :
  maxRetries CONFIG = 3 ->
  Forall unexpected (attempts_of_cycle CONFIG world s) ->
  exists statusCode responseTime,
    last (attempts_of_cycle CONFIG world s) =
      Some (AResponse UnexpectedStatus statusCode responseTime) /\
    length (attempts_of_cycle CONFIG world s) = 3%nat /\
    fst (keepAlive CONFIG world s) = Done tt /\
    steps (added s (snd (keepAlive CONFIG world s))) =
      [ SAttempt 1; SRequest; SSleep 2000;
        SAttempt 2; SRequest; SSleep 2000;
        SAttempt 3; SRequest;
        SNotify Down (msg_unexpected statusCode) (Some responseTime) ] /\
    monitor_requests (added s (snd (keepAlive CONFIG world s))) =
      monitor_sees CONFIG Down (msg_unexpected statusCode) (Some responseTime).
Proof.
  intros Hmax Hall.
  destruct (keepAlive_run CONFIG world s) as (Hdone & returned & Hrun).
  rewrite <- (steps_core (added _ _)), <- (monitor_requests_core (added _ _)).
  revert Hall Hrun. generalize (core (added s (snd (keepAlive CONFIG world s)))).
  generalize (attempts_of_cycle CONFIG world s).
  rewrite Hmax. change (Z.to_nat 3) with 3%nat.
  intros recs cd Hall Hrun.
  (* first turn *)
  inversion Hrun as [|? ? t1 rec1 cd1 Hs1|? ? t1 rec1 e1 cd1 recs1 cds1 ? Hs1 Hrun1]; subst.
  { apply Forall_inv in Hall as (code & rt & ->).
    apply unexpected_turn_continues in Hs1 as [[e He] _]; [discriminate|].
    rewrite Hmax. reflexivity. }
  pose proof (Forall_inv Hall) as (code1 & rt1 & ->). apply Forall_inv_tail in Hall.
  apply unexpected_turn_continues in Hs1 as (_ & Hsteps1 & Hmon1);
    [|rewrite Hmax; reflexivity].
  (* second turn *)
  inversion Hrun1 as [|? ? t2 rec2 cd2 Hs2|? ? t2 rec2 e2 cd2 recs2 cds2 ? Hs2 Hrun2]; subst.
  { apply Forall_inv in Hall as (code & rt & ->).
    apply unexpected_turn_continues in Hs2 as [[e He] _]; [discriminate|].
    rewrite Hmax. reflexivity. }
  pose proof (Forall_inv Hall) as (code2 & rt2 & ->). apply Forall_inv_tail in Hall.
  apply unexpected_turn_continues in Hs2 as (_ & Hsteps2 & Hmon2);
    [|rewrite Hmax; reflexivity].
  (* third turn *)
  inversion Hrun2 as [|? ? t3 rec3 cd3 Hs3|? ? t3 rec3 e3 cd3 recs3 cds3 ? Hs3 Hrun3]; subst.
  - pose proof (Forall_inv Hall) as (code3 & rt3 & ->).
    apply unexpected_turn_returns in Hs3 as (_ & Hsteps3 & Hmon3);
      [|rewrite Hmax; reflexivity].
    exists code3, rt3. repeat split; [exact Hdone| |].
    + rewrite !steps_app, Hsteps1, Hsteps2, Hsteps3. reflexivity.
    + rewrite !monitor_requests_app, Hmon1, Hmon2, Hmon3. reflexivity.
  - pose proof (Forall_inv Hall) as (code3 & rt3 & ->).
    apply unexpected_turn_returns in Hs3 as (Hr & _); [discriminate|].
    rewrite Hmax. reflexivity.
Qed.

Lemma three_unexpected_attempts_witness :
  exists statusCode responseTime,
    last (@attempts_of_cycle Lab.platform Lab.space_only Lab.always_500
            (Lab.ready Lab.space_only)) =
      Some (AResponse UnexpectedStatus statusCode responseTime) /\
    length (@attempts_of_cycle Lab.platform Lab.space_only Lab.always_500
              (Lab.ready Lab.space_only)) = 3%nat /\
    fst (@keepAlive Lab.platform Lab.space_only Lab.always_500
           (Lab.ready Lab.space_only)) = Done tt /\
    steps (added (Lab.ready Lab.space_only)
             (snd (@keepAlive Lab.platform Lab.space_only Lab.always_500
                     (Lab.ready Lab.space_only)))) =
      [ SAttempt 1; SRequest; SSleep 2000;
        SAttempt 2; SRequest; SSleep 2000;
        SAttempt 3; SRequest;
        SNotify Down (msg_unexpected statusCode) (Some responseTime) ] /\
    monitor_requests (added (Lab.ready Lab.space_only)
             (snd (@keepAlive Lab.platform Lab.space_only Lab.always_500
                     (Lab.ready Lab.space_only)))) =
      @monitor_sees Lab.platform Lab.space_only Down
        (msg_unexpected statusCode) (Some responseTime).
Proof.
  apply (@three_unexpected_attempts Lab.platform Lab.space_only Lab.always_500
           (Lab.ready Lab.space_only)).
  - reflexivity.
  - vm_compute. repeat constructor; eexists; eexists; reflexivity.
Defined.


(** ** How a cycle ends *)

Lemma sleeps_app (d1 d2 : list (Z * Event)) :
  sleeps (d1 ++ d2) = (sleeps d1 ++ sleeps d2)%list.
Proof. unfold sleeps. apply omap_app. Qed.

Lemma sleeps_core (d : list (Z * Event)) : sleeps (core d) = sleeps d.
Proof.
  induction d as [|[t e] d IH]; [reflexivity|].
  unfold core, sleeps in *. simpl in *.
  destruct e as [| | [] | [] | [] | [] | [] | | |]; simpl;
    first [exact IH | f_equal; exact IH].
Qed.

Section Endings.
Context `{Platform} (CONFIG : Config).

Lemma notifications_pushed t status msg ping :
  notifications (pushed CONFIG t status msg ping) = [(status, msg, ping)].
Proof. unfold pushed. destruct (monitor_ready CONFIG); reflexivity. Qed.

Lemma sleeps_pushed t status msg ping :
  sleeps (pushed CONFIG t status msg ping) = [].
Proof. unfold pushed. destruct (monitor_ready CONFIG); reflexivity. Qed.

Lemma failed_request_quiet mid :
  failed_request mid ->
  notifications mid = [] /\ monitor_requests mid = [] /\ sleeps mid = [] /\
  (steps mid = [] \/ steps mid = [SRequest]).
Proof.
  intros [->|[(t_req & t & url & c & e & ->)
             |(t_req & t_hdr & t & url & c & code & e & ->)]];
    repeat split; auto.
Qed.

(** A turn that goes on to the next one: attempts remain, the attempt
    was a retryable failure, nothing was pushed, and the turn ends with
    the fixed delay. *)
Lemma continue_turn attempt t0 rec e cd :
  attempt_shape CONFIG attempt t0 rec (Done (Continue e)) cd ->
  (attempt <? maxRetries CONFIG) = true /\ retryable rec = true /\
  notifications cd = [] /\ monitor_requests cd = [] /\ sleeps cd = [2000] /\
  exists front, steps cd = (SAttempt attempt :: front ++ [SSleep 2000])%list /\
                (front = [] \/ front = [SRequest]).
Proof.
  destruct rec as [|err|outcome code rt]; cbn [attempt_shape final_notification retryable].
  - intros [Hr _]. discriminate.
  - intros (mid & tail & Hmid & -> & Htail). unfold catch_tail in Htail.
    destruct (attempt <? maxRetries CONFIG); destruct Htail as [Hr [t ->]];
      [|discriminate].
    destruct (failed_request_quiet _ Hmid) as (Hn & Hm & Hs & Hst).
    rewrite !notifications_app, !monitor_requests_app, !sleeps_app, !steps_app,
      Hn, Hm, Hs.
    repeat split; auto. exists (steps mid). split; [reflexivity|exact Hst].
  - intros (t_req & t_hdr & t_body & url & c & tail & _ & -> & Htail).
    unfold handle_tail in Htail.
    destruct outcome; try destruct (attempt <? maxRetries CONFIG);
      destruct Htail as [Hr [t ->]]; try discriminate;
      (repeat split; auto; exists [SRequest]; split; [reflexivity|auto]).
Qed.

(** A turn that returns: it pushes the notification of its attempt and
    nothing else, and does not sleep; if the attempt was a retryable
    failure no attempt remains. *)
Lemma return_turn attempt t0 rec cd :
  attempt_shape CONFIG attempt t0 rec (Done Return) cd ->
  notifications cd = [final_notification rec] /\
  monitor_requests cd =
    (let '(status, msg, ping) := final_notification rec in
     monitor_sees CONFIG status msg ping) /\
  sleeps cd = [] /\
  (retryable rec = true -> (attempt <? maxRetries CONFIG) = false).
Proof.
  destruct rec as [|err|outcome code rt]; cbn [attempt_shape final_notification retryable].
  - intros [_ [t ->]].
    rewrite !notifications_app, !monitor_requests_app, !sleeps_app,
      notifications_pushed, monitor_requests_pushed, sleeps_pushed.
    repeat split; auto. discriminate.
  - intros (mid & tail & Hmid & -> & Htail). unfold catch_tail in Htail.
    destruct (attempt <? maxRetries CONFIG); destruct Htail as [Hr Ht].
    { destruct Hr; discriminate. }
    destruct Ht as [t ->].
    destruct (failed_request_quiet _ Hmid) as (Hn & Hm & Hs & _).
    rewrite !notifications_app, !monitor_requests_app, !sleeps_app,
      notifications_pushed, monitor_requests_pushed, sleeps_pushed, Hn, Hm, Hs.
    repeat split; auto.
  - intros (t_req & t_hdr & t_body & url & c & tail & _ & -> & Htail).
    unfold handle_tail in Htail.
    destruct outcome; try destruct (attempt <? maxRetries CONFIG);
      destruct Htail as [Hr Ht]; try (destruct Hr; discriminate);
      destruct Ht as [t ->];
      rewrite !notifications_app, !monitor_requests_app, !sleeps_app,
        notifications_pushed, monitor_requests_pushed, sleeps_pushed;
      repeat split; auto; discriminate.
Qed.

(** The last turn of a cycle: everything before it is made of turns
    that went on, and it returns. *)
Lemma cycle_run_final turns attempt recs cd returned :
  cycle_run CONFIG turns attempt recs cd returned ->
  Z.of_nat turns + attempt = maxRetries CONFIG + 1 ->
  match last recs with
  | None => turns = O /\ cd = [] /\ returned = false
  | Some rec =>
      returned = true /\
      exists pre chunk t0,
        cd = (pre ++ chunk)%list /\
        notifications pre = [] /\ monitor_requests pre = [] /\
        sleeps pre = repeat 2000 (length recs - 1) /\
        Forall (fun r => retryable r = true) (removelast recs) /\
        attempt_shape CONFIG (attempt + Z.of_nat (length recs) - 1) t0 rec
          (Done Return) chunk
  end.
Proof.
  induction 1 as [attempt|turns attempt t0 rec cd Hshape
                 |turns attempt t0 rec e cd recs cds returned Hshape Hrun IH];
    intros Hinv.
  - simpl. auto.
  - simpl. split; [reflexivity|]. exists [], cd, t0.
    repeat split; auto.
    replace (attempt + Z.of_nat 1 - 1) with attempt by lia. exact Hshape.
  - destruct (continue_turn _ _ _ _ _ Hshape) as (Hlt & Hretry & Hn & Hm & Hs & _).
    apply Z.ltb_lt in Hlt.
    assert (Hinv' : Z.of_nat turns + (attempt + 1) = maxRetries CONFIG + 1) by lia.
    specialize (IH Hinv').
    destruct recs as [|rec' recs'].
    { simpl in IH. destruct IH as (-> & _ & _). simpl in Hinv'. lia. }
    change (last (rec :: rec' :: recs')) with (last (rec' :: recs')).
    destruct (last (rec' :: recs')) as [final|] eqn:Hlast;
      [|destruct IH as (-> & _); simpl in Hinv'; lia].
    destruct IH as (-> & pre & chunk & t1 & -> & Hn' & Hm' & Hs' & Hall & Hfinal).
    split; [reflexivity|]. exists (cd ++ pre)%list, chunk, t1.
    rewrite !notifications_app, !monitor_requests_app, !sleeps_app, Hn, Hm, Hs,
      Hn', Hm', Hs', app_assoc.
    repeat split; auto.
    + simpl length. replace (S (S (length recs')) - 1)%nat
        with (S (S (length recs') - 1))%nat by lia. reflexivity.
    + change (removelast (rec :: rec' :: recs'))
        with (rec :: removelast (rec' :: recs')). constructor; assumption.
    + replace (attempt + Z.of_nat (length (rec :: rec' :: recs')) - 1)
        with (attempt + 1 + Z.of_nat (length (rec' :: recs')) - 1)
        by (simpl length; lia).
      exact Hfinal.
Qed.
End Endings.

(** The last turn of a cycle that made at least one attempt: the core
    events of the cycle are those of turns that went on, which push
    nothing and each sleep the fixed delay, followed by those of a turn
    that returns. *)
Lemma cycle_last_turn `{Platform} (CONFIG : Config) (world : World) (s : State)
    (rec : AttemptRecord) :
  last (attempts_of_cycle CONFIG world s) = Some rec ->
  exists pre chunk t0,
    core (added s (snd (keepAlive CONFIG world s))) = (pre ++ chunk)%list /\
    notifications pre = [] /\ monitor_requests pre = [] /\
    sleeps pre = repeat 2000 (length (attempts_of_cycle CONFIG world s) - 1) /\
    Forall (fun r => retryable r = true)
           (removelast (attempts_of_cycle CONFIG world s)) /\
    attempt_shape CONFIG (Z.of_nat (length (attempts_of_cycle CONFIG world s)))
      t0 rec (Done Return) chunk.
Proof.
  intros Hlast.
  destruct (keepAlive_run CONFIG world s) as (_ & returned & Hrun).
  assert (Hturns : Z.of_nat (Z.to_nat (maxRetries CONFIG)) + 1 = maxRetries CONFIG + 1
                   \/ attempts_of_cycle CONFIG world s = []).
  { destruct (Z.le_gt_cases 0 (maxRetries CONFIG)) as [Hle|Hgt]; [left; lia|].
    right. unfold attempts_of_cycle.
    replace (Z.to_nat (maxRetries CONFIG)) with O by lia. reflexivity. }
  destruct Hturns as [Hinv|Hnil]; [|rewrite Hnil in Hlast; discriminate].
  pose proof (cycle_run_final CONFIG _ _ _ _ _ Hrun Hinv) as Hfinal.
  rewrite Hlast in Hfinal.
  destruct Hfinal as (_ & pre & chunk & t0 & Hcd & Hn & Hm & Hs & Hall & Hshape).
  exists pre, chunk, t0. repeat split; auto.
  replace (Z.of_nat (length (attempts_of_cycle CONFIG world s)))
    with (1 + Z.of_nat (length (attempts_of_cycle CONFIG world s)) - 1) by lia.
  exact Hshape.
Qed.

Lemma cycle_attempts_length `{Platform} (CONFIG : Config) (world : World)
    turns attempt s :
  (length (cycle_attempts CONFIG world turns attempt s) <= turns)%nat.
Proof.
  revert attempt s. induction turns as [|n IH]; intros a st; simpl; [lia|].
  destruct (keepAlive_attempt CONFIG world a st) as [[[e|]|e] st']; simpl;
    [specialize (IH (a + 1) st')|..]; lia.
Qed.

(** A cycle that made at least one attempt ends with exactly one
    notification, that of its last attempt; every attempt before the
    last was a retryable failure and was followed by the fixed delay; and
    the monitor, when it is ready, receives that one push. *)
Lemma cycle_ending `{Platform} (CONFIG : Config) (world : World) (s : State)
    (rec : AttemptRecord) :
  last (attempts_of_cycle CONFIG world s) = Some rec ->
  let d := added s (snd (keepAlive CONFIG world s)) in
  notifications d = [final_notification rec] /\
  monitor_requests d =
    (let '(status, msg, ping) := final_notification rec in
     monitor_sees CONFIG status msg ping) /\
  sleeps d = repeat 2000 (length (attempts_of_cycle CONFIG world s) - 1) /\
  Forall (fun r => retryable r = true)
         (removelast (attempts_of_cycle CONFIG world s)) /\
  (retryable rec = true ->
   Z.of_nat (length (attempts_of_cycle CONFIG world s)) = maxRetries CONFIG).
Proof.
  intros Hlast d. subst d.
  destruct (cycle_last_turn CONFIG world s rec Hlast)
    as (pre & chunk & t0 & Hcd & Hn & Hm & Hs & Hall & Hshape).
  rewrite <- (notifications_core (added _ _)), <- (monitor_requests_core (added _ _)),
    <- (sleeps_core (added _ _)), Hcd.
  destruct (return_turn CONFIG _ _ _ _ Hshape) as (Hn' & Hm' & Hs' & Hmax).
  rewrite !notifications_app, !monitor_requests_app, !sleeps_app, Hn, Hm, Hs, Hn', Hm', Hs',
    app_nil_r.
  repeat split; auto.
  intros Hretry. specialize (Hmax Hretry). apply Z.ltb_ge in Hmax.
  pose proof (cycle_attempts_length CONFIG world (Z.to_nat (maxRetries CONFIG)) 1 s) as Hlen.
  fold (attempts_of_cycle CONFIG world s) in Hlen.
  destruct (attempts_of_cycle CONFIG world s); [discriminate|].
  simpl length in *. lia.
Qed.


(** ** The notification at the end of a cycle *)

Lemma last_time_app p (d1 d2 : list (Z * Event)) :
  last_time p (d1 ++ d2) =
  match last_time p d2 with
  | Some t => Some t
  | None => last_time p d1
  end.
Proof. unfold last_time. rewrite List.filter_app, List.map_app. apply last_app. Qed.

Lemma last_time_core p (d : list (Z * Event)) :
  (forall e, p e = true -> is_core e = true) ->
  last_time p (core d) = last_time p d.
Proof.
  intros Hp. unfold last_time, core. f_equal. f_equal.
  induction d as [|[t e] d IH]; [reflexivity|]. simpl.
  destruct (is_core e) eqn:Hc; simpl.
  - destruct (p e); [f_equal|]; exact IH.
  - destruct (p e) eqn:He; [|exact IH]. apply Hp in He. congruence.
Qed.

Lemma last_time_pushed `{Platform} CONFIG p t status msg ping :
  (forall r, p (ERequest Monitor r) = false) ->
  p (ENotify status msg ping) = false ->
  last_time p (pushed CONFIG t status msg ping) = None.
Proof.
  intros Hm Hn. unfold pushed, last_time. simpl. rewrite Hn.
  destruct (monitor_ready CONFIG); simpl; [rewrite Hm|]; reflexivity.
Qed.

Lemma no_attempts_no_events `{Platform} (CONFIG : Config) (world : World) (s : State) :
  attempts_of_cycle CONFIG world s = [] ->
  core (added s (snd (keepAlive CONFIG world s))) = [].
Proof.
  intros Hnil. destruct (keepAlive_run CONFIG world s) as (_ & returned & Hrun).
  rewrite Hnil in Hrun. inversion Hrun; reflexivity.
Qed.

Lemma in_removelast_or_last {A} (x : A) (l : list A) :
  In x l -> In x (removelast l) \/ last l = Some x.
Proof.
  induction l as [|y l IH]; [intros []|].
  intros [->|Hin].
  - destruct l; [right; reflexivity|left; left; reflexivity].
  - destruct l as [|z l]; [destruct Hin|].
    destruct (IH Hin) as [Hr|Hl]; [left; right; exact Hr|right; exact Hl].
Qed.

(** C3, as the code has it: an attempt that finds no usable target URL
    is not retried.  Whatever [maxRetries] is, it is the last attempt of
    its cycle: the turn sends no request to a target, pushes one "down"
    notification without latency and returns, and no delay follows it. *)
Theorem no_target_ends_the_cycle `{Platform} (CONFIG : Config) (world : World)
    (s : State) :
  In ANoTarget (attempts_of_cycle CONFIG world s) ->
  last (attempts_of_cycle CONFIG world s) = Some ANoTarget /\
  notifications (added s (snd (keepAlive CONFIG world s))) =
    [(Down, msg_no_target, None)] /\
  sleeps (added s (snd (keepAlive CONFIG world s))) =
    repeat 2000 (length (attempts_of_cycle CONFIG world s) - 1) /\
  exists front,
    steps (added s (snd (keepAlive CONFIG world s))) =
      (front ++ [ SAttempt (Z.of_nat (length (attempts_of_cycle CONFIG world s)));
                  SNotify Down msg_no_target None ])%list.
Proof.
  intros Hin.
  assert (Hlast : last (attempts_of_cycle CONFIG world s) = Some ANoTarget).
  { destruct (last (attempts_of_cycle CONFIG world s)) as [rec|] eqn:Hl.
    - destruct (cycle_ending CONFIG world s rec Hl) as (_ & _ & _ & Hall & _).
      destruct (in_removelast_or_last _ _ Hin) as [Hr|Hlast'].
      + rewrite Forall_forall in Hall. apply list_elem_of_In, Hall in Hr. discriminate.
      + congruence.
    - apply last_None in Hl. rewrite Hl in Hin. destruct Hin. }
  destruct (cycle_ending CONFIG world s _ Hlast) as (Hn & _ & Hs & _ & _).
  destruct (cycle_last_turn CONFIG world s _ Hlast)
    as (pre & chunk & t0 & Hcd & _ & _ & _ & _ & Hshape).
  repeat split; auto.
  exists (steps pre). rewrite <- steps_core, Hcd, steps_app.
  destruct Hshape as [_ [t ->]]. rewrite steps_app, steps_pushed. reflexivity.
Qed.

Lemma no_target_ends_the_cycle_witness :
  last (@attempts_of_cycle Lab.platform Lab.space_only Lab.wrapper_unreachable
          (Lab.ready Lab.space_only)) = Some ANoTarget /\
  notifications (added (Lab.ready Lab.space_only)
                   (snd (@keepAlive Lab.platform Lab.space_only
                           Lab.wrapper_unreachable (Lab.ready Lab.space_only)))) =
    [(Down, msg_no_target, None)] /\
  sleeps (added (Lab.ready Lab.space_only)
            (snd (@keepAlive Lab.platform Lab.space_only
                    Lab.wrapper_unreachable (Lab.ready Lab.space_only)))) =
    repeat 2000
      (length (@attempts_of_cycle Lab.platform Lab.space_only
                 Lab.wrapper_unreachable (Lab.ready Lab.space_only)) - 1) /\
  exists front,
    steps (added (Lab.ready Lab.space_only)
             (snd (@keepAlive Lab.platform Lab.space_only
                     Lab.wrapper_unreachable (Lab.ready Lab.space_only)))) =
      (front ++
       [ SAttempt (Z.of_nat
                     (length (@attempts_of_cycle Lab.platform Lab.space_only
                                Lab.wrapper_unreachable (Lab.ready Lab.space_only))));
         SNotify Down msg_no_target None ])%list.
Proof.
  apply (@no_target_ends_the_cycle Lab.platform Lab.space_only
           Lab.wrapper_unreachable (Lab.ready Lab.space_only)).
  vm_compute. left. reflexivity.
Defined.

(** C3, as the specification has it, fails: with [maxRetries = 3], a
    wrapper page that cannot be reached and no direct target URL, the
    cycle makes a single attempt, pushes "down" at once and is over; the
    two attempts that remain are never made and no delay is taken. *)
Lemma resolution_failure_not_retried :
  maxRetries Lab.space_only = 3 /\
  @attempts_of_cycle Lab.platform Lab.space_only Lab.wrapper_unreachable
    (Lab.ready Lab.space_only) = [ANoTarget] /\
  steps (trace (snd (@keepAlive Lab.platform Lab.space_only
                       Lab.wrapper_unreachable (Lab.ready Lab.space_only)))) =
    [SAttempt 1; SNotify Down msg_no_target None].
Proof. vm_compute. repeat split; reflexivity. Qed.

(** C10: the two "down" notifications of an exhausted cycle differ in
    their latency.  A cycle whose last attempt is a content failure
    pushes "down" without latency; a cycle whose last attempt is an
    unexpected status pushes "down" with the latency measured on that
    attempt.  In both cases every attempt of the cycle was used. *)
Theorem down_latency_by_failure `{Platform} (CONFIG : Config) (world : World)
    (s : State) (outcome : Outcome) (statusCode responseTime : Z) :
  last (attempts_of_cycle CONFIG world s) =
    Some (AResponse outcome statusCode responseTime) ->
  outcome <> Success ->
  Z.of_nat (length (attempts_of_cycle CONFIG world s)) = maxRetries CONFIG /\
  notifications (added s (snd (keepAlive CONFIG world s))) =
    [ match outcome with
      | ContentFailure => (Down, msg_marker statusCode, None)
      | _ => (Down, msg_unexpected statusCode, Some responseTime)
      end ] /\
  monitor_requests (added s (snd (keepAlive CONFIG world s))) =
    match outcome with
    | ContentFailure => monitor_sees CONFIG Down (msg_marker statusCode) None
    | _ => monitor_sees CONFIG Down (msg_unexpected statusCode) (Some responseTime)
    end.
Proof.
  intros Hlast Hfail.
  destruct (cycle_ending CONFIG world s _ Hlast) as (Hn & Hm & _ & _ & Hlen).
  destruct outcome; [| |congruence]; (split; [apply Hlen; reflexivity|]); auto.
Qed.

Lemma down_latency_by_failure_witness :
  (Z.of_nat (length (@attempts_of_cycle Lab.platform Lab.direct_only
                       Lab.dead_deployment (Lab.ready Lab.direct_only))) = 3 /\
   notifications (added (Lab.ready Lab.direct_only)
                    (snd (@keepAlive Lab.platform Lab.direct_only
                            Lab.dead_deployment (Lab.ready Lab.direct_only)))) =
     [(Down, msg_marker 200, None)] /\
   monitor_requests (added (Lab.ready Lab.direct_only)
                    (snd (@keepAlive Lab.platform Lab.direct_only
                            Lab.dead_deployment (Lab.ready Lab.direct_only)))) =
     @monitor_sees Lab.platform Lab.direct_only Down (msg_marker 200) None) /\
  (Z.of_nat (length (@attempts_of_cycle Lab.platform Lab.direct_only
                       Lab.always_500 (Lab.ready Lab.direct_only))) = 3 /\
   notifications (added (Lab.ready Lab.direct_only)
                    (snd (@keepAlive Lab.platform Lab.direct_only
                            Lab.always_500 (Lab.ready Lab.direct_only)))) =
     [(Down, msg_unexpected 500, Some 10)] /\
   monitor_requests (added (Lab.ready Lab.direct_only)
                    (snd (@keepAlive Lab.platform Lab.direct_only
                            Lab.always_500 (Lab.ready Lab.direct_only)))) =
     @monitor_sees Lab.platform Lab.direct_only Down (msg_unexpected 500) (Some 10)).
Proof.
  split.
  - apply (@down_latency_by_failure Lab.platform Lab.direct_only Lab.dead_deployment
             (Lab.ready Lab.direct_only) ContentFailure 200 10).
    + vm_compute. reflexivity.
    + discriminate.
  - apply (@down_latency_by_failure Lab.platform Lab.direct_only Lab.always_500
             (Lab.ready Lab.direct_only) UnexpectedStatus 500 10).
    + vm_compute. reflexivity.
    + discriminate.
Defined.


(** ** The reported latency *)

Section Latency.
Context `{Platform} (CONFIG : Config).

(** In a turn that returns with a latency, the latency is the time
    between the start of the turn and the arrival of the headers of the
    target's response. *)
Lemma return_turn_latency attempt t0 rec chunk status msg p :
  attempt_shape CONFIG attempt t0 rec (Done Return) chunk ->
  final_notification rec = (status, msg, Some p) ->
  last_time is_attempt chunk = Some t0 /\
  exists t_req t_hdr t_body,
    last_time is_target_request chunk = Some t_req /\
    last_time is_target_headers chunk = Some t_hdr /\
    last_time is_target_body chunk = Some t_body /\
    p = t_hdr - t0.
Proof.
  destruct rec as [|err|outcome code rt]; cbn [attempt_shape final_notification];
    [discriminate..|].
  intros (t_req & t_hdr & t_body & url & c & tail & -> & -> & Htail) Hfinal.
  assert (Hpush : exists t st m pg, tail = pushed CONFIG t st m pg /\ p = t_hdr - t0).
  { unfold handle_tail in Htail.
    destruct outcome; try discriminate;
      try destruct (attempt <? maxRetries CONFIG);
      destruct Htail as [Hr Ht]; try (destruct Hr; discriminate);
      destruct Ht as [t ->]; inversion Hfinal; subst; eauto 10. }
  destruct Hpush as (t & st & m & pg & -> & ->).
  rewrite !last_time_app, !last_time_pushed by reflexivity.
  split; [reflexivity|]. exists t_req, t_hdr, t_body. repeat split; reflexivity.
Qed.
End Latency.

(** C8, as the code has it: a cycle pushes one notification, and when it
    carries a latency, the latency is that of the last attempt alone: the
    time from the start of that attempt, before its target is resolved,
    to the arrival of the headers of the target's response, before the
    body is read. *)
Theorem reported_latency `{Platform} (CONFIG : Config) (world : World) (s : State)
    (status : Status) (msg : string) (p : Z) :
  In (status, msg, Some p) (notifications (added s (snd (keepAlive CONFIG world s)))) ->
  exists rec t_start t_headers,
    last (attempts_of_cycle CONFIG world s) = Some rec /\
    final_notification rec = (status, msg, Some p) /\
    notifications (added s (snd (keepAlive CONFIG world s))) = [(status, msg, Some p)] /\
    last_time is_attempt (added s (snd (keepAlive CONFIG world s))) = Some t_start /\
    last_time is_target_headers (added s (snd (keepAlive CONFIG world s))) =
      Some t_headers /\
    p = t_headers - t_start.
Proof.
  intros Hin.
  destruct (last (attempts_of_cycle CONFIG world s)) as [rec|] eqn:Hlast.
  - destruct (cycle_ending CONFIG world s rec Hlast) as (Hn & _).
    rewrite Hn in Hin. destruct Hin as [Hfinal|[]].
    destruct (cycle_last_turn CONFIG world s rec Hlast)
      as (pre & chunk & t0 & Hcd & _ & _ & _ & _ & Hshape).
    destruct (return_turn_latency CONFIG _ _ _ _ _ _ _ Hshape Hfinal)
      as (Ha & t_req & t_hdr & t_body & _ & Hh & _ & Hp).
    exists rec, t0, t_hdr. repeat split; auto; try congruence.
    + rewrite <- last_time_core, Hcd, last_time_app, Ha; [reflexivity|].
      intros [] He; try discriminate; reflexivity.
    + rewrite <- last_time_core, Hcd, last_time_app, Hh; [reflexivity|].
      intros [| |[]|[]| | | | | |] He; try discriminate; reflexivity.
  - apply last_None in Hlast. apply no_attempts_no_events in Hlast.
    rewrite <- notifications_core, Hlast in Hin. destruct Hin.
Qed.

Lemma reported_latency_witness :
  exists rec t_start t_headers,
    last (@attempts_of_cycle Lab.platform Lab.space_and_direct Lab.all_up
            (Lab.ready Lab.space_and_direct)) = Some rec /\
    final_notification rec = (Up, "OK", Some 130) /\
    notifications (added (Lab.ready Lab.space_and_direct)
                     (snd (@keepAlive Lab.platform Lab.space_and_direct Lab.all_up
                             (Lab.ready Lab.space_and_direct)))) =
      [(Up, "OK", Some 130)] /\
    last_time is_attempt
      (added (Lab.ready Lab.space_and_direct)
         (snd (@keepAlive Lab.platform Lab.space_and_direct Lab.all_up
                 (Lab.ready Lab.space_and_direct)))) = Some t_start /\
    last_time is_target_headers
      (added (Lab.ready Lab.space_and_direct)
         (snd (@keepAlive Lab.platform Lab.space_and_direct Lab.all_up
                 (Lab.ready Lab.space_and_direct)))) = Some t_headers /\
    130 = t_headers - t_start.
Proof.
  apply (@reported_latency Lab.platform Lab.space_and_direct Lab.all_up
           (Lab.ready Lab.space_and_direct) Up "OK" 130).
  vm_compute. left. reflexivity.
Defined.

(** C8, as the specification has it, fails.  With a direct target only,
    the request is sent at 0, the headers arrive at 10 and the body ends
    at 60: from just before the request to the end of the body there are
    60 ms, and the cycle reports 10 ms.  With a wrapper page, which takes
    120 ms to fetch, the request is sent at 120, the headers arrive at
    130 and the body ends at 180: that makes 60 ms again, and the cycle
    reports 130 ms, counted from the start of the attempt. *)
Lemma latency_is_not_request_to_body :
  (let d := added (Lab.ready Lab.direct_only)
              (snd (@keepAlive Lab.platform Lab.direct_only Lab.all_up
                      (Lab.ready Lab.direct_only))) in
   notifications d = [(Up, "OK", Some 10)] /\
   last_time is_target_request d = Some 0 /\
   last_time is_target_body d = Some 60 /\
   10 <> 60 - 0) /\
  (let d := added (Lab.ready Lab.space_and_direct)
              (snd (@keepAlive Lab.platform Lab.space_and_direct Lab.all_up
                      (Lab.ready Lab.space_and_direct))) in
   notifications d = [(Up, "OK", Some 130)] /\
   last_time is_target_request d = Some 120 /\
   last_time is_target_body d = Some 180 /\
   130 <> 180 - 120).
Proof. vm_compute. repeat split; try reflexivity; discriminate. Qed.


(** ** The health notifier *)

Lemma warnings_app (d1 d2 : list (Z * Event)) :
  warnings (d1 ++ d2) = (warnings d1 ++ warnings d2)%list.
Proof. unfold warnings. apply omap_app. Qed.

Lemma bind_agree {A B} (m m' : Js A) (k k' : A -> Js B) s :
  m s = m' s -> (forall a s1, k a s1 = k' a s1) -> bind m k s = bind m' k' s.
Proof.
  intros Hm Hk. unfold bind. rewrite Hm.
  destruct (m' s) as [[a|e] s1]; [apply Hk|reflexivity].
Qed.

Lemma try_catch_agree {A} (m m' : Js A) (h h' : JsError -> Js A) s :
  m s = m' s -> (forall e s1, h e s1 = h' e s1) ->
  try_catch m h s = try_catch m' h' s.
Proof.
  intros Hm Hh. unfold try_catch. rewrite Hm.
  destruct (m' s) as [[a|e] s1]; [reflexivity|apply Hh].
Qed.

Lemma bind_cases {A B} (m : Js A) (k : A -> Js B) s :
  bind m k s = match m s with
               | (Done a, s1) => k a s1
               | (Thrown e, s1) => (Thrown e, s1)
               end.
Proof. reflexivity. Qed.

Lemma bind_console {B} level msg (k : unit -> Js B) s :
  bind (console level msg) k s = k tt (emit (ELog level msg) s).
Proof. reflexivity. Qed.

Lemma blind_refl s : blind s s.
Proof. split; reflexivity. Qed.

Lemma steps_trace_emit_log level msg s :
  steps (trace (emit (ELog level msg) s)) = steps (trace s).
Proof. simpl. rewrite steps_app. simpl. apply app_nil_r. Qed.

Section MonitorBlind.
Context `{Platform} (CONFIG : Config) (world world' : World).
Hypothesis same_wrapper : forall n, world Wrapper n = world' Wrapper n.
Hypothesis same_target : forall n, world Target n = world' Target n.

Lemma request_agree site r s :
  site <> Monitor -> request world site r s = request world' site r s.
Proof.
  intros Hsite. unfold request.
  destruct site; [rewrite same_wrapper|rewrite same_target|congruence]; reflexivity.
Qed.

Lemma getIframeUrl_agree s :
  getIframeUrl CONFIG world s = getIframeUrl CONFIG world' s.
Proof.
  unfold getIframeUrl. apply try_catch_agree; [|reflexivity].
  apply bind_agree; [reflexivity|]. intros _ s1.
  apply bind_agree; [reflexivity|]. intros c s2.
  apply bind_agree; [|reflexivity]. apply request_agree. discriminate.
Qed.

Lemma keepAlive_fetch_agree attempt startTime url s :
  keepAlive_fetch world attempt startTime url s =
  keepAlive_fetch world' attempt startTime url s.
Proof.
  unfold keepAlive_fetch.
  apply bind_agree; [reflexivity|]. intros _ s1.
  apply bind_agree; [reflexivity|]. intros c s2.
  apply bind_agree; [|reflexivity]. apply request_agree. discriminate.
Qed.

(** Whatever the monitor answers, a push returns normally and leaves
    the same cookie jar and the same steps behind. *)
Lemma push_alike status msg ping s :
  fst (pushToUptimeKuma CONFIG world status msg ping s) = Done tt /\
  ends_alike (pushToUptimeKuma CONFIG world status msg ping s)
             (pushToUptimeKuma CONFIG world' status msg ping s).
Proof.
  destruct (pushToUptimeKuma_spec CONFIG world status msg ping s)
    as (d1 & Ht1 & Hr1 & Hd1 & Hs1).
  destruct (pushToUptimeKuma_spec CONFIG world' status msg ping s)
    as (d2 & Ht2 & Hr2 & Hd2 & Hs2).
  split; [exact Hr1|]. split; [congruence|]. split; [congruence|].
  rewrite Ht1, Ht2, !steps_app, <- (steps_core d1), <- (steps_core d2), Hd1, Hd2.
  reflexivity.
Qed.

Lemma push_then_alike {A} (a : A) status msg ping s :
  fst (bind (pushToUptimeKuma CONFIG world status msg ping) (fun _ => ret a) s)
    = Done a /\
  ends_alike
    (bind (pushToUptimeKuma CONFIG world status msg ping) (fun _ => ret a) s)
    (bind (pushToUptimeKuma CONFIG world' status msg ping) (fun _ => ret a) s).
Proof.
  destruct (push_alike status msg ping s) as (Hr & Hr' & Hb).
  unfold bind, ret.
  destruct (pushToUptimeKuma CONFIG world status msg ping s) as [r1 s1].
  destruct (pushToUptimeKuma CONFIG world' status msg ping s) as [r2 s2].
  simpl in *. subst r1. rewrite <- Hr'. simpl. repeat split; apply Hb.
Qed.

Lemma keepAlive_resolve_alike attempt s :
  keepAlive_resolve CONFIG world attempt s =
    keepAlive_resolve CONFIG world' attempt s \/
  (fst (keepAlive_resolve CONFIG world attempt s) = Done None /\
   ends_alike (keepAlive_resolve CONFIG world attempt s)
              (keepAlive_resolve CONFIG world' attempt s)).
Proof.
  unfold keepAlive_resolve.
  set (m := if truthy (spaceUrl CONFIG) then _ else _).
  set (m' := if truthy (spaceUrl CONFIG) then _ else _).
  assert (Hm : m s = m' s).
  { subst m m'. destruct (truthy (spaceUrl CONFIG)); [|reflexivity].
    apply bind_agree; [apply getIframeUrl_agree|reflexivity]. }
  rewrite (bind_cases m), (bind_cases m'), <- Hm.
  destruct (m s) as [[[url|]|e] s1]; [left; reflexivity| |left; reflexivity].
  destruct (truthy (targetUrl CONFIG)); [left; reflexivity|].
  right. rewrite !bind_console. apply push_then_alike.
Qed.

Lemma keepAlive_respond_alike attempt startTime s :
  keepAlive_respond CONFIG world attempt startTime s =
    keepAlive_respond CONFIG world' attempt startTime s \/
  (fst (keepAlive_respond CONFIG world attempt startTime s) = Done None /\
   ends_alike (keepAlive_respond CONFIG world attempt startTime s)
              (keepAlive_respond CONFIG world' attempt startTime s)).
Proof.
  unfold keepAlive_respond.
  destruct (keepAlive_resolve_alike attempt s) as [Heq|(Hnone & Hr & Hb)].
  - left. apply bind_agree; [exact Heq|]. intros [url|] s1; [|reflexivity].
    apply bind_agree; [apply keepAlive_fetch_agree|reflexivity].
  - right. unfold bind.
    destruct (keepAlive_resolve CONFIG world attempt s) as [r1 s1].
    destruct (keepAlive_resolve CONFIG world' attempt s) as [r2 s2].
    simpl in *. subst r1. rewrite <- Hr. simpl. repeat split; apply Hb.
Qed.

Lemma keepAlive_handle_alike attempt response responseTime responseBody s :
  keepAlive_handle CONFIG world attempt response responseTime responseBody s =
    keepAlive_handle CONFIG world' attempt response responseTime responseBody s \/
  (fst (keepAlive_handle CONFIG world attempt response responseTime responseBody s)
     = Done Return /\
   ends_alike
     (keepAlive_handle CONFIG world attempt response responseTime responseBody s)
     (keepAlive_handle CONFIG world' attempt response responseTime responseBody s)).
Proof.
  unfold keepAlive_handle.
  destruct (classify CONFIG (statusCode response) responseBody).
  - destruct (attempt <? maxRetries CONFIG); [left; reflexivity|].
    right. rewrite !bind_console. apply push_then_alike.
  - destruct (attempt <? maxRetries CONFIG); [left; reflexivity|].
    right. rewrite !bind_console. apply push_then_alike.
  - right. rewrite !bind_console. apply push_then_alike.
Qed.

Lemma keepAlive_catch_alike attempt error s :
  keepAlive_catch CONFIG world attempt error s =
    keepAlive_catch CONFIG world' attempt error s \/
  (fst (keepAlive_catch CONFIG world attempt error s) = Done Return /\
   ends_alike (keepAlive_catch CONFIG world attempt error s)
              (keepAlive_catch CONFIG world' attempt error s)).
Proof.
  unfold keepAlive_catch.
  destruct (err_is_Error error).
  - destruct (attempt <? maxRetries CONFIG); [left; reflexivity|].
    right.
    destruct (is_timeout error); [|destruct (is_connect error)];
      rewrite !bind_console, !bind_cases;
      match goal with
      | |- context [pushToUptimeKuma CONFIG world ?st ?m ?p ?s0] =>
          destruct (push_alike st m p s0) as (Hr & Hr' & Hb);
          destruct (pushToUptimeKuma CONFIG world st m p s0) as [r1 s1];
          destruct (pushToUptimeKuma CONFIG world' st m p s0) as [r2 s2]
      end;
      simpl in *; subst r1; rewrite <- Hr'; simpl; repeat split; apply Hb.
  - destruct (attempt <? maxRetries CONFIG); [left; reflexivity|].
    right. rewrite !bind_console. apply push_then_alike.
Qed.

Lemma keepAlive_try_alike attempt startTime s :
  keepAlive_try CONFIG world attempt startTime s =
    keepAlive_try CONFIG world' attempt startTime s \/
  (fst (keepAlive_try CONFIG world attempt startTime s) = Done Return /\
   ends_alike (keepAlive_try CONFIG world attempt startTime s)
              (keepAlive_try CONFIG world' attempt startTime s)).
Proof.
  unfold keepAlive_try. rewrite !bind_cases.
  destruct (keepAlive_respond_alike attempt startTime s) as [Heq|(Hnone & Hr & Hb)].
  - rewrite <- Heq.
    destruct (keepAlive_respond CONFIG world attempt startTime s)
      as [[[[[resp rt] body]|]|e] s1]; [|left; reflexivity..].
    apply keepAlive_handle_alike.
  - right.
    destruct (keepAlive_respond CONFIG world attempt startTime s) as [r1 s1].
    destruct (keepAlive_respond CONFIG world' attempt startTime s) as [r2 s2].
    simpl in *. subst r1. rewrite <- Hr. simpl. repeat split; apply Hb.
Qed.

Lemma keepAlive_attempt_alike attempt s :
  keepAlive_attempt CONFIG world attempt s =
    keepAlive_attempt CONFIG world' attempt s \/
  (fst (keepAlive_attempt CONFIG world attempt s) = Done Return /\
   ends_alike (keepAlive_attempt CONFIG world attempt s)
              (keepAlive_attempt CONFIG world' attempt s)).
Proof.
  unfold keepAlive_attempt.
  set (s0 := emit EDateNow (emit (EAttempt attempt) s)).
  change ((began attempt ;;
           let* startTime := Date_now in
           try_catch (keepAlive_try CONFIG world attempt startTime)
                     (keepAlive_catch CONFIG world attempt)) s)
    with (try_catch (keepAlive_try CONFIG world attempt (now s))
                    (keepAlive_catch CONFIG world attempt) s0).
  change ((began attempt ;;
           let* startTime := Date_now in
           try_catch (keepAlive_try CONFIG world' attempt startTime)
                     (keepAlive_catch CONFIG world' attempt)) s)
    with (try_catch (keepAlive_try CONFIG world' attempt (now s))
                    (keepAlive_catch CONFIG world' attempt) s0).
  unfold try_catch.
  destruct (keepAlive_try_alike attempt (now s) s0) as [Heq|(Hret & Hr & Hb)].
  - rewrite <- Heq.
    destruct (keepAlive_try CONFIG world attempt (now s) s0) as [[ctl|e] s1];
      [left; reflexivity|].
    apply keepAlive_catch_alike.
  - right.
    destruct (keepAlive_try CONFIG world attempt (now s) s0) as [r1 s1].
    destruct (keepAlive_try CONFIG world' attempt (now s) s0) as [r2 s2].
    simpl in *. subst r1. rewrite <- Hr. simpl. repeat split; apply Hb.
Qed.

Lemma attempt_record_agree attempt s :
  attempt_record CONFIG world attempt s = attempt_record CONFIG world' attempt s.
Proof.
  unfold attempt_record.
  set (s0 := emit EDateNow (emit (EAttempt attempt) s)).
  change ((began attempt ;;
           let* startTime := Date_now in
           keepAlive_respond CONFIG world attempt startTime) s)
    with (keepAlive_respond CONFIG world attempt (now s) s0).
  change ((began attempt ;;
           let* startTime := Date_now in
           keepAlive_respond CONFIG world' attempt startTime) s)
    with (keepAlive_respond CONFIG world' attempt (now s) s0).
  destruct (keepAlive_respond_alike attempt (now s) s0) as [Heq|(Hnone & Hr & _)].
  - rewrite Heq. reflexivity.
  - destruct (keepAlive_respond CONFIG world attempt (now s) s0) as [r1 s1].
    destruct (keepAlive_respond CONFIG world' attempt (now s) s0) as [r2 s2].
    simpl in *. subst r1 r2. reflexivity.
Qed.

Lemma keepAlive_loop_alike turns attempt lastError s :
  ends_alike (keepAlive_loop CONFIG world turns attempt lastError s)
             (keepAlive_loop CONFIG world' turns attempt lastError s) /\
  cycle_attempts CONFIG world turns attempt s =
    cycle_attempts CONFIG world' turns attempt s.
Proof.
  revert attempt lastError s.
  induction turns as [|turns IH]; intros attempt lastError s.
  - split; [split; [reflexivity|apply blind_refl]|reflexivity].
  - cbn [keepAlive_loop cycle_attempts]. rewrite !bind_cases, attempt_record_agree.
    destruct (keepAlive_attempt_alike attempt s) as [Heq|(Hret & Hr & Hb)].
    + rewrite <- Heq.
      destruct (keepAlive_attempt CONFIG world attempt s) as [[[e|]|e] s1].
      * destruct (IH (attempt + 1) (Some e) s1) as [Ha Hc].
        split; [exact Ha|]. rewrite Hc. reflexivity.
      * split; [split; [reflexivity|apply blind_refl]|reflexivity].
      * split; [split; [reflexivity|apply blind_refl]|reflexivity].
    + destruct (keepAlive_attempt CONFIG world attempt s) as [r1 s1].
      destruct (keepAlive_attempt CONFIG world' attempt s) as [r2 s2].
      simpl in *. subst r1. rewrite <- Hr.
      split; [split; [reflexivity|exact Hb]|reflexivity].
Qed.

(** A cycle does the same whatever the monitor answers. *)
Lemma keepAlive_alike s :
  ends_alike (keepAlive CONFIG world s) (keepAlive CONFIG world' s).
Proof.
  unfold keepAlive. rewrite !bind_cases.
  destruct (keepAlive_loop_alike (Z.to_nat (maxRetries CONFIG)) 1 None s)
    as [(Hr & Hs & Ht) _].
  destruct (keepAlive_loop CONFIG world _ 1 None s) as [r1 s1].
  destruct (keepAlive_loop CONFIG world' _ 1 None s) as [r2 s2].
  simpl in *. subst r2.
  destruct r1 as [[[l|]|]|e]; simpl; repeat split; auto.
  change (steps (trace (emit (ELog LError (AllRetriesFailed (maxRetries CONFIG))) s1)) =
          steps (trace (emit (ELog LError (AllRetriesFailed (maxRetries CONFIG))) s2))).
  rewrite !steps_trace_emit_log. exact Ht.
Qed.
End MonitorBlind.

Section Push.
Context `{Platform} (CONFIG : Config) (world : World).

Lemma pushToUptimeKuma_warns status msg ping s kuma :
  monitor_ready CONFIG = Some kuma ->
  wp (pushToUptimeKuma CONFIG world status msg ping) s
     (fun r s' d => warnings d = monitor_warning (world Monitor (sentMonitor s))).
Proof.
  unfold monitor_ready, pushToUptimeKuma, monitor_warning. intros Hready.
  destruct (uptimeKuma CONFIG) as [k|]; [|discriminate].
  destruct (enabled k); [|discriminate]. simpl negb. cbv iota.
  destruct (new_URL_hostname (pushUrl k)) as [e|host]; [discriminate|].
  wp_steps. simpl sent.
  destruct (world Monitor (sentMonitor s)) as [resp|delay e]; intros Hnow1;
    [|wp_steps; reflexivity].
  wp_steps.
  destruct (body_text resp) as [e|body]; [wp_steps; reflexivity|].
  destruct (statusCode resp =? 200); wp_steps; [|reflexivity].
  destruct (parsePushReply body) as [e|[ok m]]; wp_steps; [reflexivity|].
  destruct ok; simpl; wp_steps; reflexivity.
Qed.

Lemma pushToUptimeKuma_off status msg ping s :
  monitor_off CONFIG = true ->
  pushToUptimeKuma CONFIG world status msg ping s =
    (Done tt, emit (ENotify status msg ping) s).
Proof.
  unfold monitor_off, pushToUptimeKuma. intros Hoff.
  destruct (uptimeKuma CONFIG) as [k|]; [|reflexivity].
  rewrite Hoff. reflexivity.
Qed.

Lemma monitor_sees_length status msg ping :
  (length (monitor_sees CONFIG status msg ping) <= 1)%nat.
Proof. unfold monitor_sees. destruct (monitor_ready CONFIG); simpl; lia. Qed.
End Push.

(** C7: the health notifier is isolated.  A call of the report operation
    returns normally whatever the monitor does, sends at most one request
    and leaves the cookie jar alone; it does nothing when the monitor is
    not configured or is disabled; a push that fails (transport error,
    status other than [200], reply that does not parse) leaves exactly
    one warning on the console.  And a poll cycle makes the same
    attempts, takes the same steps and ends with the same notification
    whatever the monitor answers. *)
Theorem monitor_failure_is_swallowed `{Platform} (CONFIG : Config)
    (world world' : World) (s : State) (status : Status) (msg : string)
    (ping : option Z) :
  (forall n, world Wrapper n = world' Wrapper n) ->
  (forall n, world Target n = world' Target n) ->
  let after := snd (pushToUptimeKuma CONFIG world status msg ping s) in
  ( fst (pushToUptimeKuma CONFIG world status msg ping s) = Done tt /\
    cookieStorage after = cookieStorage s /\
    (length (monitor_requests (added s after)) <= 1)%nat /\
    (monitor_off CONFIG = true -> after = emit (ENotify status msg ping) s) /\
    (forall kuma delay e,
       monitor_ready CONFIG = Some kuma ->
       world Monitor (sentMonitor s) = Rejects delay e ->
       warnings (added s after) = [PushException (err_message e)]) /\
    (forall kuma resp body,
       monitor_ready CONFIG = Some kuma ->
       world Monitor (sentMonitor s) = Responds resp ->
       body_text resp = inr body -> statusCode resp <> 200 ->
       warnings (added s after) = [PushHttp (statusCode resp)]) /\
    (forall kuma resp body e,
       monitor_ready CONFIG = Some kuma ->
       world Monitor (sentMonitor s) = Responds resp ->
       body_text resp = inr body -> statusCode resp = 200 ->
       parsePushReply body = inl e ->
       warnings (added s after) = [PushException (err_message e)]) ) /\
  ( fst (keepAlive CONFIG world s) = Done tt /\
    fst (keepAlive CONFIG world' s) = Done tt /\
    attempts_of_cycle CONFIG world s = attempts_of_cycle CONFIG world' s /\
    steps (added s (snd (keepAlive CONFIG world s))) =
      steps (added s (snd (keepAlive CONFIG world' s))) /\
    cookieStorage (snd (keepAlive CONFIG world s)) =
      cookieStorage (snd (keepAlive CONFIG world' s)) ).
Proof.
  intros Hw Ht after. subst after. split.
  - destruct (pushToUptimeKuma_spec CONFIG world status msg ping s)
      as (d & Htr & Hr & Hd & Hs).
    rewrite (added_app _ _ _ Htr).
    split; [exact Hr|]. split; [exact Hs|]. split.
    { rewrite <- monitor_requests_core, Hd, monitor_requests_pushed.
      apply monitor_sees_length. }
    split.
    { intros Hoff. rewrite (pushToUptimeKuma_off CONFIG world _ _ _ _ Hoff). reflexivity. }
    assert (Hwarn : forall kuma, monitor_ready CONFIG = Some kuma ->
              warnings d = monitor_warning (world Monitor (sentMonitor s))).
    { intros kuma Hready.
      destruct (pushToUptimeKuma_warns CONFIG world status msg ping s kuma Hready)
        as (d' & Htr' & Hd').
      rewrite Htr in Htr'. apply app_inv_head in Htr'. subst d'. exact Hd'. }
    repeat split.
    + intros kuma delay e Hready Hans. rewrite (Hwarn _ Hready), Hans. reflexivity.
    + intros kuma resp body Hready Hans Hbody Hcode.
      rewrite (Hwarn _ Hready), Hans. simpl. rewrite Hbody.
      destruct (statusCode resp =? 200) eqn:E; [|reflexivity].
      apply Z.eqb_eq in E. contradiction.
    + intros kuma resp body e Hready Hans Hbody Hcode Hparse.
      rewrite (Hwarn _ Hready), Hans. simpl. rewrite Hbody, Hcode, Hparse. reflexivity.
  - destruct (keepAlive_run CONFIG world s) as [Hr1 _].
    destruct (keepAlive_run CONFIG world' s) as [Hr2 _].
    destruct (keepAlive_alike CONFIG world world' Hw Ht s) as (_ & Hs & Hsteps).
    destruct (keepAlive_loop_alike CONFIG world world' Hw Ht
                (Z.to_nat (maxRetries CONFIG)) 1 None s) as [_ Hatt].
    repeat split; auto.
    destruct (keepAlive_spec CONFIG world s) as (d1 & Htr1 & _).
    destruct (keepAlive_spec CONFIG world' s) as (d2 & Htr2 & _).
    rewrite (added_app _ _ _ Htr1), (added_app _ _ _ Htr2).
    rewrite Htr1, Htr2, !steps_app in Hsteps. apply app_inv_head in Hsteps. exact Hsteps.
Qed.

Lemma monitor_failure_is_swallowed_witness :
  fst (@pushToUptimeKuma Lab.platform Lab.direct_only Lab.always_500_monitor_down
         Down "x" None (Lab.ready Lab.direct_only)) = Done tt /\
  warnings (added (Lab.ready Lab.direct_only)
              (snd (@pushToUptimeKuma Lab.platform Lab.direct_only
                      Lab.always_500_monitor_down Down "x" None
                      (Lab.ready Lab.direct_only)))) =
    [PushException (err_message Lab.refused)] /\
  steps (added (Lab.ready Lab.direct_only)
           (snd (@keepAlive Lab.platform Lab.direct_only
                   Lab.always_500_monitor_down (Lab.ready Lab.direct_only)))) =
  steps (added (Lab.ready Lab.direct_only)
           (snd (@keepAlive Lab.platform Lab.direct_only
                   Lab.always_500 (Lab.ready Lab.direct_only)))).
Proof.
  destruct (@monitor_failure_is_swallowed Lab.platform Lab.direct_only
              Lab.always_500_monitor_down Lab.always_500
              (Lab.ready Lab.direct_only) Down "x" None)
    as [(Hdone & _ & _ & _ & Hrej & _) (_ & _ & _ & Hsteps & _)].
  - intros n. reflexivity.
  - intros n. reflexivity.
  - split; [exact Hdone|]. split; [|exact Hsteps].
    apply (Hrej Lab.kuma 3 Lab.refused); reflexivity.
Defined.


(** ** Target resolution *)

Section Resolution.
Context `{Platform} (CONFIG : Config) (world : World).

Lemma serializeCookie_result url s :
  wp (serializeCookie url) s
     (fun r s' d =>
        r = cookie_header_for url (cookieStorage s) /\
        sentWrapper s' = sentWrapper s /\ sentTarget s' = sentTarget s).
Proof.
  unfold serializeCookie, cookie_header_for. wp_steps.
  destruct (if truthy (extractDomain url) then _ else _) as [entry|]; wp_steps.
  - destruct (stringifyCookie entry); auto.
  - auto.
Qed.

(** The wrapper page answers [200] and its first
    [iframe.space-iframe] has a non-empty [src]: that is the URL. *)
Lemma getIframeUrl_found s cookieHeader resp html src rest :
  cookie_header_for (spaceUrl CONFIG) (cookieStorage s) = Done cookieHeader ->
  world Wrapper (sentWrapper s) = Responds resp ->
  statusCode resp = 200 ->
  body_text resp = inr html ->
  select_space_iframe html = inr (Some src :: rest) ->
  truthy src = true ->
  wp (getIframeUrl CONFIG world) s (fun r s' d => r = Done (Some src)).
Proof.
  intros Hheader Hworld Hcode Hbody Hselect Hsrc.
  unfold getIframeUrl. wp_steps.
  wp_use serializeCookie_result. intros r s1 d1 (-> & Hsent & _).
  simpl cookieStorage. rewrite Hheader.
  wp_step. wp_step. simpl sent. rewrite Hsent. simpl sentWrapper. rewrite Hworld.
  intros Hnow1.
  wp_use handleSetCookie_spec. intros r2 s2 d2 [-> _].
  wp_step. wp_step. rewrite Hbody, Hcode. simpl negb. cbv iota.
  unfold extractIframeUrl. wp_steps. rewrite Hselect. wp_steps.
  rewrite Hsrc. wp_steps. reflexivity.
Qed.

(** The wrapper page answers, with whatever status, and yields no
    frame URL. *)
Lemma getIframeUrl_not_found s resp html :
  world Wrapper (sentWrapper s) = Responds resp ->
  body_text resp = inr html ->
  statusCode resp <> 200 \/ no_frame_url html ->
  wp (getIframeUrl CONFIG world) s (fun r s' d => r = Done None).
Proof.
  intros Hworld Hbody Hno.
  unfold getIframeUrl. wp_steps.
  wp_use serializeCookie_result. intros [c|e] s1 d1 (_ & Hsent & _);
    [|wp_steps; reflexivity].
  wp_step. wp_step. simpl sent. rewrite Hsent. simpl sentWrapper. rewrite Hworld.
  intros Hnow1.
  wp_use handleSetCookie_spec. intros r2 s2 d2 [-> _].
  wp_step. wp_step. rewrite Hbody.
  destruct (statusCode resp =? 200) eqn:Hcode; simpl negb; cbv iota;
    [|wp_steps; reflexivity].
  apply Z.eqb_eq in Hcode. destruct Hno as [Hne|Hno]; [contradiction|].
  unfold extractIframeUrl. wp_steps.
  destruct Hno as [Hs|[[rest Hs]|[rest Hs]]]; rewrite Hs; wp_steps;
    try (simpl truthy; cbv iota; wp_steps); reflexivity.
Qed.

Lemma wp_result {A} (m : Js A) s (r0 : Result A) :
  wp m s (fun r s' d => r = r0) -> fst (m s) = r0.
Proof. intros (d & _ & Hr). exact Hr. Qed.
End Resolution.

(** C4, as the code has it.  When the wrapper page answers with status
    [200] and the first [iframe.space-iframe] of its body has a non-empty
    [src], the target of the attempt is that [src].  When the wrapper
    page answers and yields no frame URL (status other than [200], no
    such element, or a first element whose [src] is missing or empty) and
    a direct target URL is configured, the target is the direct URL. *)
Theorem target_resolution `{Platform} (CONFIG : Config) (world : World)
    (attempt : Z) (s : State) (resp : Response) (html : string) :
  truthy (spaceUrl CONFIG) = true ->
  world Wrapper (sentWrapper s) = Responds resp ->
  body_text resp = inr html ->
  (forall cookieHeader src rest,
     cookie_header_for (spaceUrl CONFIG) (cookieStorage s) = Done cookieHeader ->
     statusCode resp = 200 ->
     select_space_iframe html = inr (Some src :: rest) ->
     truthy src = true ->
     fst (keepAlive_resolve CONFIG world attempt s) = Done (Some src)) /\
  (statusCode resp <> 200 \/ no_frame_url html ->
   truthy (targetUrl CONFIG) = true ->
   fst (keepAlive_resolve CONFIG world attempt s) = Done (Some (targetUrl CONFIG))).
Proof.
  intros Hspace Hworld Hbody. split.
  - intros c src rest Hheader Hcode Hselect Hsrc.
    apply wp_result. unfold keepAlive_resolve. rewrite Hspace.
    wp_step. wp_step.
    eapply wp_mono; [eapply getIframeUrl_found; eassumption|]. cbv beta.
    intros r s1 d1 ->. rewrite Hsrc. wp_steps. reflexivity.
  - intros Hno Htarget.
    apply wp_result. unfold keepAlive_resolve. rewrite Hspace, Htarget.
    wp_step. wp_step.
    eapply wp_mono; [eapply getIframeUrl_not_found; eassumption|]. cbv beta.
    intros r s1 d1 ->. wp_steps. reflexivity.
Qed.

Lemma target_resolution_witness :
  fst (@keepAlive_resolve Lab.platform Lab.space_and_direct Lab.all_up 1
         (Lab.ready Lab.space_and_direct)) =
    Done (Some "https://u-s.example/?__sign=tok") /\
  fst (@keepAlive_resolve Lab.platform Lab.space_and_direct Lab.no_frame 1
         (Lab.ready Lab.space_and_direct)) =
    Done (Some "https://u-s.example/app").
Proof.
  split.
  - apply (@target_resolution Lab.platform Lab.space_and_direct Lab.all_up 1
             (Lab.ready Lab.space_and_direct)
             (Lab.plain 200 Lab.wrapper_page 100 20) Lab.wrapper_page
             eq_refl eq_refl eq_refl) with (cookieHeader := "token=t0") (rest := []);
      vm_compute; reflexivity.
  - apply (@target_resolution Lab.platform Lab.space_and_direct Lab.no_frame 1
             (Lab.ready Lab.space_and_direct)
             (Lab.plain 200 Lab.bare_page 100 20) Lab.bare_page
             eq_refl eq_refl eq_refl).
    + right. left. vm_compute. reflexivity.
    + reflexivity.
Defined.

(** C4, as the specification has it, fails.  A wrapper page that answers
    [404] with a body that does carry the frame and its [src]: resolution
    does not return that [src] but the configured direct URL.  And a
    wrapper page that answers [200] with a frame whose [src] attribute is
    there but empty: resolution returns the direct URL, not the [src]. *)
Lemma frame_is_not_always_the_target :
  ( Lab.wrapper_404 Wrapper 0%nat = Responds (Lab.plain 404 Lab.wrapper_page 100 20) /\
    @select_space_iframe Lab.platform Lab.wrapper_page =
      inr [Some "https://u-s.example/?__sign=tok"] /\
    fst (@keepAlive_resolve Lab.platform Lab.space_and_direct Lab.wrapper_404 1
           (Lab.ready Lab.space_and_direct)) =
      Done (Some "https://u-s.example/app") ) /\
  ( Lab.wrapper_empty_src Wrapper 0%nat =
      Responds (Lab.plain 200 Lab.empty_src_page 100 20) /\
    @select_space_iframe Lab.platform Lab.empty_src_page = inr [Some ""] /\
    fst (@keepAlive_resolve Lab.platform Lab.space_and_direct Lab.wrapper_empty_src 1
           (Lab.ready Lab.space_and_direct)) =
      Done (Some "https://u-s.example/app") ).
Proof. vm_compute. repeat split; reflexivity. Qed.


(** ** The cookie store *)

Lemma update_counts_app (d1 d2 : list (Z * Event)) :
  update_counts (d1 ++ d2) = (update_counts d1 ++ update_counts d2)%list.
Proof. unfold update_counts. apply omap_app. Qed.

Section CookieStore.
Context `{Platform}.

Lemma updateCookies_loop_sem domain hs count s entry :
  cookieStorage s !! domain = Some entry ->
  wp (updateCookies_loop domain hs count) s
     (fun r s' d =>
        r = Done (count + Z.of_nat (length (updates_of hs))) /\
        cookieStorage s' = <[domain := apply_updates entry hs]> (cookieStorage s) /\
        warnings d = List.map SetCookieParseFailed (errors_of hs) /\
        update_counts d = []).
Proof.
  revert count s entry. induction hs as [|h hs IH]; intros count s entry Hentry.
  - simpl. wp_steps. rewrite Z.add_0_r. repeat split; auto.
    simpl. symmetry. apply insert_id. exact Hentry.
  - cbn [updateCookies_loop].
    change (apply_updates entry (h :: hs))
      with (apply_updates (match directive_update h with
                           | Some (name, value) => <[name := value]> entry
                           | None => entry
                           end) hs).
    change (updates_of (h :: hs))
      with (match directive_update h with
            | Some u => u :: updates_of hs
            | None => updates_of hs
            end).
    change (errors_of (h :: hs))
      with (match directive_error h with
            | Some e => e :: errors_of hs
            | None => errors_of hs
            end).
    unfold directive_update, directive_error.
    wp_steps.
    destruct (parseSetCookie h) as [e|parsed]; wp_steps.
    { (* the directive does not parse *)
      eapply wp_mono; [apply (IH count _ entry); exact Hentry|]. cbv beta.
      intros r s' d (-> & Hs & Hw & Hc). repeat split; auto;
        rewrite ?warnings_app, ?update_counts_app, ?Hw, ?Hc; reflexivity. }
    destruct (sc_value parsed) as [value|];
      [destruct (truthy (sc_name parsed) && truthy value)|]; wp_steps.
    + (* an update *)
      rewrite Hentry. simpl default.
      destruct (decide _); wp_steps;
        (eapply wp_mono;
           [apply (IH (count + 1) _ (<[sc_name parsed := value]> entry));
            simpl; apply lookup_insert_eq|];
         cbv beta; intros r s' d (-> & Hs & Hw & Hc);
         simpl in Hs; rewrite insert_insert_eq in Hs;
         repeat split;
           [f_equal; simpl length; lia | exact Hs | simpl; exact Hw | simpl; exact Hc]).
    + eapply wp_mono; [apply (IH count _ entry); exact Hentry|]. cbv beta.
      intros r s' d (-> & Hs & Hw & Hc). repeat split; auto.
    + eapply wp_mono; [apply (IH count _ entry); exact Hentry|]. cbv beta.
      intros r s' d (-> & Hs & Hw & Hc). repeat split; auto.
Qed.

(** What [updateCookies] does to the jar and to the console. *)
Lemma updateCookies_sem url hs s :
  truthy (extractDomain url) = true ->
  wp (updateCookies url hs) s
     (fun r s' d =>
        r = Done tt /\
        cookieStorage s' =
          <[extractDomain url :=
              apply_updates (default ∅ (cookieStorage s !! extractDomain url)) hs]>
            (cookieStorage s) /\
        warnings d = List.map SetCookieParseFailed (errors_of hs) /\
        update_counts d =
          (if 0 <? Z.of_nat (length (updates_of hs))
           then [Z.of_nat (length (updates_of hs))] else [])).
Proof.
  intros Hdomain. unfold updateCookies. rewrite Hdomain. simpl negb. cbv iota.
  wp_steps.
  destruct (cookieStorage s !! extractDomain url) as [entry|] eqn:Hentry; wp_steps.
  - wp_use (updateCookies_loop_sem (extractDomain url) hs 0 s entry Hentry).
    intros r s' d (-> & Hs & Hw & Hc). rewrite Z.add_0_l.
    destruct (0 <? Z.of_nat (length (updates_of hs))); wp_steps;
      rewrite ?warnings_app, ?update_counts_app, Hw, Hc; simpl;
      rewrite ?app_nil_r; repeat split; auto.
  - wp_use (updateCookies_loop_sem (extractDomain url) hs 0
              (set_storage (<[extractDomain url := ∅]> (cookieStorage s)) s) ∅).
    { simpl. apply lookup_insert_eq. }
    intros r s' d (-> & Hs & Hw & Hc). rewrite Z.add_0_l.
    simpl in Hs. rewrite insert_insert_eq in Hs.
    destruct (0 <? Z.of_nat (length (updates_of hs))); wp_steps;
      rewrite ?warnings_app, ?update_counts_app, Hw, Hc; simpl;
      rewrite ?app_nil_r; repeat split; auto.
Qed.
End CookieStore.

Section BatchLines.
Context `{Platform}.

Lemma updates_of_cons h hs :
  updates_of (h :: hs) =
  match directive_update h with
  | Some u => u :: updates_of hs
  | None => updates_of hs
  end.
Proof. reflexivity. Qed.

Lemma errors_of_cons h hs :
  errors_of (h :: hs) =
  match directive_error h with
  | Some e => e :: errors_of hs
  | None => errors_of hs
  end.
Proof. reflexivity. Qed.

Lemma batch_line_later h hs e : batch_line hs e -> batch_line (h :: hs) e.
Proof.
  unfold batch_line. rewrite updates_of_cons, errors_of_cons.
  destruct e as [| | | | | | | | |level msg]; auto.
  destruct level, msg; auto; intros Hin;
    destruct (directive_update h), (directive_error h); simpl; auto.
Qed.

Lemma batch_lines_later h hs (d : list (Z * Event)) :
  Forall (fun te => batch_line hs (snd te)) d ->
  Forall (fun te => batch_line (h :: hs) (snd te)) d.
Proof.
  intros Hd. eapply Forall_impl; [exact Hd|]. intros te. apply batch_line_later.
Qed.

Lemma updateCookies_loop_lines domain hs count s :
  wp (updateCookies_loop domain hs count) s
     (fun r s' d => Forall (fun te => batch_line hs (snd te)) d).
Proof.
  revert count s. induction hs as [|h hs IH]; intros count s.
  - simpl. wp_steps. constructor.
  - cbn [updateCookies_loop]. wp_steps.
    destruct (parseSetCookie h) as [e|parsed] eqn:Hparse; wp_steps.
    { eapply wp_mono; [apply IH|]. cbv beta. intros r s' d Hd.
      simpl app. constructor; [|apply batch_lines_later, Hd].
      unfold batch_line. cbn [snd]. rewrite errors_of_cons.
      unfold directive_error. rewrite Hparse. left. reflexivity. }
    destruct (sc_value parsed) as [value|] eqn:Hvalue;
      [destruct (truthy (sc_name parsed) && truthy value) eqn:Htruthy|]; wp_steps.
    + destruct (decide _); wp_steps;
        (eapply wp_mono; [apply IH|]; cbv beta; intros r s' d Hd; simpl app).
      * apply batch_lines_later, Hd.
      * constructor; [|apply batch_lines_later, Hd].
        unfold batch_line. cbn [snd]. rewrite updates_of_cons.
        unfold directive_update. rewrite Hparse, Hvalue, Htruthy. left. reflexivity.
    + eapply wp_mono; [apply IH|]. cbv beta. intros r s' d Hd.
      simpl app. apply batch_lines_later, Hd.
    + eapply wp_mono; [apply IH|]. cbv beta. intros r s' d Hd.
      simpl app. apply batch_lines_later, Hd.
Qed.

Lemma updateCookies_lines url hs s :
  truthy (extractDomain url) = true ->
  wp (updateCookies url hs) s
     (fun r s' d => Forall (fun te => batch_line hs (snd te)) d).
Proof.
  intros Hdomain. unfold updateCookies. rewrite Hdomain. simpl negb. cbv iota.
  wp_steps.
  destruct (cookieStorage s !! extractDomain url); wp_steps;
    (wp_use updateCookies_loop_lines; intros r s' d Hd;
     destruct r as [c|e]; [|simpl app; rewrite ?app_nil_r; exact Hd];
     destruct (0 <? c); wp_steps; simpl app;
     rewrite ?app_nil_r; try exact Hd;
     apply Forall_app; split; [exact Hd|];
     repeat constructor).
Qed.
End BatchLines.







(** ** The [cookie] package on examples *)

Example parseCookie_example :
  Cookie.parseCookie "a=1; b=x%20y; c; d = q ;a=2" =
  <["d" := "q"]> (<["b" := "x y"]> {["a" := "1"]}).
Proof. vm_compute. reflexivity. Qed.

Example stringifyCookie_example :
  Cookie.stringify_entries [("a", "1"); ("b", "x y"); ("c", "é")] =
  inr "a=1; b=x%20y; c=%C3%A9".
Proof. vm_compute. reflexivity. Qed.

Example stringifyCookie_refuses :
  Cookie.stringify_entries [("a", "1"); ("b c", "2")] =
  inl (Cookie.TypeError "cookie name is invalid: b c").
Proof. vm_compute. reflexivity. Qed.

Example parseSetCookie_example :
  Cookie.parseSetCookie "spaces-jwt=abc; Path=/; HttpOnly" =
  mkSetCookie "spaces-jwt" (Some "abc").
Proof. vm_compute. reflexivity. Qed.

Example parseSetCookie_nameless :
  Cookie.parseSetCookie "garbage" = mkSetCookie "" (Some "garbage").
Proof. vm_compute. reflexivity. Qed.

Example decode_keeps_what_does_not_decode :
  Cookie.decode "100%" = "100%" /\ Cookie.decode "%E9" = "%E9" /\
  Cookie.decode "%C3%A9" = "é".
Proof. vm_compute. repeat split; reflexivity. Qed.


(** ** The cookie header round trip *)

Module CookieFacts.
Import Cookie.

(** *** Bytes *)

Ltac each_byte c :=
  destruct c as [[] [] [] [] [] [] [] []]; vm_compute; try reflexivity; try discriminate.

Lemma name_char_plain c :
  name_char c = true ->
  Ascii.eqb c ";" = false /\ Ascii.eqb c "=" = false /\ is_ws c = false.
Proof. each_byte c; intros _; repeat split; reflexivity. Qed.

Lemma value_char_plain c :
  value_char c = true -> Ascii.eqb c ";" = false /\ is_ws c = false.
Proof. each_byte c; intros _; repeat split; reflexivity. Qed.

Lemma unreserved_value_char c : unreserved c = true -> value_char c = true.
Proof. each_byte c. Qed.

Lemma unreserved_not_percent c : unreserved c = true -> Ascii.eqb c "%" = false.
Proof. each_byte c. Qed.

Lemma hex_digits_value_char c :
  value_char (hex_digit (code c / 16)) = true /\
  value_char (hex_digit (code c mod 16)) = true.
Proof. each_byte c; split; reflexivity. Qed.

Lemma hex_digits_decode c :
  hex_value (hex_digit (code c / 16)) = Some (code c / 16)%N /\
  hex_value (hex_digit (code c mod 16)) = Some (code c mod 16)%N /\
  ascii_of_N (16 * (code c / 16) + code c mod 16) = c.
Proof. each_byte c; repeat split; reflexivity. Qed.

(** *** Percent-encoding *)

Lemma percent_decode_encode v : percent_decode (percent_encode v) = Some v.
Proof.
  induction v as [|c v IH]; [reflexivity|].
  cbn [percent_encode]. destruct (unreserved c) eqn:Hc.
  - cbn [percent_decode]. rewrite (unreserved_not_percent c Hc), IH. reflexivity.
  - destruct (hex_digits_decode c) as (Hh & Hl & Hb).
    cbn [percent_decode]. change (Ascii.eqb "%" "%") with true. cbv iota.
    rewrite Hh, Hl, IH, Hb. reflexivity.
Qed.

Lemma percent_encode_value_chars v : every value_char (percent_encode v) = true.
Proof.
  induction v as [|c v IH]; [reflexivity|].
  cbn [percent_encode]. destruct (unreserved c) eqn:Hc; cbn [every].
  - rewrite (unreserved_value_char c Hc), IH. reflexivity.
  - destruct (hex_digits_value_char c) as [Hh Hl]. rewrite Hh, Hl, IH. reflexivity.
Qed.

Lemma includes_percent_cons c s :
  includes (String c s) "%" = Ascii.eqb c "%" || includes s "%".
Proof.
  cbn [includes String.prefix].
  destruct (Ascii.ascii_dec "%" c) as [<-|Hne]; [destruct s; reflexivity|].
  replace (Ascii.eqb c "%") with false; [reflexivity|].
  symmetry. apply Ascii.eqb_neq. congruence.
Qed.

Lemma percent_encode_plain v :
  includes (percent_encode v) "%" = false -> percent_encode v = v.
Proof.
  induction v as [|c v IH]; [reflexivity|].
  cbn [percent_encode]. destruct (unreserved c) eqn:Hc.
  - rewrite includes_percent_cons. intros Hi.
    apply orb_false_iff in Hi as [_ Hi]. rewrite (IH Hi). reflexivity.
  - rewrite includes_percent_cons. discriminate.
Qed.

(** Decoding what [encodeURIComponent] wrote gives the text back. *)
Lemma decode_encode v :
  utf8_valid v = true -> decode (percent_encode v) = v.
Proof.
  intros Hv. unfold decode.
  destruct (includes (percent_encode v) "%") eqn:Hi; simpl negb; cbv iota.
  - unfold decodeURIComponent. rewrite percent_decode_encode, Hv. reflexivity.
  - apply percent_encode_plain. exact Hi.
Qed.

(** *** Cutting *)

Lemma every_app p a b : every p (a +:+ b) = every p a && every p b.
Proof.
  induction a as [|c a IH]; [reflexivity|].
  change (String c a +:+ b) with (String c (a +:+ b)).
  cbn [every]. rewrite IH. apply andb_assoc.
Qed.

Lemma every_impl (p q : ascii -> bool) s :
  (forall c, p c = true -> q c = true) -> every p s = true -> every q s = true.
Proof.
  intros Hpq. induction s as [|c s IH]; [reflexivity|]. cbn [every].
  intros Hs. apply andb_true_iff in Hs as [Hc Hs].
  rewrite (Hpq c Hc), (IH Hs). reflexivity.
Qed.

Lemma break_at_found c a b :
  every (differs c) a = true -> break_at c (a +:+ String c b) = (a, Some b).
Proof.
  induction a as [|d a IH]; intros Ha.
  - change (EmptyString +:+ String c b) with (String c b).
    cbn [break_at]. rewrite Ascii.eqb_refl. reflexivity.
  - change (String d a +:+ String c b) with (String d (a +:+ String c b)).
    cbn [every] in Ha. apply andb_true_iff in Ha as [Hd Ha].
    cbn [break_at]. unfold differs in Hd. apply negb_true_iff in Hd.
    rewrite Hd, (IH Ha). reflexivity.
Qed.

Lemma split_on_whole c a : every (differs c) a = true -> split_on c a = [a].
Proof.
  induction a as [|d a IH]; intros Ha; [reflexivity|].
  cbn [every] in Ha. apply andb_true_iff in Ha as [Hd Ha].
  cbn [split_on]. unfold differs in Hd. apply negb_true_iff in Hd.
  rewrite Hd, (IH Ha). reflexivity.
Qed.

Lemma split_on_found c a b :
  every (differs c) a = true ->
  split_on c (a +:+ String c b) = a :: split_on c b.
Proof.
  induction a as [|d a IH]; intros Ha.
  - change (EmptyString +:+ String c b) with (String c b).
    cbn [split_on]. rewrite Ascii.eqb_refl. reflexivity.
  - change (String d a +:+ String c b) with (String d (a +:+ String c b)).
    cbn [every] in Ha. apply andb_true_iff in Ha as [Hd Ha].
    cbn [split_on]. unfold differs in Hd. apply negb_true_iff in Hd.
    rewrite Hd, (IH Ha). reflexivity.
Qed.

Lemma trim_start_solid s : every solid s = true -> trim_start s = s.
Proof.
  destruct s as [|c s]; [reflexivity|]. cbn [every trim_start].
  intros Hs. apply andb_true_iff in Hs as [Hc _].
  unfold solid in Hc. apply negb_true_iff in Hc. rewrite Hc. reflexivity.
Qed.

Lemma trim_end_solid s : every solid s = true -> trim_end s = s.
Proof.
  induction s as [|c s IH]; [reflexivity|]. cbn [every trim_end].
  intros Hs. apply andb_true_iff in Hs as [Hc Hs].
  rewrite (IH Hs). unfold solid in Hc. apply negb_true_iff in Hc.
  destruct s; [rewrite Hc|]; reflexivity.
Qed.

Lemma valueSlice_solid s : every solid s = true -> valueSlice s = s.
Proof.
  intros Hs. unfold valueSlice. rewrite (trim_start_solid s Hs).
  apply trim_end_solid. exact Hs.
Qed.

Lemma valueSlice_space s :
  every solid s = true -> valueSlice (String " " s) = s.
Proof. intros Hs. unfold valueSlice. cbn [trim_start is_ws]. simpl. apply valueSlice_solid, Hs. Qed.

(** *** Writing and reading back *)

Lemma stringify_pairs_ok entries :
  forallb acceptable entries = true ->
  stringify_pairs entries = inr (List.map cookie_string entries).
Proof.
  induction entries as [|[name val] entries IH]; [reflexivity|].
  cbn [forallb]. intros Hok. apply andb_true_iff in Hok as [Hentry Hok].
  unfold acceptable in Hentry. cbn [fst snd] in Hentry.
  apply andb_true_iff in Hentry as [Hname Hval].
  cbn [stringify_pairs stringify_pair]. rewrite Hname. simpl negb. cbv iota.
  unfold encodeURIComponent. rewrite Hval.
  unfold cookieValue_ok. rewrite percent_encode_value_chars. simpl negb. cbv iota.
  rewrite (IH Hok). reflexivity.
Qed.

Lemma name_solid name :
  cookieName_ok name = true ->
  truthy name = true /\ every (differs "=") name = true /\
  every (differs ";") name = true /\ every solid name = true.
Proof.
  unfold cookieName_ok. intros Hok. apply andb_true_iff in Hok as [Ht He].
  split; [exact Ht|]. repeat split.
  - apply (every_impl name_char); [|exact He]. intros c Hc.
    destruct (name_char_plain c Hc) as (_ & Heq & _). unfold differs. rewrite Heq. reflexivity.
  - apply (every_impl name_char); [|exact He]. intros c Hc.
    destruct (name_char_plain c Hc) as (Hsc & _ & _). unfold differs. rewrite Hsc. reflexivity.
  - apply (every_impl name_char); [|exact He]. intros c Hc.
    destruct (name_char_plain c Hc) as (_ & _ & Hws). unfold solid. rewrite Hws. reflexivity.
Qed.

Lemma encoded_solid val :
  every (differs ";") (percent_encode val) = true /\
  every solid (percent_encode val) = true.
Proof.
  split; apply (every_impl value_char); try apply percent_encode_value_chars;
    intros c Hc; destruct (value_char_plain c Hc) as [Hsc Hws].
  - unfold differs. rewrite Hsc. reflexivity.
  - unfold solid. rewrite Hws. reflexivity.
Qed.

Lemma cookie_string_no_semicolon entry :
  acceptable entry = true -> every (differs ";") (cookie_string entry) = true.
Proof.
  destruct entry as [name val]. unfold acceptable, cookie_string. cbn [fst snd].
  intros Hok. apply andb_true_iff in Hok as [Hname _].
  destruct (name_solid name Hname) as (_ & _ & Hsc & _).
  destruct (encoded_solid val) as [Hev _].
  rewrite every_app, Hsc.
  change ("=" +:+ percent_encode val) with (String "=" (percent_encode val)).
  cbn [every]. rewrite Hev. reflexivity.
Qed.

(** Reading back one piece of the header, with or without the space
    that follows a semicolon. *)
Lemma parse_pair_cookie_string obj entry :
  acceptable entry = true ->
  parse_pair obj (cookie_string entry) = first_wins obj entry /\
  parse_pair obj (String " " (cookie_string entry)) = first_wins obj entry.
Proof.
  destruct entry as [name val]. unfold acceptable, cookie_string, first_wins.
  cbn [fst snd]. intros Hok. apply andb_true_iff in Hok as [Hname Hval].
  destruct (name_solid name Hname) as (_ & Heq & _ & Hsolid).
  destruct (encoded_solid val) as [_ Hev].
  change ("=" +:+ percent_encode val) with (String "=" (percent_encode val)).
  split; unfold parse_pair.
  - rewrite (break_at_found "=" name _ Heq).
    rewrite (valueSlice_solid name Hsolid), (valueSlice_solid _ Hev),
      (decode_encode val Hval).
    reflexivity.
  - change (String " " (name +:+ String "=" (percent_encode val)))
      with (String " " name +:+ String "=" (percent_encode val)).
    rewrite (break_at_found "=" (String " " name)); [|cbn [every]; rewrite Heq; reflexivity].
    rewrite (valueSlice_space name Hsolid), (valueSlice_solid _ Hev),
      (decode_encode val Hval).
    reflexivity.
Qed.

Lemma join_head c cookieString rest :
  String c (join (cookieString :: rest)) = join (String c cookieString :: rest).
Proof. destruct rest; reflexivity. Qed.

Lemma split_join cookieString rest :
  every (differs ";") cookieString = true ->
  Forall (fun x => every (differs ";") x = true) rest ->
  split_on ";" (join (cookieString :: rest)) =
  cookieString :: List.map (String " ") rest.
Proof.
  intros Hfirst Hrest. revert cookieString Hfirst.
  induction Hrest as [|next rest Hnext Hrest IH]; intros cookieString Hfirst.
  - apply split_on_whole. exact Hfirst.
  - change (join (cookieString :: next :: rest))
      with (cookieString +:+ String ";" (String " " (join (next :: rest)))).
    rewrite (split_on_found ";" _ _ Hfirst), join_head, IH; [reflexivity|].
    cbn [every]. rewrite Hnext. reflexivity.
Qed.

Lemma fold_first_wins entries obj key :
  fold_left first_wins entries obj !! key =
  match obj !! key with
  | Some value => Some value
  | None => (list_to_map entries : gmap string string) !! key
  end.
Proof.
  revert obj. induction entries as [|[name val] entries IH]; intros obj.
  - simpl. rewrite lookup_empty. destruct (obj !! key); reflexivity.
  - cbn [fold_left]. rewrite IH, list_to_map_cons. unfold first_wins. cbn [fst snd].
    destruct (decide (name = key)) as [->|Hne].
    + destruct (obj !! key) as [old|] eqn:Hold; [rewrite Hold; reflexivity|].
      rewrite !lookup_insert_eq. reflexivity.
    + rewrite (lookup_insert_ne (list_to_map entries) name key) by exact Hne.
      destruct (obj !! name); [reflexivity|].
      rewrite lookup_insert_ne by exact Hne. reflexivity.
Qed.

Lemma fold_parse_pairs entries obj :
  forallb acceptable entries = true ->
  fold_left parse_pair (List.map (String " ") (List.map cookie_string entries)) obj =
  fold_left first_wins entries obj.
Proof.
  revert obj. induction entries as [|entry entries IH]; intros obj Hok; [reflexivity|].
  cbn [forallb] in Hok. apply andb_true_iff in Hok as [Hentry Hok].
  cbn [List.map fold_left].
  destruct (parse_pair_cookie_string obj entry Hentry) as [_ ->].
  apply IH. exact Hok.
Qed.

(** The header written for a list of acceptable entries reads back as
    the map of those entries. *)
Lemma parse_stringify entries :
  forallb acceptable entries = true ->
  exists header,
    stringify_entries entries = inr header /\
    parseCookie header = list_to_map entries.
Proof.
  intros Hok. exists (join (List.map cookie_string entries)).
  unfold stringify_entries. rewrite (stringify_pairs_ok entries Hok).
  split; [reflexivity|].
  destruct entries as [|entry entries]; [reflexivity|].
  cbn [forallb] in Hok. apply andb_true_iff in Hok as [Hentry Hok].
  unfold parseCookie.
  assert (Hlen : (String.length (join (List.map cookie_string (entry :: entries))) <? 2)%nat
                 = false).
  { cbn [List.map]. generalize (List.map cookie_string entries). intros rest.
    destruct entry as [name val].
    unfold acceptable in Hentry. cbn [fst snd] in Hentry.
    apply andb_true_iff in Hentry as [Hname _].
    destruct (name_solid name Hname) as (Ht & _).
    destruct name as [|c name]; [discriminate|].
    unfold cookie_string. cbn [fst snd].
    destruct rest; cbn [join]; destruct name; reflexivity. }
  rewrite Hlen. cbn [List.map].
  rewrite split_join.
  - cbn [fold_left].
    destruct (parse_pair_cookie_string ∅ entry Hentry) as [-> _].
    rewrite (fold_parse_pairs entries _ Hok).
    apply map_eq. intros key.
    change (fold_left first_wins entries (first_wins ∅ entry))
      with (fold_left first_wins (entry :: entries) ∅).
    rewrite fold_first_wins, lookup_empty. reflexivity.
  - apply cookie_string_no_semicolon. exact Hentry.
  - apply Forall_forall. intros x Hx. apply list_elem_of_In, in_map_iff in Hx.
    destruct Hx as (e & <- & Hin). apply cookie_string_no_semicolon.
    rewrite forallb_forall in Hok. apply Hok. exact Hin.
Qed.
End CookieFacts.

Lemma acceptable_entries (entry : gmap string string) (entries : list (string * string)) :
  (forall name value, entry !! name = Some value ->
                      Cookie.acceptable (name, value) = true) ->
  entries ≡ₚ map_to_list entry ->
  forallb Cookie.acceptable entries = true /\ list_to_map entries = entry.
Proof.
  intros Hok Hperm. split.
  - apply forallb_forall. intros [name value] Hin.
    apply Hok, elem_of_map_to_list. rewrite <- Hperm. apply list_elem_of_In. exact Hin.
  - transitivity (list_to_map (map_to_list entry) : gmap string string);
      [|apply list_to_map_to_list].
    symmetry. apply list_to_map_proper; [apply NoDup_fst_map_to_list|].
    symmetry. exact Hperm.
Qed.

Lemma omap_id_fmap_Some (m : gmap string string) : omap id (Some <$> m) = m.
Proof.
  apply map_eq. intros key. rewrite lookup_omap, lookup_fmap.
  destruct (m !! key); reflexivity.
Qed.

(** C9, as the code has it: a jar entry whose names are names the
    [cookie] package accepts (not empty, made of the characters [!] to
    [~] other than [;] and [=]) and whose values are well-formed text
    round-trips.  Written as a header in whatever order, it reads back as
    the same name-to-value map; with the functions of the package,
    whatever the order in which [stringifyCookie] visits the keys,
    [serializeCookie] returns such a header, and seeding [initCookie]
    with it gives the entry back. *)
Theorem cookie_header_round_trip `{Platform} (url : string) (s : State)
    (entry : gmap string string) :
  (forall obj, exists entries,
     entries ≡ₚ map_to_list obj /\
     stringifyCookie obj = Cookie.stringify_entries entries) ->
  (forall str, parseCookie str = inr (Some <$> Cookie.parseCookie str)) ->
  truthy url = true ->
  truthy (extractDomain url) = true ->
  cookieStorage s !! extractDomain url = Some entry ->
  (forall name value, entry !! name = Some value ->
                      Cookie.acceptable (name, value) = true) ->
  (forall entries,
     entries ≡ₚ map_to_list entry ->
     exists header,
       Cookie.stringify_entries entries = inr header /\
       Cookie.parseCookie header = entry) /\
  exists header,
    fst (serializeCookie url s) = Done header /\
    Cookie.parseCookie header = entry /\
    forall CONFIG,
      spaceUrl CONFIG = "" -> targetUrl CONFIG = url -> cookie CONFIG = header ->
      initCookie CONFIG ∅ = Some {[extractDomain url := entry]}.
Proof.
  intros Hstringify Hparse Hurl Hdomain Hentry Hok.
  assert (Hany : forall entries,
            entries ≡ₚ map_to_list entry ->
            exists header,
              Cookie.stringify_entries entries = inr header /\
              Cookie.parseCookie header = entry).
  { intros entries Hperm.
    destruct (acceptable_entries entry entries Hok Hperm) as [Hall Hmap].
    destruct (CookieFacts.parse_stringify entries Hall) as (header & Hs & Hp).
    exists header. split; [exact Hs|]. rewrite Hp. exact Hmap. }
  split; [exact Hany|].
  destruct (Hstringify entry) as (entries & Hperm & Heq).
  destruct (Hany entries Hperm) as (header & Hs & Hp).
  exists header. split; [|split; [exact Hp|]].
  - destruct (serializeCookie_result url s) as (d & _ & Hr & _).
    rewrite Hr. unfold cookie_header_for. rewrite Hdomain, Hentry, Heq, Hs.
    reflexivity.
  - intros CONFIG Hspace Htarget Hcookie. unfold initCookie.
    rewrite Hspace, Htarget, Hcookie, Hparse, Hp, omap_id_fmap_Some.
    simpl. rewrite Hurl. simpl. rewrite Hdomain. simpl.
    rewrite insert_empty. reflexivity.
Qed.

Lemma cookie_header_round_trip_witness :
  exists header,
    fst (@serializeCookie Lab.platform "https://u-s.example/app"
           (Lab.ready Lab.direct_only)) = Done header /\
    Cookie.parseCookie header = {["token" := "t0"]}.
Proof.
  destruct (@cookie_header_round_trip Lab.platform "https://u-s.example/app"
              (Lab.ready Lab.direct_only) {["token" := "t0"]})
    as [_ (header & Hs & Hp & _)].
  - intros obj. exists (map_to_list obj). split; reflexivity.
  - intros str. reflexivity.
  - reflexivity.
  - reflexivity.
  - vm_compute. reflexivity.
  - intros name value Hl. apply lookup_singleton_Some in Hl as [<- <-]. reflexivity.
  - exists header. split; [exact Hs|exact Hp].
Defined.

(** C9, as the specification has it, fails: the seed cookie
    [session id=c] gives the jar entry [{"session id": "c"}], and that
    entry cannot be serialized at all: [serializeCookie] throws, because
    the package refuses a name with a space. *)
Lemma cookie_name_with_space :
  let CONFIG := mkConfig "" "https://u-s.example/app" "session id=c" 30000 [200] 3 None in
  cookieStorage (Lab.ready CONFIG) !! "u-s.example" = Some {["session id" := "c"]} /\
  fst (@serializeCookie Lab.platform "https://u-s.example/app" (Lab.ready CONFIG)) =
    Thrown (Cookie.TypeError "cookie name is invalid: session id").
Proof. vm_compute. split; reflexivity. Qed.


(** ** The cookie jar: seeding and updating *)






Section Batches.
Context `{Platform}.

Lemma apply_updates_cons entry h hs :
  apply_updates entry (h :: hs) =
  apply_updates (match directive_update h with
                 | Some (name, value) => <[name := value]> entry
                 | None => entry
                 end) hs.
Proof. reflexivity. Qed.

(** The entry after a batch, cookie by cookie. *)
Lemma apply_updates_lookup entry hs name :
  apply_updates entry hs !! name =
  match latest name (updates_of hs) with
  | Some value => Some value
  | None => entry !! name
  end.
Proof.
  revert entry. induction hs as [|h hs IH]; intros entry; [reflexivity|].
  rewrite apply_updates_cons, IH, updates_of_cons.
  destruct (directive_update h) as [[n v]|]; [|reflexivity].
  unfold latest. cbn [omap list_omap fst snd].
  destruct (decide (n = name)) as [->|Hne].
  - rewrite last_cons. fold (omap (fun u : string * string =>
              if decide (fst u = name) then Some (snd u) else None) (updates_of hs)).
    destruct (last _); [reflexivity|]. apply lookup_insert_eq.
  - rewrite lookup_insert_ne by exact Hne. reflexivity.
Qed.

Lemma latest_In name updates value :
  latest name updates = Some value -> In (name, value) updates.
Proof.
  unfold latest. induction updates as [|[n v] updates IH]; [discriminate|].
  cbn [omap list_omap fst snd].
  destruct (decide (n = name)) as [->|Hne].
  - rewrite last_cons.
    fold (omap (fun u : string * string =>
              if decide (fst u = name) then Some (snd u) else None) updates).
    destruct (last _) eqn:Hlast.
    + intros Heq. right. apply IH. exact Heq.
    + intros [= ->]. left. reflexivity.
  - intros Heq. right. apply IH. exact Heq.
Qed.

Lemma updates_of_truthy name value hs :
  In (name, value) (updates_of hs) ->
  truthy name = true /\ truthy value = true.
Proof.
  induction hs as [|h hs IH]; [intros []|].
  rewrite updates_of_cons. unfold directive_update at 1.
  destruct (parseSetCookie h) as [e|parsed]; [exact IH|].
  destruct (sc_value parsed) as [v|]; [|exact IH].
  destruct (truthy (sc_name parsed) && truthy v) eqn:Hboth; [|exact IH].
  intros [[= <- <-]|Hin]; [|exact (IH Hin)].
  apply andb_true_iff in Hboth. exact Hboth.
Qed.

(** What a batch does to the jar, for every URL. *)
Lemma updateCookies_jar url hs s :
  fst (updateCookies url hs s) = Done tt /\
  cookieStorage (snd (updateCookies url hs s)) =
    jar_after_batch url hs (cookieStorage s).
Proof.
  unfold jar_after_batch. destruct (truthy (extractDomain url)) eqn:Hhost.
  - destruct (updateCookies_sem url hs s Hhost) as (d & _ & Hr & Hs & _). auto.
  - unfold updateCookies. rewrite Hhost. split; reflexivity.
Qed.
End Batches.



(** X3: batches compose.  Receiving the directives of two batches from
    the same URL one batch after the other leaves the jar that receiving
    them as one batch leaves: how a server spreads its directives over
    responses, or over the elements of one header, does not matter. *)
Theorem batches_compose `{Platform} (url : string) (hs1 hs2 : list string)
    (s : State) :
  cookieStorage (snd (updateCookies url hs2 (snd (updateCookies url hs1 s)))) =
  cookieStorage (snd (updateCookies url (hs1 ++ hs2) s)).
Proof.
  destruct (updateCookies_jar url hs2 (snd (updateCookies url hs1 s))) as [_ ->].
  destruct (updateCookies_jar url hs1 s) as [_ ->].
  destruct (updateCookies_jar url (hs1 ++ hs2) s) as [_ ->].
  unfold jar_after_batch. destruct (truthy (extractDomain url)); [|reflexivity].
  rewrite lookup_insert_eq, insert_insert_eq. cbn [default from_option id].
  unfold apply_updates. rewrite fold_left_app. reflexivity.
Qed.

(** X4: a batch is idempotent on the jar.  Receiving the same directives
    a second time, as happens when every poll is answered with the same
    [Set-Cookie] headers, changes nothing in the jar. *)
Theorem batch_is_idempotent `{Platform} (url : string) (hs : list string)
    (s : State) :
  cookieStorage (snd (updateCookies url hs (snd (updateCookies url hs s)))) =
  cookieStorage (snd (updateCookies url hs s)).
Proof.
  destruct (updateCookies_jar url hs (snd (updateCookies url hs s))) as [_ ->].
  destruct (updateCookies_jar url hs s) as [_ ->].
  unfold jar_after_batch. destruct (truthy (extractDomain url)); [|reflexivity].
  rewrite lookup_insert_eq, insert_insert_eq. cbn [default from_option id]. f_equal.
  apply map_eq. intros name. rewrite !apply_updates_lookup.
  destruct (latest name (updates_of hs)); reflexivity.
Qed.

(** A cookie of the jar after a batch. *)
Lemma jar_after_batch_cookie `{Platform} url hs storage origin name :
  truthy (extractDomain url) = true ->
  jar_cookie (jar_after_batch url hs storage) origin name =
  if decide (origin = extractDomain url) then
    match latest name (updates_of hs) with
    | Some value => Some value
    | None => jar_cookie storage origin name
    end
  else jar_cookie storage origin name.
Proof.
  intros Hhost. unfold jar_after_batch, jar_cookie. rewrite Hhost.
  destruct (decide (origin = extractDomain url)) as [->|Hne].
  - rewrite lookup_insert_eq. cbn [mbind option_bind].
    rewrite apply_updates_lookup.
    destruct (latest name (updates_of hs)); [reflexivity|].
    destruct (storage !! extractDomain url); reflexivity.
  - rewrite lookup_insert_ne by congruence. reflexivity.
Qed.

Lemma jar_grows_refl st : jar_grows st st.
Proof. intros origin name Hsome. exact Hsome. Qed.

Lemma jar_grows_trans st1 st2 st3 :
  jar_grows st1 st2 -> jar_grows st2 st3 -> jar_grows st1 st3.
Proof. intros H12 H23 origin name Hsome. apply H23, H12, Hsome. Qed.

Lemma jar_grows_batch `{Platform} url hs st :
  jar_grows st (jar_after_batch url hs st).
Proof.
  destruct (truthy (extractDomain url)) eqn:Hhost.
  - intros origin name Hsome. rewrite jar_after_batch_cookie by exact Hhost.
    destruct (decide (origin = extractDomain url)); [|exact Hsome].
    destruct (latest name (updates_of hs)); [eauto|exact Hsome].
  - unfold jar_after_batch. rewrite Hhost. apply jar_grows_refl.
Qed.

(** X5: nothing leaves the jar.  A batch never removes a cookie, of any
    origin: a directive with an empty value, by which a server asks to
    drop a cookie, is ignored.  And a cookie that is in the jar after the
    batch either was there with the same value, or belongs to the origin
    of the URL and was set by a directive of the batch with a non-empty
    name and a non-empty value. *)
Theorem updateCookies_never_deletes `{Platform} (url : string) (hs : list string)
    (s : State) :
  let s' := snd (updateCookies url hs s) in
  jar_grows (cookieStorage s) (cookieStorage s') /\
  forall origin name value,
    jar_cookie (cookieStorage s') origin name = Some value ->
    jar_cookie (cookieStorage s) origin name = Some value \/
    (origin = extractDomain url /\ In (name, value) (updates_of hs) /\
     truthy name = true /\ truthy value = true).
Proof.
  intros s'. subst s'. destruct (updateCookies_jar url hs s) as [_ ->].
  split; [apply jar_grows_batch|].
  destruct (truthy (extractDomain url)) eqn:Hhost;
    [|unfold jar_after_batch; rewrite Hhost; auto].
  intros origin name value. rewrite jar_after_batch_cookie by exact Hhost.
  destruct (decide (origin = extractDomain url)) as [->|Hne]; [|auto].
  destruct (latest name (updates_of hs)) as [v|] eqn:Hlatest; [|auto].
  intros [= ->]. right. apply latest_In in Hlatest.
  destruct (updates_of_truthy _ _ _ Hlatest). auto.
Qed.

Lemma updateCookies_never_deletes_witness :
  let s' := snd (@updateCookies Lab.platform "https://u-s.example/app"
                   ["token=; Max-Age=0"] (Lab.ready Lab.direct_only)) in
  is_Some (jar_cookie (cookieStorage s') "u-s.example" "token").
Proof.
  intros s'.
  apply (proj1 (@updateCookies_never_deletes Lab.platform "https://u-s.example/app"
                  ["token=; Max-Age=0"] (Lab.ready Lab.direct_only))).
  vm_compute. eauto.
Defined.


(** ** What a cycle does to the jar *)

(** A specification can be strengthened by anything that holds of the
    result and of the final state. *)
Lemma wp_run {A} (m : Js A) s (Q : Result A -> State -> list (Z * Event) -> Prop)
    (P : Result A -> State -> Prop) :
  wp m s Q -> P (fst (m s)) (snd (m s)) ->
  wp m s (fun r s' d => Q r s' d /\ P r s').
Proof. intros (d & Ht & HQ) HP. exists d. auto. Qed.

Ltac jar_done :=
  simpl in *;
  repeat match goal with
         | H : cookieStorage ?x = _ |- _ => rewrite H in *; clear H
         end;
  eauto.

Section JarInvariant.
Context `{Platform} (CONFIG : Config) (world : World).

(** A relation between jars that holds of a jar and itself, composes,
    and holds of a jar and what a batch makes of it. *)
Variable R : gmap string (gmap string string) ->
             gmap string (gmap string string) -> Prop.
Hypothesis R_refl : forall st, R st st.
Hypothesis R_trans : forall st1 st2 st3, R st1 st2 -> R st2 st3 -> R st1 st3.
Hypothesis R_batch : forall url hs st, R st (jar_after_batch url hs st).

Lemma handleSetCookie_R url response s :
  wp (handleSetCookie url response) s
     (fun r s' d => r = Done tt /\ R (cookieStorage s) (cookieStorage s')).
Proof.
  eapply wp_mono.
  - apply (wp_run _ _ _ (fun r s' => R (cookieStorage s) (cookieStorage s'))
             (handleSetCookie_spec url response s)).
    unfold handleSetCookie. destruct (set_cookie response) as [|h|[|h hs]].
    + apply R_refl.
    + destruct (truthy h); [|apply R_refl].
      destruct (updateCookies_jar url [h] s) as [_ ->]. apply R_batch.
    + apply R_refl.
    + destruct (updateCookies_jar url (h :: hs) s) as [_ ->]. apply R_batch.
  - cbv beta. intros r s' d [[Hr _] HR]. auto.
Qed.

Lemma getIframeUrl_R s :
  wp (getIframeUrl CONFIG world) s
     (fun r s' d => R (cookieStorage s) (cookieStorage s')).
Proof.
  unfold getIframeUrl. wp_steps.
  wp_use serializeCookie_spec. intros [c|e] s1 d1 [_ Hs1]; [|wp_steps; jar_done].
  wp_step. wp_step.
  destruct (world Wrapper (sent Wrapper s1)) as [resp|delay e]; intros _;
    [|wp_steps; jar_done].
  wp_use handleSetCookie_R. intros r2 s2 d2 [-> HR2].
  wp_step. wp_step. destruct (body_text resp) as [e|html]; [wp_steps; jar_done|].
  destruct (negb _); wp_steps; [jar_done|].
  eapply wp_mono;
    [apply (wp_run _ _ _ (fun r s' => cookieStorage s' = cookieStorage s'0)
              (extractIframeUrl_spec html s'0))|].
  - unfold extractIframeUrl, try_catch, bind, lift.
    destruct (select_space_iframe html) as [e|[|[src|] rest]]; simpl;
      try reflexivity.
    destruct (truthy src); reflexivity.
  - cbv beta. intros r3 s3 d3 [[[v ->] _] Hs3]. jar_done.
Qed.

Lemma pushToUptimeKuma_R status msg ping s :
  wp (pushToUptimeKuma CONFIG world status msg ping) s
     (fun r s' d => r = Done tt /\ cookieStorage s' = cookieStorage s).
Proof.
  eapply wp_mono; [apply pushToUptimeKuma_spec|]. cbv beta.
  intros r s' d (Hr & _ & Hs). auto.
Qed.

Lemma keepAlive_resolve_R attempt s :
  wp (keepAlive_resolve CONFIG world attempt) s
     (fun r s' d => R (cookieStorage s) (cookieStorage s')).
Proof.
  unfold keepAlive_resolve. wp_step.
  assert (Hfrom : wp (if truthy (spaceUrl CONFIG)
                      then let* iframeUrl := getIframeUrl CONFIG world in
                           match iframeUrl with
                           | Some url => if truthy url then ret (Some url) else ret None
                           | None => ret None
                           end
                      else ret None) s
                     (fun r s' d => R (cookieStorage s) (cookieStorage s'))).
  { destruct (truthy (spaceUrl CONFIG)); [|wp_steps; jar_done].
    wp_use getIframeUrl_R. intros [[url|]|e] s1 d1 HR1.
    - destruct (truthy url); wp_steps; jar_done.
    - wp_steps; jar_done.
    - exact HR1. }
  eapply wp_mono; [apply Hfrom|]. cbv beta.
  intros [[url|]|e] s1 d1 HR1; [wp_steps; jar_done| |exact HR1].
  destruct (truthy (targetUrl CONFIG)); wp_steps; [jar_done|].
  wp_use pushToUptimeKuma_R. intros r2 s2 d2 [-> Hs2]. wp_steps. jar_done.
Qed.

Lemma keepAlive_fetch_R attempt startTime url s :
  wp (keepAlive_fetch world attempt startTime url) s
     (fun r s' d => R (cookieStorage s) (cookieStorage s')).
Proof.
  unfold keepAlive_fetch. wp_steps.
  wp_use serializeCookie_spec. intros [c|e] s1 d1 [_ Hs1]; [|jar_done].
  wp_step. wp_step.
  destruct (world Target (sent Target s1)) as [resp|delay e]; intros _;
    [|jar_done].
  wp_steps. wp_use handleSetCookie_R. intros r2 s2 d2 [-> HR2].
  wp_step. wp_step. destruct (body_text resp) as [e|body]; [jar_done|].
  wp_steps. jar_done.
Qed.

Lemma keepAlive_handle_R attempt response responseTime responseBody s :
  wp (keepAlive_handle CONFIG world attempt response responseTime responseBody) s
     (fun r s' d => cookieStorage s' = cookieStorage s).
Proof.
  unfold keepAlive_handle.
  destruct (classify CONFIG (statusCode response) responseBody); wp_steps;
    try destruct (attempt <? maxRetries CONFIG); wp_steps; try reflexivity;
    (wp_use pushToUptimeKuma_R; intros r1 s1 d1 [-> Hs1]; wp_steps; jar_done).
Qed.

Lemma keepAlive_catch_R attempt error s :
  wp (keepAlive_catch CONFIG world attempt error) s
     (fun r s' d => cookieStorage s' = cookieStorage s).
Proof.
  unfold keepAlive_catch. destruct (err_is_Error error).
  - wp_step.
    assert (Hlog : wp (if is_timeout error then console LError (TimedOut attempt)
                       else if is_connect error
                            then console LError (ConnectFailed attempt)
                            else console LError
                                   (UnknownError attempt (err_message error))) s
                      (fun r s' d => r = Done tt /\ cookieStorage s' = cookieStorage s)).
    { destruct (is_timeout error); [|destruct (is_connect error)]; wp_steps; auto. }
    eapply wp_mono; [apply Hlog|]. cbv beta. intros r s1 d1 [-> Hs1].
    destruct (attempt <? maxRetries CONFIG); [wp_steps; jar_done|].
    wp_step.
    destruct (is_timeout error); [|destruct (is_connect error)];
      (wp_use pushToUptimeKuma_R; intros r2 s2 d2 [-> Hs2]; wp_steps; jar_done).
  - wp_steps. destruct (attempt <? maxRetries CONFIG); [wp_steps; reflexivity|].
    wp_use pushToUptimeKuma_R. intros r1 s1 d1 [-> Hs1]. wp_steps. jar_done.
Qed.

Lemma keepAlive_attempt_R attempt s :
  wp (keepAlive_attempt CONFIG world attempt) s
     (fun r s' d => R (cookieStorage s) (cookieStorage s')).
Proof.
  unfold keepAlive_attempt, keepAlive_try, keepAlive_respond. wp_steps.
  wp_use keepAlive_resolve_R. intros [[url|]|e] s1 d1 HR1.
  - wp_use keepAlive_fetch_R. intros [[[resp rt] body]|e] s2 d2 HR2.
    + wp_steps. wp_use keepAlive_handle_R. intros [ctl|e] s3 d3 Hs3; [jar_done|].
      wp_use keepAlive_catch_R. intros r4 s4 d4 Hs4. jar_done.
    + wp_use keepAlive_catch_R. intros r3 s3 d3 Hs3. jar_done.
  - wp_steps. jar_done.
  - wp_use keepAlive_catch_R. intros r2 s2 d2 Hs2. jar_done.
Qed.

Lemma keepAlive_loop_R turns attempt lastError s :
  wp (keepAlive_loop CONFIG world turns attempt lastError) s
     (fun r s' d => R (cookieStorage s) (cookieStorage s')).
Proof.
  revert attempt lastError s.
  induction turns as [|turns IH]; intros attempt lastError s.
  - simpl. wp_steps. apply R_refl.
  - cbn [keepAlive_loop]. wp_use keepAlive_attempt_R.
    intros [[e|]|e] s1 d1 HR1; [|wp_steps; exact HR1|exact HR1].
    eapply wp_mono; [apply IH|]. cbv beta. intros r2 s2 d2 HR2. eauto.
Qed.

Lemma keepAlive_R s :
  R (cookieStorage s) (cookieStorage (snd (keepAlive CONFIG world s))).
Proof.
  assert (Hwp : wp (keepAlive CONFIG world) s
                   (fun r s' d => R (cookieStorage s) (cookieStorage s'))).
  { unfold keepAlive. wp_use keepAlive_loop_R.
    intros [[[l|]|]|e] s1 d1 HR1; [wp_steps; exact HR1..|exact HR1]. }
  destruct Hwp as (d & _ & HR). exact HR.
Qed.
End JarInvariant.

(** X6: a poll cycle only adds to the jar.  Whatever the wrapper page,
    the target and the monitor answer, and however the cycle ends, every
    cookie that was in the jar before the cycle is still there after it
    (perhaps with a newer value): the program never drops a cookie or an
    origin while it polls. *)
Theorem cookies_survive_a_cycle `{Platform} (CONFIG : Config) (world : World)
    (s : State) :
  jar_grows (cookieStorage s) (cookieStorage (snd (keepAlive CONFIG world s))).
Proof.
  apply keepAlive_R.
  - apply jar_grows_refl.
  - apply jar_grows_trans.
  - intros url hs st. apply jar_grows_batch.
Qed.


(** ** The request to the target *)

Lemma requests_to_app site (d1 d2 : list (Z * Event)) :
  requests_to site (d1 ++ d2) = (requests_to site d1 ++ requests_to site d2)%list.
Proof. unfold requests_to. apply omap_app. Qed.

Lemma requests_to_target_core (d : list (Z * Event)) :
  requests_to Target (core d) = requests_to Target d.
Proof.
  induction d as [|[t e] d IH]; [reflexivity|].
  unfold core, requests_to in *. simpl in *.
  destruct e as [| | [] | [] | [] | [] | [] | | |]; simpl;
    first [exact IH | f_equal; exact IH].
Qed.

Section Fetch.
Context `{Platform} (world : World).

Lemma serializeCookie_frame url s :
  wp (serializeCookie url) s
     (fun r s' d =>
        r = cookie_header_for url (cookieStorage s) /\ core d = [] /\
        cookieStorage s' = cookieStorage s /\ now s' = now s /\
        sentTarget s' = sentTarget s /\ sentWrapper s' = sentWrapper s).
Proof.
  unfold serializeCookie, cookie_header_for. wp_steps.
  destruct (if truthy (extractDomain url) then _ else _) as [entry|]; wp_steps.
  - destruct (stringifyCookie entry); repeat split; reflexivity.
  - repeat split; reflexivity.
Qed.

Lemma handleSetCookie_jar url response s :
  wp (handleSetCookie url response) s
     (fun r s' d =>
        r = Done tt /\ core d = [] /\
        cookieStorage s' = jar_after url (set_cookie response) (cookieStorage s)).
Proof.
  eapply wp_mono.
  - apply (wp_run _ _ _
             (fun r s' => cookieStorage s' =
                          jar_after url (set_cookie response) (cookieStorage s))
             (handleSetCookie_spec url response s)).
    unfold handleSetCookie, jar_after.
    destruct (set_cookie response) as [|h|[|h hs]]; try reflexivity.
    + destruct (truthy h); [|reflexivity]. apply updateCookies_jar.
    + apply updateCookies_jar.
  - cbv beta. intros r s' d [[Hr Hd] Hs]. auto.
Qed.

Lemma keepAlive_fetch_sem attempt startTime target s :
  wp (keepAlive_fetch world attempt startTime target) s
     (fun r s' d =>
        match cookie_header_for target (cookieStorage s) with
        | Thrown e =>
            r = Thrown e /\ cookieStorage s' = cookieStorage s /\
            requests_to Target d = []
        | Done header =>
            requests_to Target d = [Get target header] /\
            match world Target (sentTarget s) with
            | Rejects _ e => r = Thrown e /\ cookieStorage s' = cookieStorage s
            | Responds resp =>
                cookieStorage s' =
                  jar_after target (set_cookie resp) (cookieStorage s) /\
                r = match body_text resp with
                    | inl e => Thrown e
                    | inr body =>
                        Done (resp, now s + headersDelay resp - startTime, body)
                    end
            end
        end).
Proof.
  unfold keepAlive_fetch. wp_steps.
  wp_use serializeCookie_frame. intros r s1 d1 (-> & Hd1 & Hs1 & Hn1 & Ht1 & _).
  simpl in Hs1, Hn1, Ht1. simpl cookieStorage.
  destruct (cookie_header_for target (cookieStorage s)) as [header|e].
  - wp_step. wp_step. simpl sent. rewrite Ht1.
    destruct (world Target (sentTarget s)) as [resp|delay e]; intros Hnow1.
    + wp_steps. wp_use handleSetCookie_jar. intros r2 s2 d2 (-> & Hd2 & Hs2).
      simpl in Hs2. rewrite Hst, Hs1 in Hs2.
      wp_step. wp_step.
      destruct (body_text resp) as [e|body].
      * split; [|split; [congruence|reflexivity]].
        rewrite !requests_to_app, <- (requests_to_target_core d1),
          <- (requests_to_target_core d2), Hd1, Hd2. reflexivity.
      * wp_steps. split; [|split; [congruence|]].
        -- rewrite !requests_to_app, <- (requests_to_target_core d1),
             <- (requests_to_target_core d2), Hd1, Hd2. reflexivity.
        -- rewrite Hnow1, Hn1. reflexivity.
    + split; [|split; [reflexivity|congruence]].
      rewrite !requests_to_app, <- (requests_to_target_core d1), Hd1. reflexivity.
  - split; [reflexivity|]. split; [exact Hs1|].
    rewrite !requests_to_app, <- (requests_to_target_core d1), Hd1. reflexivity.
Qed.
End Fetch.




(** ** The shape of every cycle *)



Section Footprint.
Context `{Platform} (CONFIG : Config).

Lemma pushed_quiet t status msg ping :
  attempt_numbers (pushed CONFIG t status msg ping) = [] /\
  requests_to Target (pushed CONFIG t status msg ping) = [].
Proof. unfold pushed. destruct (monitor_ready CONFIG); split; reflexivity. Qed.


End Footprint.




(** X9: no attempts, no effects.  With [maxRetries] zero or negative the
    loop body never runs: the cycle sends no request, pushes no
    notification, writes nothing to the console and leaves the state as
    it was. *)
Theorem no_retries_no_cycle `{Platform} (CONFIG : Config) (world : World)
    (s : State) :
  maxRetries CONFIG <= 0 ->
  keepAlive CONFIG world s = (Done tt, s).
Proof.
  intros Hmax. unfold keepAlive.
  replace (Z.to_nat (maxRetries CONFIG)) with O by lia. reflexivity.
Qed.

Lemma no_retries_no_cycle_witness :
  let CONFIG := mkConfig "" "https://u-s.example/app" "token=t0" 30000 [200] 0
                  (Some Lab.kuma) in
  @keepAlive Lab.platform CONFIG Lab.all_up (Lab.ready CONFIG) =
    (Done tt, Lab.ready CONFIG).
Proof.
  intros CONFIG.
  apply (@no_retries_no_cycle Lab.platform CONFIG Lab.all_up (Lab.ready CONFIG)).
  simpl. lia.
Defined.

(** X10: the statement after the loop is dead.  For a whole number
    [maxRetries], the retry loop is never left with an error pending:
    when [maxRetries] is at least 1 the function returns from inside the
    loop, on the last attempt at the latest, and otherwise the loop body
    never runs and no error was recorded.  So the closing "all retries
    failed" line of lines 683-686 is never written, and the effects of a
    cycle are those of its loop. *)
Theorem nothing_after_the_loop `{Platform} (CONFIG : Config) (world : World)
    (s : State) :
  let loop := keepAlive_loop CONFIG world (Z.to_nat (maxRetries CONFIG)) 1 None s in
  keepAlive CONFIG world s = (Done tt, snd loop) /\
  (fst loop = Done None \/ (maxRetries CONFIG <= 0 /\ loop = (Done (Some None), s))).
Proof.
  intros loop.
  assert (Hloop : fst loop = Done None \/
                  (maxRetries CONFIG <= 0 /\ loop = (Done (Some None), s))).
  { subst loop. destruct (Z.le_gt_cases (maxRetries CONFIG) 0) as [Hle|Hgt].
    - right. split; [exact Hle|].
      replace (Z.to_nat (maxRetries CONFIG)) with O by lia. reflexivity.
    - left.
      destruct (keepAlive_loop_spec CONFIG world (Z.to_nat (maxRetries CONFIG)) 1 None s)
        as (d & _ & returned & Hrun & Hr).
      assert (Hinv : Z.of_nat (Z.to_nat (maxRetries CONFIG)) + 1 = maxRetries CONFIG + 1)
        by lia.
      pose proof (cycle_run_final CONFIG _ _ _ _ _ Hrun Hinv) as Hfinal.
      destruct (last _) as [rec|].
      + destruct Hfinal as [-> _]. exact Hr.
      + destruct Hfinal as (Hturns & _). lia. }
  split; [|exact Hloop].
  unfold keepAlive, bind. fold loop.
  destruct Hloop as [Hnone|[_ ->]]; [|reflexivity].
  destruct loop as [r s']. simpl in Hnone. subst r. reflexivity.
Qed.

Section Classified.
Context `{Platform} (CONFIG : Config) (world : World).

Lemma attempt_record_classified attempt s :
  classified CONFIG (attempt_record CONFIG world attempt s).
Proof.
  unfold attempt_record.
  destruct ((began attempt ;; let* startTime := Date_now in
             keepAlive_respond CONFIG world attempt startTime) s)
    as [[[[[resp rt] body]|]|e] s']; simpl; eauto.
Qed.

Lemma cycle_attempts_classified turns attempt s :
  Forall (classified CONFIG) (cycle_attempts CONFIG world turns attempt s).
Proof.
  revert attempt s. induction turns as [|turns IH]; intros attempt s; simpl.
  - constructor.
  - constructor; [apply attempt_record_classified|].
    destruct (keepAlive_attempt CONFIG world attempt s) as [[[e|]|e] s'];
      first [apply IH | constructor].
Qed.
End Classified.

(** X11: "up" is only pushed for a success.  If a cycle pushes a
    notification with status "up", then that is its only notification,
    its message is "OK", its latency is that of the last attempt, and the
    last attempt was answered with a status code of the expected list
    and classified as a success; every attempt before it was a failure
    that the retry policy retries. *)
Theorem up_means_success `{Platform} (CONFIG : Config) (world : World)
    (s : State) (msg : string) (ping : option Z) :
  In (Up, msg, ping) (notifications (added s (snd (keepAlive CONFIG world s)))) ->
  exists statusCode responseTime,
    last (attempts_of_cycle CONFIG world s) =
      Some (AResponse Success statusCode responseTime) /\
    In statusCode (expectedStatusCodes CONFIG) /\
    msg = "OK" /\ ping = Some responseTime /\
    notifications (added s (snd (keepAlive CONFIG world s))) =
      [(Up, "OK", Some responseTime)] /\
    Forall (fun rec => retryable rec = true)
           (removelast (attempts_of_cycle CONFIG world s)).
Proof.
  intros Hin.
  destruct (last (attempts_of_cycle CONFIG world s)) as [rec|] eqn:Hlast.
  - destruct (cycle_ending CONFIG world s rec Hlast) as (Hn & _ & _ & Hall & _).
    rewrite Hn in Hin. destruct Hin as [Hfinal|[]].
    pose proof (cycle_attempts_classified CONFIG world
                  (Z.to_nat (maxRetries CONFIG)) 1 s) as Hclass.
    fold (attempts_of_cycle CONFIG world s) in Hclass.
    rewrite Forall_forall in Hclass.
    assert (Hrec : classified CONFIG rec).
    { apply Hclass. apply last_Some in Hlast as [l' ->].
      apply elem_of_app. right. left. }
    destruct rec as [|e|[| |] code rt]; simpl in Hfinal; try discriminate.
    injection Hfinal as <- <-.
    exists code, rt. repeat split; auto.
    destruct Hrec as [body Hbody]. unfold classify in Hbody.
    destruct (containsFailureMarker body); [discriminate|].
    destruct (array_includes (expectedStatusCodes CONFIG) code) eqn:Hcode;
      [|discriminate].
    apply array_includes_spec. exact Hcode.
  - apply last_None in Hlast. apply no_attempts_no_events in Hlast.
    rewrite <- notifications_core, Hlast in Hin. destruct Hin.
Qed.

Lemma up_means_success_witness :
  exists statusCode responseTime,
    last (@attempts_of_cycle Lab.platform Lab.direct_only Lab.flaky
            (Lab.ready Lab.direct_only)) =
      Some (AResponse Success statusCode responseTime) /\
    In statusCode (expectedStatusCodes Lab.direct_only) /\
    "OK" = "OK" /\ Some 10 = Some responseTime /\
    notifications (added (Lab.ready Lab.direct_only)
                     (snd (@keepAlive Lab.platform Lab.direct_only Lab.flaky
                             (Lab.ready Lab.direct_only)))) =
      [(Up, "OK", Some responseTime)] /\
    Forall (fun rec => retryable rec = true)
           (removelast (@attempts_of_cycle Lab.platform Lab.direct_only Lab.flaky
                          (Lab.ready Lab.direct_only))).
Proof.
  apply (@up_means_success Lab.platform Lab.direct_only Lab.flaky
           (Lab.ready Lab.direct_only) "OK" (Some 10)).
  vm_compute. left. reflexivity.
Defined.

(** X12: a success ends the cycle.  An attempt that is classified as a
    success is the last attempt of its cycle, whatever number it has:
    the cycle pushes one "up" notification with message "OK" and the
    latency of that attempt, the monitor (when it is ready) receives that
    one push, the fixed delay was taken once for every attempt before it
    and is not taken after it, and the cycle ends with the attempt, its
    request and the notification. *)
Theorem success_ends_the_cycle `{Platform} (CONFIG : Config) (world : World)
    (s : State) (statusCode responseTime : Z) :
  In (AResponse Success statusCode responseTime) (attempts_of_cycle CONFIG world s) ->
  let d := added s (snd (keepAlive CONFIG world s)) in
  let n := length (attempts_of_cycle CONFIG world s) in
  last (attempts_of_cycle CONFIG world s) =
    Some (AResponse Success statusCode responseTime) /\
  notifications d = [(Up, "OK", Some responseTime)] /\
  monitor_requests d = monitor_sees CONFIG Up "OK" (Some responseTime) /\
  sleeps d = repeat 2000 (n - 1) /\
  exists front,
    steps d = (front ++ [ SAttempt (Z.of_nat n); SRequest;
                          SNotify Up "OK" (Some responseTime) ])%list.
Proof.
  intros Hin d n. subst d n.
  assert (Hlast : last (attempts_of_cycle CONFIG world s) =
                  Some (AResponse Success statusCode responseTime)).
  { destruct (last (attempts_of_cycle CONFIG world s)) as [rec|] eqn:Hl.
    - destruct (cycle_ending CONFIG world s rec Hl) as (_ & _ & _ & Hall & _).
      destruct (in_removelast_or_last _ _ Hin) as [Hr|Hlast'].
      + rewrite Forall_forall in Hall. apply list_elem_of_In, Hall in Hr. discriminate.
      + congruence.
    - apply last_None in Hl. rewrite Hl in Hin. destruct Hin. }
  destruct (cycle_ending CONFIG world s _ Hlast) as (Hn & Hm & Hs & _ & _).
  destruct (cycle_last_turn CONFIG world s _ Hlast)
    as (pre & chunk & t0 & Hcd & _ & _ & _ & _ & Hshape).
  repeat split; auto.
  exists (steps pre). rewrite <- steps_core, Hcd, steps_app.
  destruct Hshape as (t_req & t_hdr & t_body & url & c & tail & _ & -> & _ & t & ->).
  rewrite !steps_app, steps_pushed. reflexivity.
Qed.

Lemma success_ends_the_cycle_witness :
  let s := Lab.ready Lab.direct_only in
  let d := added s (snd (@keepAlive Lab.platform Lab.direct_only Lab.flaky s)) in
  @attempts_of_cycle Lab.platform Lab.direct_only Lab.flaky s =
    [AThrown Lab.refused; AResponse Success 200 10] /\
  notifications d = [(Up, "OK", Some 10)] /\
  sleeps d = [2000] /\
  exists front, steps d = (front ++ [SAttempt 2; SRequest; SNotify Up "OK" (Some 10)])%list.
Proof.
  intros s d.
  destruct (@success_ends_the_cycle Lab.platform Lab.direct_only Lab.flaky s 200 10)
    as (_ & Hn & _ & Hs & Hsteps).
  - vm_compute. right. left. reflexivity.
  - split; [vm_compute; reflexivity|]. split; [exact Hn|]. split; [exact Hs|].
    exact Hsteps.
Defined.

(** X13: a cycle that ends on an error.  When the last attempt of a
    cycle threw (the request was refused or timed out, the body could not
    be read, the cookies could not be serialized), every attempt allowed
    by [maxRetries] was made, each attempt before the last was a failure
    that is retried, and the cycle pushes exactly one "down"
    notification, without latency, whose message tells a timeout from a
    refused connection from any other error. *)
Theorem error_ends_the_cycle `{Platform} (CONFIG : Config) (world : World)
    (s : State) (e : JsError) :
  last (attempts_of_cycle CONFIG world s) = Some (AThrown e) ->
  let d := added s (snd (keepAlive CONFIG world s)) in
  Z.of_nat (length (attempts_of_cycle CONFIG world s)) = maxRetries CONFIG /\
  notifications d =
    [(Down,
      if err_is_Error e then
        if is_timeout e then "请求超时"
        else if is_connect e then "网络错误：无法连接"
        else "未知错误：" +:+ err_message e
      else "未知错误",
      None)] /\
  monitor_requests d = monitor_sees CONFIG Down (msg_thrown e) None /\
  sleeps d = repeat 2000 (length (attempts_of_cycle CONFIG world s) - 1).
Proof.
  intros Hlast d. subst d.
  destruct (cycle_ending CONFIG world s _ Hlast) as (Hn & Hm & Hs & _ & Hlen).
  split; [apply Hlen; reflexivity|]. auto.
Qed.

Lemma error_ends_the_cycle_witness :
  let s := Lab.ready Lab.direct_only in
  let d := added s (snd (@keepAlive Lab.platform Lab.direct_only
                           Lab.target_times_out s)) in
  Z.of_nat (length (@attempts_of_cycle Lab.platform Lab.direct_only
                      Lab.target_times_out s)) = 3 /\
  notifications d = [(Down, "请求超时", None)] /\
  sleeps d = [2000; 2000].
Proof.
  intros s d.
  destruct (@error_ends_the_cycle Lab.platform Lab.direct_only Lab.target_times_out s
              Lab.headers_timeout)
    as (Hlen & Hn & _ & Hs).
  - vm_compute. reflexivity.
  - split; [exact Hlen|]. split; [exact Hn|].
    subst d. rewrite Hs. vm_compute. reflexivity.
Defined.


(** ** A jar that cannot be serialized *)

Lemma wp_conj {A} (m : Js A) s
    (Q Q' : Result A -> State -> list (Z * Event) -> Prop) :
  wp m s Q -> wp m s Q' -> wp m s (fun r s' d => Q r s' d /\ Q' r s' d).
Proof.
  intros (d & Ht & HQ) (d' & Ht' & HQ'). exists d. split; [exact Ht|].
  split; [exact HQ|]. rewrite Ht in Ht'. apply app_inv_head in Ht'. subst d'.
  exact HQ'.
Qed.

Lemma last_of_all {A} (x : A) (l : list A) :
  l <> [] -> Forall (eq x) l -> last l = Some x.
Proof.
  intros Hne Hall. destruct (last l) as [y|] eqn:Hlast.
  - f_equal. symmetry. rewrite Forall_forall in Hall. apply Hall.
    apply last_Some in Hlast as [l' ->]. apply elem_of_app. right. left.
  - apply last_None in Hlast. contradiction.
Qed.

Section Poisoned.
Context `{Platform} (CONFIG : Config) (world : World) (e : JsError).
Hypothesis Hspace : truthy (spaceUrl CONFIG) = false.
Hypothesis Htarget : truthy (targetUrl CONFIG) = true.

Lemma keepAlive_respond_poisoned attempt startTime s :
  unserializable CONFIG e s ->
  wp (keepAlive_respond CONFIG world attempt startTime) s
     (fun r s' d =>
        r = Thrown e /\ cookieStorage s' = cookieStorage s /\
        requests_to Target d = []).
Proof.
  intros Hp. unfold keepAlive_respond, keepAlive_resolve.
  rewrite Hspace, Htarget. cbv iota. wp_steps.
  wp_use keepAlive_fetch_sem. intros r s1 d1 Hsem.
  simpl cookieStorage in Hsem. unfold unserializable in Hp. rewrite Hp in Hsem.
  destruct Hsem as (-> & Hs & Hreq).
  split; [reflexivity|]. split; [exact Hs|].
  rewrite !requests_to_app, Hreq. reflexivity.
Qed.

Lemma catch_tail_quiet attempt error r tail :
  catch_tail CONFIG attempt error r tail -> requests_to Target tail = [].
Proof.
  unfold catch_tail.
  destruct (attempt <? maxRetries CONFIG); intros [_ [t ->]];
    [reflexivity|apply pushed_quiet].
Qed.

Lemma keepAlive_attempt_poisoned attempt s :
  unserializable CONFIG e s ->
  attempt_record CONFIG world attempt s = AThrown e /\
  unserializable CONFIG e (snd (keepAlive_attempt CONFIG world attempt s)) /\
  wp (keepAlive_attempt CONFIG world attempt) s
     (fun r s' d => cookieStorage s' = cookieStorage s /\ requests_to Target d = []).
Proof.
  intros Hp.
  assert (Hrec : attempt_record CONFIG world attempt s = AThrown e).
  { unfold attempt_record.
    change ((began attempt ;;
             let* startTime := Date_now in
             keepAlive_respond CONFIG world attempt startTime) s)
      with (keepAlive_respond CONFIG world attempt (now s)
              (emit EDateNow (emit (EAttempt attempt) s))).
    destruct (keepAlive_respond_poisoned attempt (now s)
                (emit EDateNow (emit (EAttempt attempt) s)) Hp)
      as (d & _ & Hr & _).
    destruct (keepAlive_respond CONFIG world attempt (now s) _) as [r s'].
    simpl in Hr. subst r. reflexivity. }
  assert (Hwp : wp (keepAlive_attempt CONFIG world attempt) s
                   (fun r s' d =>
                      cookieStorage s' = cookieStorage s /\
                      requests_to Target d = [])).
  { unfold keepAlive_attempt, keepAlive_try. wp_steps.
    wp_use keepAlive_respond_poisoned; [exact Hp|].
    intros r s1 d1 (-> & Hs1 & Hreq1).
    eapply wp_mono;
      [apply (wp_conj _ _ _ _ (keepAlive_catch_spec CONFIG world attempt e s1)
                (keepAlive_catch_R CONFIG world attempt e s1))|].
    cbv beta. intros r2 s2 d2 [Htail Hs2].
    split; [rewrite Hs2; exact Hs1|].
    rewrite !requests_to_app, Hreq1, <- (requests_to_target_core d2),
      (catch_tail_quiet _ _ _ _ Htail). reflexivity. }
  split; [exact Hrec|]. split; [|exact Hwp].
  destruct Hwp as (d & _ & Hs & _). unfold unserializable in *. rewrite Hs. exact Hp.
Qed.

Lemma cycle_attempts_poisoned turns attempt s :
  unserializable CONFIG e s ->
  Forall (eq (AThrown e)) (cycle_attempts CONFIG world turns attempt s).
Proof.
  revert attempt s. induction turns as [|turns IH]; intros attempt s Hp; simpl.
  - constructor.
  - destruct (keepAlive_attempt_poisoned attempt s Hp) as (Hrec & Hp' & _).
    constructor; [symmetry; exact Hrec|].
    destruct (keepAlive_attempt CONFIG world attempt s) as [[[e'|]|e'] s'];
      first [apply IH; exact Hp' | constructor].
Qed.

Lemma keepAlive_loop_poisoned turns attempt lastError s :
  unserializable CONFIG e s ->
  wp (keepAlive_loop CONFIG world turns attempt lastError) s
     (fun r s' d => cookieStorage s' = cookieStorage s /\ requests_to Target d = []).
Proof.
  revert attempt lastError s.
  induction turns as [|turns IH]; intros attempt lastError s Hp.
  - simpl. wp_steps. split; reflexivity.
  - cbn [keepAlive_loop].
    destruct (keepAlive_attempt_poisoned attempt s Hp) as (_ & Hp' & Hwp).
    apply wp_bind. eapply wp_mono; [apply (wp_remember _ _ _ Hwp)|]. cbv beta.
    intros r s1 d1 [[Hs1 Hreq1] Hrun]. rewrite Hrun in Hp'. simpl in Hp'.
    destruct r as [[e'|]|e'].
    + eapply wp_mono; [apply IH; exact Hp'|]. cbv beta.
      intros r2 s2 d2 [Hs2 Hreq2]. split; [congruence|].
      rewrite requests_to_app, Hreq1, Hreq2. reflexivity.
    + wp_steps. split; [exact Hs1|]. rewrite app_nil_r. exact Hreq1.
    + split; [exact Hs1|exact Hreq1].
Qed.

Lemma keepAlive_poisoned s :
  unserializable CONFIG e s ->
  wp (keepAlive CONFIG world) s
     (fun r s' d => cookieStorage s' = cookieStorage s /\ requests_to Target d = []).
Proof.
  intros Hp. unfold keepAlive. wp_use keepAlive_loop_poisoned; [exact Hp|].
  intros [[[l|]|]|e'] s1 d1 [Hs1 Hreq1]; wp_steps;
    rewrite ?requests_to_app, ?app_nil_r, ?Hreq1; auto.
Qed.
End Poisoned.

(** X14: a jar that cannot be serialized.  With a direct target only,
    when the cookies that the jar holds for the target's origin cannot
    be serialized (a cookie name that the cookie package refuses, in the
    seed or received later), no attempt of the cycle gets as far as
    sending its request: every attempt fails with the error of the
    package, all [maxRetries] attempts are used, the jar is left as it
    is, and the cycle pushes "down" with that error. *)
Theorem unserializable_jar_blocks_the_cycle `{Platform} (CONFIG : Config)
    (world : World) (s : State) (e : JsError) :
  truthy (spaceUrl CONFIG) = false ->
  truthy (targetUrl CONFIG) = true ->
  unserializable CONFIG e s ->
  1 <= maxRetries CONFIG ->
  let d := added s (snd (keepAlive CONFIG world s)) in
  requests_to Target d = [] /\
  attempts_of_cycle CONFIG world s =
    repeat (AThrown e) (Z.to_nat (maxRetries CONFIG)) /\
  notifications d = [(Down, msg_thrown e, None)] /\
  cookieStorage (snd (keepAlive CONFIG world s)) = cookieStorage s.
Proof.
  intros Hspace Htarget Hp Hmax d. subst d.
  pose proof (cycle_attempts_poisoned CONFIG world e Hspace Htarget
                (Z.to_nat (maxRetries CONFIG)) 1 s Hp) as Hall.
  fold (attempts_of_cycle CONFIG world s) in Hall.
  assert (Hne : attempts_of_cycle CONFIG world s <> []).
  { unfold attempts_of_cycle.
    destruct (Z.to_nat (maxRetries CONFIG)) eqn:Hturns; [lia|discriminate]. }
  pose proof (last_of_all _ _ Hne Hall) as Hlast.
  destruct (cycle_ending CONFIG world s _ Hlast) as (Hn & _ & _ & _ & Hlen).
  specialize (Hlen eq_refl).
  destruct (keepAlive_poisoned CONFIG world e Hspace Htarget s Hp)
    as (dl & Htl & Hs & Hreq).
  rewrite (added_app _ _ _ Htl) in *.
  split; [exact Hreq|]. split; [|split; [exact Hn|exact Hs]].
  assert (Hcount : length (attempts_of_cycle CONFIG world s) =
                     Z.to_nat (maxRetries CONFIG)) by lia.
    rewrite <- Hcount. clear -Hall.
    induction Hall as [|x l <- _ IH]; [reflexivity|]. simpl. f_equal. exact IH.
Qed.

Lemma unserializable_jar_blocks_the_cycle_witness :
  let CONFIG := mkConfig "" "https://u-s.example/app" "session id=c" 30000 [200] 3
                  None in
  let s := Lab.ready CONFIG in
  let d := added s (snd (@keepAlive Lab.platform CONFIG Lab.all_up s)) in
  requests_to Target d = [] /\
  length (@attempts_of_cycle Lab.platform CONFIG Lab.all_up s) = 3%nat /\
  notifications d =
    [(Down, "未知错误：cookie name is invalid: session id", None)].
Proof.
  intros CONFIG s d.
  destruct (@unserializable_jar_blocks_the_cycle Lab.platform CONFIG Lab.all_up s
              (Cookie.TypeError "cookie name is invalid: session id"))
    as (Hreq & Hatt & Hn & _).
  - reflexivity.
  - reflexivity.
  - vm_compute. reflexivity.
  - simpl. lia.
  - split; [exact Hreq|]. split; [rewrite Hatt; reflexivity|exact Hn].
Defined.


(** ** The visit to the wrapper page *)

Lemma batch_lines_quiet `{Platform} hs site (d : list (Z * Event)) :
  Forall (fun te => batch_line hs (snd te)) d -> requests_to site d = [].
Proof.
  induction 1 as [|[t e] d Hline _ IH]; [reflexivity|].
  unfold requests_to in *. cbn [omap list_omap snd]. fold (omap (fun te : Z * Event => request_to site (snd te)) d).
  rewrite IH. destruct e; try (simpl in Hline; contradiction). reflexivity.
Qed.

Section WrapperVisit.
Context `{Platform} (CONFIG : Config) (world : World).

Lemma updateCookies_quiet url hs s site :
  wp (updateCookies url hs) s (fun r s' d => requests_to site d = []).
Proof.
  destruct (truthy (extractDomain url)) eqn:Hhost.
  - eapply wp_mono; [apply updateCookies_lines; exact Hhost|]. cbv beta.
    intros r s' d Hd. eapply batch_lines_quiet. exact Hd.
  - unfold updateCookies. rewrite Hhost. simpl negb. cbv iota. wp_steps.
    reflexivity.
Qed.

Lemma handleSetCookie_quiet url response s site :
  wp (handleSetCookie url response) s (fun r s' d => requests_to site d = []).
Proof.
  unfold handleSetCookie. destruct (set_cookie response) as [|h|[|h hs]].
  - wp_steps. reflexivity.
  - destruct (truthy h); [apply updateCookies_quiet|wp_steps; reflexivity].
  - wp_steps. reflexivity.
  - apply updateCookies_quiet.
Qed.

Lemma serializeCookie_quiet url s site :
  wp (serializeCookie url) s (fun r s' d => requests_to site d = []).
Proof.
  unfold serializeCookie. wp_steps.
  destruct (if truthy (extractDomain url) then _ else _) as [entry|]; wp_steps.
  - destruct (stringifyCookie entry); reflexivity.
  - reflexivity.
Qed.

Lemma getIframeUrl_sem s :
  wp (getIframeUrl CONFIG world) s
     (fun r s' d =>
        match cookie_header_for (spaceUrl CONFIG) (cookieStorage s) with
        | Thrown e =>
            r = Done None /\ cookieStorage s' = cookieStorage s /\
            requests_to Wrapper d = []
        | Done header =>
            requests_to Wrapper d = [Get (spaceUrl CONFIG) header] /\
            match world Wrapper (sentWrapper s) with
            | Rejects _ e => r = Done None /\ cookieStorage s' = cookieStorage s
            | Responds resp =>
                cookieStorage s' =
                  jar_after (spaceUrl CONFIG) (set_cookie resp) (cookieStorage s) /\
                (r = Done None \/
                 exists src html rest,
                   r = Done (Some src) /\ statusCode resp = 200 /\
                   body_text resp = inr html /\
                   select_space_iframe html = inr (Some src :: rest) /\
                   truthy src = true)
            end
        end).
Proof.
  unfold getIframeUrl. wp_steps.
  eapply wp_mono;
    [apply (wp_conj _ _ _ _
              (serializeCookie_frame (spaceUrl CONFIG) _)
              (serializeCookie_quiet (spaceUrl CONFIG) _ Wrapper))|].
  cbv beta. intros r s1 d1 [(-> & _ & Hs1 & _ & _ & Hw1) Hq1].
  simpl in Hs1, Hw1. simpl cookieStorage.
  destruct (cookie_header_for (spaceUrl CONFIG) (cookieStorage s)) as [header|e].
  - wp_step. wp_step. simpl sent. rewrite Hw1.
    destruct (world Wrapper (sentWrapper s)) as [resp|delay e]; intros Hnow1.
    + apply wp_bind. eapply wp_mono;
        [apply (wp_conj _ _ _ _
                  (handleSetCookie_jar (spaceUrl CONFIG) resp _)
                  (handleSetCookie_quiet (spaceUrl CONFIG) resp _ Wrapper))|].
      cbv beta. intros r2 s2 d2 [(-> & _ & Hs2) Hq2].
      rewrite Hst, Hs1 in Hs2.
      wp_step. wp_step.
      destruct (body_text resp) as [e|html].
      * wp_steps. simpl cookieStorage.
        rewrite !requests_to_app, Hq1, Hq2.
        split; [reflexivity|]. split; [congruence|left; reflexivity].
      * destruct (statusCode resp =? 200) eqn:Hcode; simpl negb; cbv iota.
        -- apply Z.eqb_eq in Hcode. unfold extractIframeUrl. wp_steps.
           destruct (select_space_iframe html) as [e|[|[src|] rest]] eqn:Hsel;
             wp_steps; simpl cookieStorage;
             try (rewrite !requests_to_app, Hq1, Hq2;
                  split; [reflexivity|]; split; [congruence|left; reflexivity]).
           destruct (truthy src) eqn:Hsrc; wp_steps; simpl cookieStorage;
             rewrite !requests_to_app, Hq1, Hq2;
             (split; [reflexivity|]; split; [congruence|]);
             [right; exists src, html, rest; auto|left; reflexivity].
        -- wp_steps. simpl cookieStorage.
           rewrite !requests_to_app, Hq1, Hq2.
           split; [reflexivity|]. split; [congruence|left; reflexivity].
    + wp_steps. simpl cookieStorage. rewrite !requests_to_app, Hq1.
      split; [reflexivity|]. split; [reflexivity|congruence].
  - wp_steps. simpl cookieStorage. rewrite !requests_to_app, Hq1.
    split; [reflexivity|]. split; [exact Hs1|reflexivity].
Qed.
End WrapperVisit.



(** X16: resolution never throws, and a frame URL is always genuine.
    [getIframeUrl] returns normally whatever happens to its request.
    When it returns a URL, the wrapper page answered with status [200],
    its body was read, and the URL is the non-empty [src] of the first
    [iframe.space-iframe] of that body. *)
Theorem frame_url_is_genuine `{Platform} (CONFIG : Config) (world : World)
    (s : State) :
  (exists v, fst (getIframeUrl CONFIG world s) = Done v) /\
  forall src,
    fst (getIframeUrl CONFIG world s) = Done (Some src) ->
    truthy src = true /\
    exists resp html rest,
      world Wrapper (sentWrapper s) = Responds resp /\
      statusCode resp = 200 /\
      body_text resp = inr html /\
      select_space_iframe html = inr (Some src :: rest).
Proof.
  split.
  - destruct (getIframeUrl_spec CONFIG world s) as (d & _ & Hr & _). exact Hr.
  - intros src Hsome.
    destruct (getIframeUrl_sem CONFIG world s) as (d & _ & Hsem).
    rewrite Hsome in Hsem.
    destruct (cookie_header_for (spaceUrl CONFIG) (cookieStorage s)) as [header|e];
      [|destruct Hsem as [Hr _]; discriminate].
    destruct Hsem as [_ Hsem].
    destruct (world Wrapper (sentWrapper s)) as [resp|delay e];
      [|destruct Hsem as [Hr _]; discriminate].
    destruct Hsem as [_ [Hr|(src' & html & rest & [= ->] & Hcode & Hbody & Hsel & Hsrc)]];
      [discriminate|].
    split; [exact Hsrc|]. exists resp, html, rest. auto.
Qed.

Lemma frame_url_is_genuine_witness :
  truthy "https://u-s.example/?__sign=tok" = true /\
  exists resp html rest,
    Lab.all_up Wrapper (sentWrapper (Lab.ready Lab.space_and_direct)) = Responds resp /\
    statusCode resp = 200 /\
    body_text resp = inr html /\
    @select_space_iframe Lab.platform html =
      inr (Some "https://u-s.example/?__sign=tok" :: rest).
Proof.
  apply (proj2 (@frame_url_is_genuine Lab.platform Lab.space_and_direct Lab.all_up
                  (Lab.ready Lab.space_and_direct))).
  vm_compute. reflexivity.
Defined.


(** ** The push to the monitor *)

(** X17: what the monitor is sent and what its reply leaves.  When the
    monitor is ready and answers [200] with a reply that parses, the call
    sent it exactly one request, to the configured push URL, with the
    status, the message and the latency it was called with (no latency
    when there is none); a reply with [ok] set leaves no warning, and a
    reply without it leaves one warning, with the message of the reply or
    a default text when the reply has none. *)
Theorem push_request_and_reply `{Platform} (CONFIG : Config) (world : World)
    (s : State) (status : Status) (msg : string) (ping : option Z)
    (kuma : UptimeKuma) (resp : Response) (body : string) (ok : bool) (m : string) :
  monitor_ready CONFIG = Some kuma ->
  world Monitor (sentMonitor s) = Responds resp ->
  body_text resp = inr body ->
  statusCode resp = 200 ->
  parsePushReply body = inr (ok, m) ->
  let after := snd (pushToUptimeKuma CONFIG world status msg ping s) in
  monitor_requests (added s after) = [Push (pushUrl kuma) status msg ping] /\
  warnings (added s after) =
    (if ok then [] else [PushRejected (if truthy m then m else "未知错误")]).
Proof.
  intros Hready Hworld Hbody Hcode Hreply after. subst after.
  destruct (wp_conj _ _ _ _
              (pushToUptimeKuma_spec CONFIG world status msg ping s)
              (pushToUptimeKuma_warns CONFIG world status msg ping s kuma Hready))
    as (d & Ht & (_ & Hcore & _) & Hwarn).
  rewrite (added_app _ _ _ Ht). split.
  - rewrite <- monitor_requests_core, Hcore, monitor_requests_pushed.
    unfold monitor_sees. rewrite Hready. reflexivity.
  - rewrite Hwarn, Hworld. unfold monitor_warning.
    rewrite Hbody, Hcode, Hreply. reflexivity.
Qed.

Lemma push_request_and_reply_witness :
  let world : World :=
    fun site n =>
      match site with
      | Monitor => Responds (Lab.plain 200 Lab.reply_not_ok 7 1)
      | _ => Lab.all_up site n
      end in
  let s := Lab.ready Lab.direct_only in
  let after := snd (@pushToUptimeKuma Lab.platform Lab.direct_only world
                      Down "x" (Some 12) s) in
  monitor_requests (added s after) =
    [Push "https://kuma.example/api/push/k1" Down "x" (Some 12)] /\
  warnings (added s after) = [PushRejected "未知错误"].
Proof.
  intros world s after.
  apply (@push_request_and_reply Lab.platform Lab.direct_only world s Down "x"
           (Some 12) Lab.kuma (Lab.plain 200 Lab.reply_not_ok 7 1) Lab.reply_not_ok
           false "");
    reflexivity.
Defined.

(** X18: a push URL that does not parse.  When the monitor is
    configured and enabled but its push URL is not a valid URL, a call of
    the report operation sends nothing: it leaves one warning, with the
    message of the URL error, returns normally and does not touch the
    jar.  A whole poll cycle then sends no request to the monitor. *)
Theorem invalid_push_url_sends_nothing `{Platform} (CONFIG : Config)
    (world : World) (s : State) (status : Status) (msg : string)
    (ping : option Z) (kuma : UptimeKuma) (e : JsError) :
  uptimeKuma CONFIG = Some kuma ->
  enabled kuma = true ->
  new_URL_hostname (pushUrl kuma) = inl e ->
  pushToUptimeKuma CONFIG world status msg ping s =
    (Done tt,
     emit (ELog LWarn (PushException (err_message e)))
       (emit (ENotify status msg ping) s)) /\
  monitor_requests (added s (snd (keepAlive CONFIG world s))) = [].
Proof.
  intros Hkuma Henabled Hurl. split.
  - unfold pushToUptimeKuma. rewrite Hkuma, Henabled. simpl negb. cbv iota.
    unfold bind, try_catch, notified, lift. rewrite Hurl. reflexivity.
  - assert (Hready : monitor_ready CONFIG = None).
    { unfold monitor_ready. rewrite Hkuma, Henabled, Hurl. reflexivity. }
    destruct (last (attempts_of_cycle CONFIG world s)) as [rec|] eqn:Hlast.
    + destruct (cycle_ending CONFIG world s rec Hlast) as (_ & Hm & _).
      rewrite Hm. destruct (final_notification rec) as [[st m] p].
      unfold monitor_sees. rewrite Hready. reflexivity.
    + apply last_None in Hlast. apply no_attempts_no_events in Hlast.
      rewrite <- monitor_requests_core, Hlast. reflexivity.
Qed.

Lemma invalid_push_url_sends_nothing_witness :
  let CONFIG := mkConfig "" "https://u-s.example/app" "token=t0" 30000 [200] 3
                  (Some (mkUptimeKuma "kuma.example/api/push/k1" true)) in
  let after := snd (@pushToUptimeKuma Lab.platform CONFIG Lab.all_up Up "OK"
                      (Some 10) Lab.boot) in
  (monitor_requests (trace after) = [] /\
   warnings (trace after) = [PushException "Invalid URL"] /\
   sentMonitor after = 0%nat) /\
  monitor_requests
    (added (Lab.ready CONFIG)
       (snd (@keepAlive Lab.platform CONFIG Lab.all_up (Lab.ready CONFIG)))) = [].
Proof.
  intros CONFIG after. subst after.
  destruct (@invalid_push_url_sends_nothing Lab.platform CONFIG Lab.all_up Lab.boot
              Up "OK" (Some 10) (mkUptimeKuma "kuma.example/api/push/k1" true)
              (Cookie.TypeError "Invalid URL") eq_refl eq_refl eq_refl) as [Hpush _].
  rewrite Hpush. split; [repeat split|].
  apply (@invalid_push_url_sends_nothing Lab.platform CONFIG Lab.all_up
           (Lab.ready CONFIG) Up "OK" (Some 10)
           (mkUptimeKuma "kuma.example/api/push/k1" true)
           (Cookie.TypeError "Invalid URL") eq_refl eq_refl eq_refl).
Defined.


(** ** Start-up *)

Lemma indexOf_absent (args : list string) (x : string) :
  ~ In x args -> indexOf args x = None.
Proof.
  induction args as [|a args IH]; [reflexivity|]. intros Hnot. simpl.
  destruct (String.eqb_spec a x) as [->|Hne].
  - exfalso. apply Hnot. left. reflexivity.
  - rewrite IH; [reflexivity|]. intros Hin. apply Hnot. right. exact Hin.
Qed.

Lemma indexOf_first (pre rest : list string) (x : string) :
  ~ In x pre -> indexOf (pre ++ x :: rest) x = Some (length pre).
Proof.
  induction pre as [|a pre IH]; intros Hnot; simpl.
  - rewrite String.eqb_refl. reflexivity.
  - destruct (String.eqb_spec a x) as [->|Hne].
    + exfalso. apply Hnot. left. reflexivity.
    + rewrite IH; [reflexivity|]. intros Hin. apply Hnot. right. exact Hin.
Qed.

(** X19: where the configuration file comes from.  The path is the
    argument that follows the first [--config] of the command line,
    whatever [CONFIG_FILE] holds; when [--config] is not given, or is the
    last argument, the path is that of [CONFIG_FILE], and there is none
    when that variable is unset or empty. *)
Theorem config_path_precedence (node script : string)
    (pre post : list string) (path : string) (env : Env) :
  ~ In "--config" pre ->
  getConfigFilePath (node :: script :: pre ++ "--config" :: path :: post) env =
    Some path /\
  getConfigFilePath (node :: script :: pre ++ ["--config"]) env =
    non_empty (CONFIG_FILE env) /\
  getConfigFilePath (node :: script :: pre) env = non_empty (CONFIG_FILE env).
Proof.
  intros Hnot. unfold getConfigFilePath. cbn [drop skipn]. rewrite !drop_0.
  repeat split.
  - rewrite indexOf_first by exact Hnot.
    rewrite lookup_app_r by lia.
    replace (S (length pre) - length pre)%nat with 1%nat by lia. reflexivity.
  - rewrite indexOf_first by exact Hnot.
    rewrite lookup_ge_None_2; [reflexivity|]. rewrite length_app. simpl. lia.
  - rewrite indexOf_absent by exact Hnot. reflexivity.
Qed.

Lemma config_path_precedence_witness :
  let env := mkEnv None None None None None None None None (Some "env.json") in
  getConfigFilePath
    ["node"; "index.js"; "--verbose"; "--config"; "config.json"; "--config"; "x"] env =
    Some "config.json" /\
  getConfigFilePath ["node"; "index.js"; "--verbose"; "--config"] env =
    Some "env.json" /\
  getConfigFilePath ["node"; "index.js"; "--verbose"] env =
    Some "env.json".
Proof.
  intros env.
  apply (config_path_precedence "node" "index.js" ["--verbose"]
           ["--config"; "x"] "config.json" env).
  intros [Heq|[]]. discriminate.
Defined.

Lemma or_string_or_string (x : option string) (d : string) :
  or_string (Some (or_string x "")) d = or_string x d.
Proof.
  unfold or_string. destruct x as [v|]; [|reflexivity].
  destruct (truthy v) eqn:Hv; [rewrite Hv|]; reflexivity.
Qed.

Lemma or_number_nonzero (x : option Z) (d : Z) :
  d <> 0 -> (or_number x d =? 0) = false.
Proof.
  intros Hd. unfold or_number. destruct x as [v|]; [|lia].
  destruct (v =? 0) eqn:Hv; lia.
Qed.

(** X20: a configuration file shadows the numbers of the environment.
    When a configuration file is read, the interval, the expected status
    codes and the number of retries of the run are those of the file, or
    the defaults 30000, [200] and 5 for what the file leaves out, and
    [INTERVAL], [EXPECTED_STATUS_CODES] and [MAX_RETRIES] are not looked
    at.  A file that sets [interval] to 0 gets the default, but one that
    sets [maxRetries] to 0 keeps it.  The URLs and the cookie that the
    file leaves out or leaves empty do come from the environment. *)
Theorem file_shadows_environment `{Runtime} (path : string) (configData : ConfigFile)
    (env : Env) :
  truthy path = true ->
  readConfigFile path = inr configData ->
  exists loaded CONFIG,
    fileConfig (Some path) = Some (Some loaded) /\
    CONFIG_of (Some loaded) env = Some CONFIG /\
    interval CONFIG = or_number (cf_interval configData) 30000 /\
    expectedStatusCodes CONFIG = default [200] (cf_expectedStatusCodes configData) /\
    maxRetries CONFIG = default 5 (cf_maxRetries configData) /\
    spaceUrl CONFIG =
      or_string (cf_spaceUrl configData) (or_string (SPACE_URL env) "") /\
    targetUrl CONFIG =
      or_string (cf_targetUrl configData) (or_string (TARGET_URL env) "") /\
    cookie CONFIG =
      or_string (cf_currentCookie configData) (or_string (CURRENT_COOKIE env) "").
Proof.
  intros Hpath Hread.
  unfold fileConfig, loadConfigFromFile, non_empty. rewrite Hpath, Hread.
  eexists. eexists. split; [reflexivity|].
  unfold CONFIG_of. cbn [interval expectedStatusCodes maxRetries fmap option_fmap
                           option_map spaceUrl targetUrl cookie].
  rewrite or_number_nonzero by discriminate.
  cbn [mbind option_bind]. split; [reflexivity|].
  cbn [interval expectedStatusCodes maxRetries spaceUrl targetUrl cookie].
  rewrite !or_string_or_string. repeat split.
Qed.

Lemma file_shadows_environment_witness :
  let env := mkEnv None (Some "https://u-s.example/app") (Some "token=env")
                   (Some "soon") (Some "200,404") (Some "9") None None None in
  exists loaded CONFIG,
    @fileConfig Lab.runtime (Some "config.json") = Some (Some loaded) /\
    @CONFIG_of Lab.runtime (Some loaded) env = Some CONFIG /\
    interval CONFIG = 30000 /\
    expectedStatusCodes CONFIG = [200] /\
    maxRetries CONFIG = 0 /\
    spaceUrl CONFIG = "https://host/spaces/u/s" /\
    targetUrl CONFIG = "https://u-s.example/app" /\
    cookie CONFIG = "token=t0".
Proof.
  intros env.
  apply (@file_shadows_environment Lab.runtime "config.json" Lab.config_json env);
    reflexivity.
Defined.

Section Validation.
Context `{Platform}.

Lemma invalid_URL_false url :
  invalid_URL url = false <-> exists host, new_URL_hostname url = inr host.
Proof.
  unfold invalid_URL. destruct (new_URL_hostname url) as [e|host]; split.
  - discriminate.
  - intros [host Hhost]. discriminate.
  - eauto.
  - reflexivity.
Qed.

Lemma validateConfig_sem CONFIG :
  validateConfig CONFIG = None <->
  (truthy (spaceUrl CONFIG) = true \/ truthy (targetUrl CONFIG) = true) /\
  truthy (cookie CONFIG) = true /\
  forall url, configured CONFIG url -> exists host, new_URL_hostname url = inr host.
Proof.
  unfold validateConfig, configured. split.
  - destruct (truthy (spaceUrl CONFIG)) eqn:Hspace,
             (truthy (targetUrl CONFIG)) eqn:Htarget,
             (truthy (cookie CONFIG)) eqn:Hcookie; simpl; try discriminate;
      try (destruct (invalid_URL (spaceUrl CONFIG)) eqn:Hs; try discriminate);
      try (destruct (invalid_URL (targetUrl CONFIG)) eqn:Ht; try discriminate);
      intros _; (split; [auto|]); (split; [reflexivity|]);
      intros url [[->| ->] Hset]; try congruence;
      apply invalid_URL_false; assumption.
  - intros (Hurl & Hcookie & Hvalid). rewrite Hcookie.
    assert (Hs : truthy (spaceUrl CONFIG) = true ->
                 invalid_URL (spaceUrl CONFIG) = false).
    { intros Hset. apply invalid_URL_false, Hvalid. auto. }
    assert (Ht : truthy (targetUrl CONFIG) = true ->
                 invalid_URL (targetUrl CONFIG) = false).
    { intros Hset. apply invalid_URL_false, Hvalid. auto. }
    destruct (truthy (spaceUrl CONFIG)), (truthy (targetUrl CONFIG)); simpl;
      rewrite ?Hs, ?Ht by reflexivity; try reflexivity.
    destruct Hurl; discriminate.
Qed.
End Validation.

(** X21: what validation lets through.  [validateConfig] returns, instead
    of ending the process, exactly when a wrapper URL or a direct target
    URL is set, the cookie is set, and every URL that is set is accepted
    by the URL parser.  The push URL of the monitor is not looked at. *)
Theorem validateConfig_passes `{Platform} (CONFIG : Config) :
  (validateConfig CONFIG = None <->
   (truthy (spaceUrl CONFIG) = true \/ truthy (targetUrl CONFIG) = true) /\
   truthy (cookie CONFIG) = true /\
   forall url, configured CONFIG url -> exists host, new_URL_hostname url = inr host) /\
  forall kuma,
    validateConfig
      (mkConfig (spaceUrl CONFIG) (targetUrl CONFIG) (cookie CONFIG)
                (interval CONFIG) (expectedStatusCodes CONFIG) (maxRetries CONFIG)
                kuma) =
    validateConfig CONFIG.
Proof.
  split; [apply validateConfig_sem|]. intros kuma. reflexivity.
Qed.

Lemma validateConfig_passes_witness :
  (truthy (spaceUrl Lab.space_only) = true \/
   truthy (targetUrl Lab.space_only) = true) /\
  truthy (cookie Lab.space_only) = true /\
  forall url,
    configured Lab.space_only url ->
    exists host, @new_URL_hostname Lab.platform url = inr host.
Proof.
  apply (proj1 (@validateConfig_passes Lab.platform Lab.space_only)).
  reflexivity.
Defined.




(** ** How often the wrapper page is fetched *)


Section WrapperBudget.
Context `{Platform} (CONFIG : Config) (world : World).









End WrapperBudget.




(** ** The request to a resolved frame *)

Section FrameRequest.
Context `{Platform} (CONFIG : Config) (world : World).

End FrameRequest.


